(** * pip-boy map pipeline: a shallow embedding and its checked properties

    An embedding of the map rendering core of pip-boy-tui
    (src/pip-boy-tui/src/map): the braille pixel buffer, the canvas
    rasteriser, the coordinate, distance and colour utilities, the tile
    parser, the tile source with its cache, the label index, and the
    renderer's viewport state, tile grid, screen projection and draw
    latch.

    Conventions of the model
    - JavaScript numbers that the code uses as integers (pixel and cell
      coordinates, colour indices, array indices) are [Z]; typed-array
      stores wrap modulo 256 ([to_uint8]).
    - JavaScript numbers that the code uses as geographic quantities
      (degrees, zoom, tile fractions) are real numbers [R], with the
      decimal literals of the source kept as written; NaN and the
      infinities are outside the model.  Where a property depends on how
      binary64 rounds, the code is modelled a second time: module
      [Binary64] repeats the viewport arithmetic that needs no
      transcendental function on IEEE doubles, to run the scenarios as
      JavaScript computes them, and module [Rounded] repeats the Mercator
      conversions and [pan] with every operation rounded and every [Math]
      function approximated, to bound the error of what they return.
    - A JavaScript string is the list of its UTF-16 code units ([jsstr]);
      cache keys and colour strings, which are ASCII, are [string].
    - A thrown exception is the [None] / [Err] branch of the result.

    The first part holds the definitions, one module per source file; the
    second part holds the theorems. *)

From Stdlib Require Import Ascii String ZArith List Lia Bool Decimal DecimalString Reals Lra.
From Stdlib Require Import DecimalPos DecimalZ DecimalFacts.
From Stdlib Require Import Floats.
From stdpp Require Import gmap strings list.

#[local] Set Warnings "-inexact-float".

Local Open Scope Z_scope.

(* ===================================================================== *)
(** * Part I: the model                                                   *)
(* ===================================================================== *)

(** ** JavaScript strings and arrays *)

(** A string as its sequence of UTF-16 code units. *)
Abbreviation jsstr := (list Z).

(** [String.fromCharCode(n)] for an integer [n]: one code unit, modulo 2^16. *)
Definition fromCharCode (n : Z) : jsstr := [n mod 65536].

(** [s.charAt(i)]: the one-unit string at [i], the empty string outside. *)
Definition charAt (s : jsstr) (i : nat) : jsstr :=
  match s !! i with Some c => [c] | None => [] end.

(** [parts.join("")]. *)
Definition join (parts : list jsstr) : jsstr := concat parts.

(** Decimal digits of a [Decimal.uint], as code units. *)
Fixpoint uint_units (d : Decimal.uint) : jsstr :=
  match d with
  | Nil => []
  | D0 u => 48 :: uint_units u
  | D1 u => 49 :: uint_units u
  | D2 u => 50 :: uint_units u
  | D3 u => 51 :: uint_units u
  | D4 u => 52 :: uint_units u
  | D5 u => 53 :: uint_units u
  | D6 u => 54 :: uint_units u
  | D7 u => 55 :: uint_units u
  | D8 u => 56 :: uint_units u
  | D9 u => 57 :: uint_units u
  end.

(** The text a template literal [`${n}`] gives for an integer [n]. *)
Definition num_units (n : Z) : jsstr :=
  match Z.to_int n with
  | Decimal.Pos d => uint_units d
  | Decimal.Neg d => 45 :: uint_units d
  end.

(** A [Uint8Array] store keeps the value modulo 256. *)
Definition to_uint8 (v : Z) : Z := v mod 256.

(** Typed-array read [a[i]]: [None] is JavaScript's [undefined]. *)
Definition ta_get (a : list Z) (i : Z) : option Z :=
  if i <? 0 then None else a !! Z.to_nat i.

(** Typed-array write [a[i] = v]: converted to a byte, ignored out of range
    (a typed array never grows). *)
Definition ta_set (a : list Z) (i : Z) (v : Z) : list Z :=
  if i <? 0 then a else <[Z.to_nat i := to_uint8 v]> a.

(** Plain-array write [a[i] = v] on an array of nullable strings: an index
    past the end extends the array, the gap reading as [undefined]. *)
Definition arr_set (a : list (option jsstr)) (i : Z) (v : option jsstr)
  : list (option jsstr) :=
  if i <? 0 then a
  else if (Z.to_nat i <? length a)%nat then <[Z.to_nat i := v]> a
  else a ++ replicate (Z.to_nat i - length a) None ++ [v].

(** Plain-array read [a[i] ?? null]. *)
Definition arr_get (a : list (option jsstr)) (i : Z) : option jsstr :=
  if i <? 0 then None else default None (a !! Z.to_nat i).

(** ** utils.ts *)

Module Utils.

Definition TILE_SIZE : R := 256.

Record LatLon := mkLatLon { lat : R; lon : R }.

Record TileCoord := mkTileCoord { x : R; y : R; z : R }.

(** [Math.PI]: the double nearest to pi, 0x1.921fb54442d18p+1, exactly. *)
Definition Math_PI : R := (884279719003555 / 281474976710656)%R.

(** [Math.pow(2, e)]. *)
Definition pow2 (e : R) : R := Rpower 2 e.

(** [Math.floor]. *)
Definition floor (v : R) : R := IZR (Zfloor v).

(** [a < b] on numbers, as a boolean. *)
Definition Rltb (a b : R) : bool := if Rlt_dec a b then true else false.

Definition clamp (num min max : R) : R :=
  if Rle_dec num min then min else if Rge_dec num max then max else num.

Definition deg2rad (angle : R) : R := (angle * 0.017453292519943295)%R.

Definition rad2deg (angle : R) : R := (angle * 57.29577951308232)%R.

Definition ll2tile (lon lat zoom : R) : TileCoord :=
  let n := pow2 zoom in
  {| x := ((lon + 180) / 360 * n)%R;
     y := ((1 - ln (tan (lat * Math_PI / 180) + 1 / cos (lat * Math_PI / 180))
                 / Math_PI) / 2 * n)%R;
     z := zoom |}.

Definition tile2ll (x y zoom : R) : LatLon :=
  let n := (Math_PI - 2 * Math_PI * y / pow2 zoom)%R in
  {| lon := (x / pow2 zoom * 360 - 180)%R;
     lat := rad2deg (atan (0.5 * (exp n - exp (- n)))) |}.

(** [baseZoom(zoom, maxZoom = 14)]. *)
Definition baseZoom_max (zoom maxZoom : R) : R :=
  Rmin maxZoom (Rmax 0 (floor zoom)).

Definition baseZoom (zoom : R) : R := baseZoom_max zoom 14.

Definition tileSizeAtZoom (zoom : R) : R :=
  (TILE_SIZE * pow2 (zoom - baseZoom zoom))%R.

Definition normalize (ll : LatLon) : LatLon :=
  let lon0 := lon ll in
  let lon1 := if Rlt_dec lon0 (-180) then (lon0 + 360)%R else lon0 in
  let lon2 := if Rgt_dec lon1 180 then (lon1 - 360)%R else lon1 in
  {| lon := lon2; lat := clamp (lat ll) (-85.0511) 85.0511 |}.

(** *** Colours *)

(** The value of a hexadecimal digit, if the character is one. *)
Definition hexval (c : ascii) : option Z :=
  let n := Z.of_nat (nat_of_ascii c) in
  if (48 <=? n) && (n <=? 57) then Some (n - 48)
  else if (97 <=? n) && (n <=? 102) then Some (n - 87)
  else if (65 <=? n) && (n <=? 70) then Some (n - 55)
  else None.

(** The longest run of hexadecimal digits at the head of [s], read in base
    16 on top of [acc]; [seen] tells whether a digit was read. *)
Fixpoint hexrun (s : string) (acc : Z) (seen : bool) : option Z :=
  match s with
  | EmptyString => if seen then Some acc else None
  | String c r =>
      match hexval c with
      | Some d => hexrun r (acc * 16 + d) true
      | None => if seen then Some acc else None
      end
  end.

Definition is_space (c : ascii) : bool :=
  let n := nat_of_ascii c in
  ((9 <=? n) && (n <=? 13))%nat || (n =? 32)%nat.

Fixpoint skip_spaces (s : string) : string :=
  match s with
  | String c r => if is_space c then skip_spaces r else s
  | EmptyString => s
  end.

Definition skip_0x (s : string) : string :=
  match s with
  | String "0"%char (String "x"%char r) => r
  | String "0"%char (String "X"%char r) => r
  | _ => s
  end.

(** [parseInt(s, 16)]: leading blanks, a sign, an optional [0x], then the
    digits; [None] is NaN.  The value is exact, as the double is for up to
    thirteen digits. *)
Definition parseInt16 (s : string) : option Z :=
  match skip_spaces s with
  | String "-"%char r => Z.opp <$> hexrun (skip_0x r) 0 false
  | String "+"%char r => hexrun (skip_0x r) 0 false
  | r => hexrun (skip_0x r) 0 false
  end.

(** [color.replace("#", "")]: the first [#] is removed. *)
Fixpoint remove_hash (s : string) : string :=
  match s with
  | EmptyString => EmptyString
  | String c r => if Ascii.eqb c "#"%char then r else String c (remove_hash r)
  end.

(** [hex2rgb]; a channel that is NaN is [None].  In the six-digit branch
    the shifts turn NaN into 0. *)
Definition hex2rgb (color : string) : option Z * option Z * option Z :=
  let color := remove_hash color in
  match color with
  | String c0 (String c1 (String c2 EmptyString)) =>
      (parseInt16 (String c0 (String c0 EmptyString)),
       parseInt16 (String c1 (String c1 EmptyString)),
       parseInt16 (String c2 (String c2 EmptyString)))
  | _ =>
      let decimal := default 0 (parseInt16 color) in
      (Some (Z.land (Z.shiftr decimal 16) 255),
       Some (Z.land (Z.shiftr decimal 8) 255),
       Some (Z.land decimal 255))
  end.

(** [Math.round(a / b * c)] for integers [a], [c] and a positive integer
    [b]: the nearest integer to [a * c / b], halves rounding up. *)
Definition round_ratio (a b c : Z) : Z := (2 * a * c + b) / (2 * b).

Definition rgb2xterm (r g b : Z) : Z :=
  if (r =? g) && (g =? b) then
    if r <? 8 then 16
    else if r >? 248 then 231
    else round_ratio (r - 8) 247 23 + 232
  else
    let ri := round_ratio r 255 5 in
    let gi := round_ratio g 255 5 in
    let bi := round_ratio b 255 5 in
    16 + 36 * ri + 6 * gi + bi.

(** [hex2xterm]; [None] is NaN, which any NaN channel produces. *)
Definition hex2xterm (hex : string) : option Z :=
  match hex2rgb hex with
  | (Some r, Some g, Some b) => Some (rgb2xterm r g b)
  | _ => None
  end.

Definition hexdigit (d : Z) : ascii :=
  if d <? 10 then ascii_of_nat (Z.to_nat (48 + d))
  else ascii_of_nat (Z.to_nat (87 + d)).

(** [v.toString(16).padStart(2, "0")] for [0 <= v < 256]. *)
Definition toHex2 (v : Z) : string :=
  String (hexdigit (v / 16)) (String (hexdigit (v mod 16)) EmptyString).

Definition basic : list string :=
  [ "#000000"; "#800000"; "#008000"; "#808000";
    "#000080"; "#800080"; "#008080"; "#c0c0c0";
    "#808080"; "#ff0000"; "#00ff00"; "#ffff00";
    "#0000ff"; "#ff00ff"; "#00ffff"; "#ffffff" ]%string.

(** The channel value of a cube coordinate: [v === 0 ? 0 : 55 + v * 40]. *)
Definition cubeLevel (v : Z) : Z := if v =? 0 then 0 else 55 + v * 40.

(** The closure [toHex] of [xterm2hex]'s colour-cube branch. *)
Definition cubeHex (v : Z) : string := toHex2 (cubeLevel v).

Definition xterm2hex (index : Z) : string :=
  if (index <? 0) || (index >? 255) then "#000000"%string
  else if index <? 16 then default "#000000"%string (basic !! Z.to_nat index)
  else if index <? 232 then
    let i := index - 16 in
    let r := i / 36 in
    let g := (i mod 36) / 6 in
    let b := i mod 6 in
    ("#" +:+ cubeHex r +:+ cubeHex g +:+ cubeHex b)%string
  else
    let grey := 8 + (index - 232) * 10 in
    let h := toHex2 grey in
    ("#" +:+ h +:+ h +:+ h)%string.

(** *** Distances and bearings *)

Definition EARTH_RADIUS : R := 6378137.

(** [Math.round]: the nearest integer, halves rounding up. *)
Definition Math_round (v : R) : Z := Zfloor (v + / 2).

(** [a % b] on numbers: what is left of [a] after the quotient, cut
    towards zero, is taken off. *)
Definition Ztrunc (v : R) : Z := if Rlt_dec v 0 then Zceil v else Zfloor v.

Definition js_rem (a b : R) : R := (a - b * IZR (Ztrunc (a / b)))%R.

(** [Math.atan2(y, x)]: the angle of the point (x, y), in (-pi, pi]. *)
Definition Math_atan2 (y x : R) : R :=
  if Rlt_dec 0 x then atan (y / x)
  else if Rlt_dec x 0 then
    (if Rle_dec 0 y then atan (y / x) + PI else atan (y / x) - PI)%R
  else if Rlt_dec 0 y then (PI / 2)%R
  else if Rlt_dec y 0 then (- (PI / 2))%R
  else 0%R.

(** The constant [h] of [haversine]. *)
Definition haversine_h (a b : LatLon) : R :=
  let dLat := deg2rad (lat b - lat a) in
  let dLon := deg2rad (lon b - lon a) in
  let sinLat := sin (dLat / 2) in
  let sinLon := sin (dLon / 2) in
  (sinLat * sinLat
   + cos (deg2rad (lat a)) * cos (deg2rad (lat b)) * sinLon * sinLon)%R.

Definition haversine (a b : LatLon) : R :=
  (2 * EARTH_RADIUS * asin (R_sqrt.sqrt (haversine_h a b)))%R.

Definition bearing (a b : LatLon) : R :=
  let dLon := deg2rad (lon b - lon a) in
  let lat1 := deg2rad (lat a) in
  let lat2 := deg2rad (lat b) in
  let y := (sin dLon * cos lat2)%R in
  let x := (cos lat1 * sin lat2 - sin lat1 * cos lat2 * cos dLon)%R in
  js_rem (rad2deg (Math_atan2 y x) + 360) 360.

Definition dirs : list string :=
  [ "N"; "NE"; "E"; "SE"; "S"; "SW"; "W"; "NW" ]%string.

(** [bearingToCompass]; [None] is the [undefined] that [dirs[idx]] gives
    for a negative index. *)
Definition bearingToCompass (deg : R) : option string :=
  let idx := Z.rem (Math_round (deg / 45)) 8 in
  if idx <? 0 then None else dirs !! Z.to_nat idx.

(** *** Bit counting *)

(** The 32-bit integer the bitwise operators see of an integer. *)
Definition toInt32 (v : Z) : Z := (v + 2 ^ 31) mod 2 ^ 32 - 2 ^ 31.

(** The loop of [population], cut off after [fuel] rounds. *)
Fixpoint population_loop (fuel : nat) (val bits : Z) : option Z :=
  match fuel with
  | O => None
  | S fuel' =>
      if val >? 0 then
        population_loop fuel' (Z.shiftr (toInt32 val) 1)
                        (bits + Z.land (toInt32 val) 1)
      else Some bits
  end.

(** [population] of an integer: the first round leaves a 32-bit value,
    every later round halves it. *)
Definition population (val : Z) : option Z := population_loop 33 val 0.

(** The number of bits set among the lowest [n] bits of [v]. *)
Definition bitcount (n : nat) (v : Z) : Z :=
  Z.of_nat (length (filter (fun i => Z.testbit v (Z.of_nat i) = true) (seq 0 n))).

End Utils.

(** ** braille-buffer.ts *)

Module BrailleBuffer.

Definition BRAILLE_OFFSET : Z := 0x2800.

(** [BRAILLE_MAP[row][col]] is the bit of the dot at that place of a cell. *)
Definition BRAILLE_MAP : list (list Z) :=
  [ [0x01; 0x08]; [0x02; 0x10]; [0x04; 0x20]; [0x40; 0x80] ].

Record t := mk {
  width : Z;
  height : Z;
  charWidth : Z;
  charHeight : Z;
  pixelBuffer : list Z;
  foregroundBuffer : list Z;
  backgroundBuffer : list Z;
  charBuffer : list (option jsstr);
  globalBackground : Z
}.

Definition with_pixel (b : t) (p : list Z) : t :=
  mk (width b) (height b) (charWidth b) (charHeight b)
     p (foregroundBuffer b) (backgroundBuffer b) (charBuffer b)
     (globalBackground b).

Definition with_foreground (b : t) (f : list Z) : t :=
  mk (width b) (height b) (charWidth b) (charHeight b)
     (pixelBuffer b) f (backgroundBuffer b) (charBuffer b)
     (globalBackground b).

Definition with_background (b : t) (g : list Z) : t :=
  mk (width b) (height b) (charWidth b) (charHeight b)
     (pixelBuffer b) (foregroundBuffer b) g (charBuffer b)
     (globalBackground b).

Definition with_char (b : t) (c : list (option jsstr)) : t :=
  mk (width b) (height b) (charWidth b) (charHeight b)
     (pixelBuffer b) (foregroundBuffer b) (backgroundBuffer b) c
     (globalBackground b).

Definition with_globalBackground (b : t) (g : Z) : t :=
  mk (width b) (height b) (charWidth b) (charHeight b)
     (pixelBuffer b) (foregroundBuffer b) (backgroundBuffer b)
     (charBuffer b) g.

(** The constructor.  [%] is JavaScript's remainder ([Z.rem]); allocating
    an array of negative length throws a RangeError ([None]). *)
Definition new (w h : Z) : option t :=
  let width := w - Z.rem w 2 in
  let height := h - Z.rem h 4 in
  let charWidth := Z.shiftr width 1 in
  let charHeight := Z.shiftr height 2 in
  let cellCount := charWidth * charHeight in
  if cellCount <? 0 then None
  else
    let n := Z.to_nat cellCount in
    Some (mk width height charWidth charHeight
             (replicate n 0) (replicate n 0) (replicate n 0) (replicate n None) 0).

Definition clear (b : t) : t :=
  mk (width b) (height b) (charWidth b) (charHeight b)
     (replicate (length (pixelBuffer b)) 0)
     (replicate (length (foregroundBuffer b)) 0)
     (replicate (length (backgroundBuffer b)) 0)
     (replicate (length (charBuffer b)) None)
     (globalBackground b).

Definition cellIndex (b : t) (x y : Z) : Z :=
  Z.shiftr x 1 + charWidth b * Z.shiftr y 2.

(** The guard every pixel operation opens with. *)
Definition outside (b : t) (x y : Z) : bool :=
  (x <? 0) || (x >=? width b) || (y <? 0) || (y >=? height b).

(** [BRAILLE_MAP[y & 3]] then [row[x & 1]]; [None] is [undefined]. *)
Definition dotMask (x y : Z) : option Z :=
  match BRAILLE_MAP !! Z.to_nat (Z.land y 3) with
  | None => None
  | Some row => row !! Z.to_nat (Z.land x 1)
  end.

(** [undefined | mask] and [undefined & ~mask] read [undefined] as 0. *)
Definition setPixel (x y color : Z) (b : t) : t :=
  if outside b x y then b
  else
    let idx := cellIndex b x y in
    match dotMask x y with
    | None => b
    | Some mask =>
        let old := default 0 (ta_get (pixelBuffer b) idx) in
        let b1 := with_pixel b (ta_set (pixelBuffer b) idx (Z.lor old mask)) in
        with_foreground b1 (ta_set (foregroundBuffer b1) idx color)
    end.

Definition unsetPixel (x y : Z) (b : t) : t :=
  if outside b x y then b
  else
    let idx := cellIndex b x y in
    match dotMask x y with
    | None => b
    | Some mask =>
        let old := default 0 (ta_get (pixelBuffer b) idx) in
        with_pixel b (ta_set (pixelBuffer b) idx (Z.land old (Z.lnot mask)))
    end.

Definition setBackground (x y color : Z) (b : t) : t :=
  if outside b x y then b
  else
    let idx := cellIndex b x y in
    with_background b (ta_set (backgroundBuffer b) idx color).

Definition setChar (char : jsstr) (x y color : Z) (b : t) : t :=
  if outside b x y then b
  else
    let idx := cellIndex b x y in
    let b1 := with_char b (arr_set (charBuffer b) idx (Some char)) in
    with_foreground b1 (ta_set (foregroundBuffer b1) idx color).

(** The loop of [writeText]: [setChar(text.charAt(i), x + i * 2, y, color)]
    for [i] from [i0] on, [n] times. *)
Fixpoint writeText_loop (text : jsstr) (x y color : Z) (i0 n : nat) (b : t) : t :=
  match n with
  | O => b
  | S n' =>
      writeText_loop text x y color (S i0) n'
        (setChar (charAt text i0) (x + Z.of_nat i0 * 2) y color b)
  end.

Definition writeText (text : jsstr) (x y color : Z) (center : bool) (b : t) : t :=
  let x := if center then x - (Z.of_nat (length text) + 1) else x in
  writeText_loop text x y color 0 (length text) b.

(** [_termColor]: [bg || this.globalBackground], then the four cases. *)
Definition termColor (b : t) (fg bg : Z) : jsstr :=
  let effectiveBg := if bg =? 0 then globalBackground b else bg in
  if negb (fg =? 0) && negb (effectiveBg =? 0) then
    [27; 91; 51; 56; 59; 53; 59] ++ num_units fg
      ++ [59; 52; 56; 59; 53; 59] ++ num_units effectiveBg ++ [109]
  else if negb (fg =? 0) then
    [27; 91; 52; 57; 59; 51; 56; 59; 53; 59] ++ num_units fg ++ [109]
  else if negb (effectiveBg =? 0) then
    [27; 91; 51; 57; 59; 52; 56; 59; 53; 59] ++ num_units effectiveBg ++ [109]
  else [27; 91; 51; 57; 59; 52; 57; 109].

(** ["\x1B[39;49m"]. *)
Definition termReset : jsstr := [27; 91; 51; 57; 59; 52; 57; 109].

(** [char.length > 1 ? char.length - 1 : 0]. *)
Definition extraColumns (char : jsstr) : Z :=
  if 1 <? Z.of_nat (length char) then Z.of_nat (length char) - 1 else 0.

(** The cell columns [0 .. charWidth-1] and rows [0 .. charHeight-1]. *)
Definition columns (b : t) : list Z := map Z.of_nat (seq 0 (Z.to_nat (charWidth b))).
Definition rows (b : t) : list Z := map Z.of_nat (seq 0 (Z.to_nat (charHeight b))).

(** *** toLines

    One pass of the inner loop's body.  The state is [currentColor], which
    the source declares outside both loops, the row's [skip] counter and
    the row's [parts].  A read past the typed arrays gives [undefined]:
    falsy in [_termColor] (as 0), and in [BRAILLE_OFFSET + undefined] a NaN
    whose character code is 0. *)
Definition toLines_cell (b : t) (cy : Z)
    (st : option jsstr * Z * list jsstr) (cx : Z)
  : option jsstr * Z * list jsstr :=
  let '(currentColor, skip, parts) := st in
  let idx := cy * charWidth b + cx in
  let colorCode :=
    termColor b (default 0 (ta_get (foregroundBuffer b) idx))
                (default 0 (ta_get (backgroundBuffer b) idx)) in
  let '(currentColor, parts) :=
    if bool_decide (currentColor = Some colorCode) then (currentColor, parts)
    else (Some colorCode, parts ++ [colorCode]) in
  match arr_get (charBuffer b) idx with
  | Some char =>
      if 0 <? skip then (currentColor, skip - 1, parts)
      else (currentColor, skip + extraColumns char, parts ++ [char])
  | None =>
      if 0 <? skip then (currentColor, skip - 1, parts)
      else
        let glyph :=
          match ta_get (pixelBuffer b) idx with
          | Some p => fromCharCode (BRAILLE_OFFSET + p)
          | None => [0]
          end in
        (currentColor, skip, parts ++ [glyph])
  end.

(** One pass of the outer loop's body: a row, ended by [termReset]. *)
Definition toLines_row (b : t) (st : option jsstr * list jsstr) (cy : Z)
  : option jsstr * list jsstr :=
  let '(currentColor, lines) := st in
  let '(currentColor, _, parts) :=
    fold_left (toLines_cell b cy) (columns b) (currentColor, 0, []) in
  (currentColor, lines ++ [join (parts ++ [termReset])]).

Definition toLines (b : t) : list jsstr :=
  snd (fold_left (toLines_row b) (rows b) (None, [])).



(** *** toPlainLines *)
Definition toPlainLines_cell (b : t) (cy : Z)
    (st : Z * list jsstr) (cx : Z) : Z * list jsstr :=
  let '(skip, parts) := st in
  let idx := cy * charWidth b + cx in
  match arr_get (charBuffer b) idx with
  | Some char =>
      if 0 <? skip then (skip - 1, parts)
      else (skip + extraColumns char, parts ++ [char])
  | None =>
      if 0 <? skip then (skip - 1, parts)
      else
        (skip, parts ++
           [fromCharCode (BRAILLE_OFFSET + default 0 (ta_get (pixelBuffer b) idx))])
  end.

Definition toPlainLines_row (b : t) (cy : Z) : jsstr :=
  join (snd (fold_left (toPlainLines_cell b cy) (columns b) (0, []))).

Definition toPlainLines (b : t) : list jsstr :=
  map (toPlainLines_row b) (rows b).

(** *** toColoredCells *)
Record ColoredCell := mkCell { char : jsstr; fgHex : string }.

Definition toColoredCells_cell (b : t) (cy : Z)
    (st : Z * list ColoredCell) (cx : Z) : Z * list ColoredCell :=
  let '(skip, row) := st in
  let idx := cy * charWidth b + cx in
  let fgColor := default 0 (ta_get (foregroundBuffer b) idx) in
  let fgHex := if fgColor =? 0 then "#000000"%string else Utils.xterm2hex fgColor in
  match arr_get (charBuffer b) idx with
  | Some char =>
      if 0 <? skip then (skip - 1, row)
      else (skip + extraColumns char, row ++ [mkCell char fgHex])
  | None =>
      if 0 <? skip then (skip - 1, row)
      else
        (skip, row ++
           [mkCell (fromCharCode
                      (BRAILLE_OFFSET + default 0 (ta_get (pixelBuffer b) idx)))
                   fgHex])
  end.

Definition toColoredCells_row (b : t) (cy : Z) : list ColoredCell :=
  snd (fold_left (toColoredCells_cell b cy) (columns b) (0, [])).

Definition toColoredCells (b : t) : list (list ColoredCell) :=
  map (toColoredCells_row b) (rows b).

(** *** Buffer histories

    The calls a client can make on a buffer, and the buffer they leave. *)
Inductive op :=
| SetPixel (x y color : Z)
| UnsetPixel (x y : Z)
| SetBackground (x y color : Z)
| SetChar (char : jsstr) (x y color : Z)
| WriteText (text : jsstr) (x y color : Z) (center : bool)
| Clear
| SetGlobalBackground (color : Z).

Definition apply (b : t) (o : op) : t :=
  match o with
  | SetPixel x y c => setPixel x y c b
  | UnsetPixel x y => unsetPixel x y b
  | SetBackground x y c => setBackground x y c b
  | SetChar ch x y c => setChar ch x y c b
  | WriteText s x y c ctr => writeText s x y c ctr b
  | Clear => clear b
  | SetGlobalBackground c => with_globalBackground b c
  end.

Definition run (ops : list op) (b : t) : t := fold_left apply ops b.

(** *** Invariants of a constructed buffer *)

Definition is_byte (v : Z) : Prop := 0 <= v < 256.

(** What the constructor establishes and every operation keeps: the pixel
    size is the cell grid times (2, 4), the four arrays have one slot per
    cell, and the typed arrays hold bytes. *)
Record wf (b : t) : Prop := mk_wf {
  wf_width : width b = 2 * charWidth b;
  wf_height : height b = 4 * charHeight b;
  wf_pixel : length (pixelBuffer b) = Z.to_nat (charWidth b * charHeight b);
  wf_foreground : length (foregroundBuffer b) = Z.to_nat (charWidth b * charHeight b);
  wf_background : length (backgroundBuffer b) = Z.to_nat (charWidth b * charHeight b);
  wf_char : length (charBuffer b) = Z.to_nat (charWidth b * charHeight b);
  wf_pixel_bytes : Forall is_byte (pixelBuffer b);
  wf_foreground_bytes : Forall is_byte (foregroundBuffer b);
  wf_background_bytes : Forall is_byte (backgroundBuffer b)
}.

(** The bit index of a dot, from the layout in the file's header:
    rows 0..2 of the left column are bits 0..2, of the right column bits
    3..5, and row 3 holds bits 6 and 7. *)
Definition dotBit (x y : Z) : Z :=
  let row := y mod 4 in
  let col := x mod 2 in
  if row <? 3 then row + 3 * col else 6 + col.

(** The state of the dot at pixel [(x, y)], as the byte of its cell
    holds it, and the glyph and the colour sequence of the cell at column
    [cx] of row [cy], as the exports read them. *)
Definition dotSet (b : t) (x y : Z) : bool :=
  Z.testbit (default 0 (ta_get (pixelBuffer b) (cellIndex b x y))) (dotBit x y).

Definition cellGlyph (b : t) (cy cx : Z) : jsstr :=
  let idx := cy * charWidth b + cx in
  match arr_get (charBuffer b) idx with
  | Some char => char
  | None => fromCharCode (BRAILLE_OFFSET + default 0 (ta_get (pixelBuffer b) idx))
  end.

Definition cellCode (b : t) (cy cx : Z) : jsstr :=
  let idx := cy * charWidth b + cx in
  termColor b (default 0 (ta_get (foregroundBuffer b) idx))
              (default 0 (ta_get (backgroundBuffer b) idx)).

(** A call whose glyph, if it sets one, is a single UTF-16 unit; a buffer
    all of whose glyphs are. *)
Definition unit_op (o : op) : Prop :=
  match o with
  | SetChar ch _ _ _ => length ch = 1%nat
  | _ => True
  end.

Definition unit_glyphs (b : t) : Prop :=
  Forall (fun o => forall g, o = Some g -> length g = 1%nat) (charBuffer b).

(** The line [toLines] makes of row [cy] when [cc] is the colour sequence
    current at its start. *)
Definition line_from (b : t) (cc : option jsstr) (cy : Z) : jsstr :=
  join (snd (fold_left (toLines_cell b cy) (columns b) (cc, 0, [])) ++ [termReset]).

(** [b'] comes from [b] by setting dots at pixels that satisfy [P], and
    nothing else: the size, the glyphs and the backgrounds are those of
    [b], and so is every dot of the buffer at a pixel that does not
    satisfy [P]. *)
Definition painted_within (P : Z -> Z -> Prop) (b b' : t) : Prop :=
  (width b', height b', charWidth b', charHeight b')
    = (width b, height b, charWidth b, charHeight b)
  /\ charBuffer b' = charBuffer b
  /\ backgroundBuffer b' = backgroundBuffer b
  /\ globalBackground b' = globalBackground b
  /\ forall x y, outside b x y = false -> ~ P x y -> dotSet b' x y = dotSet b x y.

(** *** Stripping escape sequences

    Follows the spec's words ("stripping the ANSI escape sequences"): every
    colour sequence, ESC [ followed by digits and semicolons and closed by
    m, is removed; everything else is kept.  [pending] holds the units of a
    sequence that has opened and not yet closed. *)
Definition ESC : Z := 27.

Definition is_param (c : Z) : bool := ((48 <=? c) && (c <=? 57)) || (c =? 59).

Fixpoint strip_from (pending : option jsstr) (s : jsstr) : jsstr :=
  match s with
  | [] => default [] pending
  | c :: r =>
      let plain := if c =? ESC then strip_from (Some [ESC]) r
                   else c :: strip_from None r in
      match pending with
      | None => plain
      | Some p =>
          if (length p =? 1)%nat then
            if c =? 91 then strip_from (Some (p ++ [c])) r else p ++ plain
          else if c =? 109 then strip_from None r
          else if is_param c then strip_from (Some (p ++ [c])) r
          else p ++ plain
      end
  end.

Definition stripAnsi (s : jsstr) : jsstr := strip_from None s.

(** A glyph without the escape character. *)
Definition esc_free (g : jsstr) : Prop := ESC ∉ g.

(** A call whose glyphs are free of the escape character and whose global
    background, if it sets one, is a colour index (not negative). *)
Definition plain_op (o : op) : Prop :=
  match o with
  | SetChar ch _ _ _ => esc_free ch
  | WriteText s _ _ _ _ => esc_free s
  | SetGlobalBackground c => 0 <= c
  | _ => True
  end.

(** The text of a row of coloured cells. *)
Definition cells_text (row : list ColoredCell) : jsstr := join (map char row).

(** Units that can stand between the bracket and the closing m. *)
Definition param_units (s : jsstr) : Prop := Forall (fun c => is_param c = true) s.

(** A colour sequence: ESC [ parameters m. *)
Definition is_code (c : jsstr) : Prop :=
  exists params, c = ESC :: 91 :: params ++ [109] /\ param_units params.

(** The buffer's glyphs are free of ESC and its global background is a
    colour index. *)
Definition clean (b : t) : Prop :=
  Forall (fun o => forall g, o = Some g -> esc_free g) (charBuffer b)
  /\ 0 <= globalBackground b.

(** [parts], with colour sequences among its pieces, strips to [parts']. *)
Definition same_text (parts parts' : list jsstr) : Prop :=
  forall rest, strip_from None (join parts ++ rest) = join parts' ++ strip_from None rest.

End BrailleBuffer.

(** ** Outcomes of a call

    A call returns a value, throws, or never comes back (a loop the model
    cannot bound). *)
Inductive outcome (A : Type) :=
| Returns (a : A)
| Throws (e : string)
| Hangs.
Arguments Returns {A} a.
Arguments Throws {A} e.
Arguments Hangs {A}.

Definition obind {A B} (o : outcome A) (k : A -> outcome B) : outcome B :=
  match o with
  | Returns a => k a
  | Throws e => Throws e
  | Hangs => Hangs
  end.


(** ** canvas.ts *)

Module Canvas.

Record Point := mkPoint { x : Z; y : Z }.

Record t := mk {
  width : Z;
  height : Z;
  buffer : BrailleBuffer.t
}.

(** External: the earcut triangulation, [earcut(vertices, holes)].  It
    throws ([None]) or answers with indices of vertices (pairs of the flat
    coordinate array), three per triangle. *)
Class Triangulator := {
  earcut : list Z -> option (list Z) -> option (list Z);
  earcut_indices : forall vertices holes triangles,
    earcut vertices holes = Some triangles ->
    (length triangles mod 3 = 0)%nat /\
    Forall (fun i => 0 <= i /\ 2 * i + 1 < Z.of_nat (length vertices)) triangles
}.

Definition new (w h : Z) : option t :=
  match BrailleBuffer.new w h with
  | Some b => Some (mk w h b)
  | None => None
  end.

Definition with_buffer (c : t) (b : BrailleBuffer.t) : t :=
  mk (width c) (height c) b.

Definition toLines (c : t) := BrailleBuffer.toLines (buffer c).
Definition toPlainLines (c : t) := BrailleBuffer.toPlainLines (buffer c).
Definition toColoredCells (c : t) := BrailleBuffer.toColoredCells (buffer c).

Definition clear (c : t) : t := with_buffer c (BrailleBuffer.clear (buffer c)).

Definition setBackground (color : Z) (c : t) : t :=
  with_buffer c (BrailleBuffer.with_globalBackground (buffer c) color).

Definition background (x y color : Z) (c : t) : t :=
  with_buffer c (BrailleBuffer.setBackground x y color (buffer c)).

Definition text (s : jsstr) (x y color : Z) (center : bool) (c : t) : t :=
  with_buffer c (BrailleBuffer.writeText s x y color center (buffer c)).

Definition pixel (x y color : Z) (c : t) : t :=
  with_buffer c (BrailleBuffer.setPixel x y color (buffer c)).

(** [marker]: the cross, [i] from [-size] to [size], then four corner dots. *)
Definition marker (x y color size : Z) (c : t) : t :=
  let cross :=
    fold_left
      (fun b k =>
         let i := Z.of_nat k - size in
         BrailleBuffer.setPixel x (y + i) color
           (BrailleBuffer.setPixel (x + i) y color b))
      (seq 0 (Z.to_nat (2 * size + 1))) (buffer c) in
  with_buffer c
    (BrailleBuffer.setPixel (x + 1) (y + 1) color
       (BrailleBuffer.setPixel (x - 1) (y + 1) color
          (BrailleBuffer.setPixel (x + 1) (y - 1) color
             (BrailleBuffer.setPixel (x - 1) (y - 1) color cross)))).

(** [_extractVertex]: [undefined] coordinates are [None]. *)
Definition extractVertex (vertices : list Z) (idx : Z) : option (Z * Z) :=
  match ta_get vertices (idx * 2), ta_get vertices (idx * 2 + 1) with
  | Some vx, Some vy => Some (vx, vy)
  | _, _ => None
  end.

(** [_bresenhamPoints]: the loop, cut off after [fuel] rounds. *)
Fixpoint bresenham_loop (fuel : nat) (x y bx by_ dx dy sx sy err : Z)
  : option (list Point) :=
  match fuel with
  | O => None
  | S fuel' =>
      if (x =? bx) && (y =? by_) then Some [mkPoint x y]
      else
        let e2 := 2 * err in
        let '(err1, x1) := if e2 >? - dy then (err - dy, x + sx) else (err, x) in
        let '(err2, y1) := if e2 <? dx then (err1 + dx, y + sy) else (err1, y) in
        match bresenham_loop fuel' x1 y1 bx by_ dx dy sx sy err2 with
        | Some r => Some (mkPoint x y :: r)
        | None => None
        end
  end.

Definition bresenhamPoints (ax ay bx by_ : Z) : option (list Point) :=
  let dx := Z.abs (bx - ax) in
  let dy := Z.abs (by_ - ay) in
  let sx := if ax <? bx then 1 else -1 in
  let sy := if ay <? by_ then 1 else -1 in
  bresenham_loop (Z.to_nat (dx + dy + 1)) ax ay bx by_ dx dy sx sy (dx - dy).

(** The comparator of [_filledTriangle]'s sort, as an order: by [y], then
    by [x]. *)
Definition point_leb (a b : Point) : bool :=
  if y a =? y b then x a <=? x b else y a <? y b.

Fixpoint insert_sorted (p : Point) (l : list Point) : list Point :=
  match l with
  | [] => [p]
  | q :: r => if point_leb p q then p :: l else q :: insert_sorted p r
  end.

Definition sort_points (l : list Point) : list Point :=
  fold_right insert_sorted [] l.

(** The fill loop of [_filledTriangle] over the sorted points. *)
Fixpoint fill_loop (cw : Z) (color : Z) (pts : list Point) (b : BrailleBuffer.t)
  : BrailleBuffer.t :=
  match pts with
  | [] => b
  | point :: rest =>
      match rest with
      | next :: _ =>
          if y point =? y next then
            let left := Z.max 0 (x point) in
            let right := Z.min (cw - 1) (x next) in
            fill_loop cw color rest
              (fold_left
                 (fun b k => BrailleBuffer.setPixel (left + Z.of_nat k) (y point) color b)
                 (seq 0 (Z.to_nat (right - left + 1))) b)
          else
            fill_loop cw color rest
              (BrailleBuffer.setPixel (x point) (y point) color b)
      | [] => BrailleBuffer.setPixel (x point) (y point) color b
      end
  end.

Definition filledTriangle (pa pb pc : Z * Z) (color : Z) (c : t) : outcome t :=
  match bresenhamPoints (fst pb) (snd pb) (fst pc) (snd pc),
        bresenhamPoints (fst pa) (snd pa) (fst pc) (snd pc),
        bresenhamPoints (fst pa) (snd pa) (fst pb) (snd pb) with
  | Some edgeA, Some edgeB, Some edgeC =>
      let allPoints :=
        sort_points
          (filter (fun p => (0 <= y p) ∧ (y p < height c))
                  (edgeA ++ edgeB ++ edgeC)) in
      Returns (with_buffer c (fill_loop (width c) color allPoints (buffer c)))
  | _, _, _ => Hangs
  end.

(** The first loop of [polygon]: [None] is the early [return false]. *)
Fixpoint collect_rings (rings : list (list Point)) (vertices holes : list Z)
  : option (list Z * list Z) :=
  match rings with
  | [] => Some (vertices, holes)
  | ring :: rest =>
      if negb (length vertices =? 0)%nat then
        if (length ring <? 3)%nat then collect_rings rest vertices holes
        else
          collect_rings rest
            (vertices ++ flat_map (fun p => [x p; y p]) ring)
            (holes ++ [Z.of_nat (length vertices) / 2])
      else
        if (length ring <? 3)%nat then None
        else
          collect_rings rest
            (vertices ++ flat_map (fun p => [x p; y p]) ring) holes
  end.

(** The second loop of [polygon]: triangles three indices at a time.  The
    last branch, an index the vertex array does not have, is outside
    earcut's contract ([earcut_indices]). *)
Fixpoint draw_triangles (fuel : nat) (vertices triangles : list Z) (color : Z) (c : t)
  : outcome t :=
  match fuel with
  | O => Returns c
  | S fuel' =>
      match triangles with
      | [] => Returns c
      | _ =>
          match extractVertex vertices (nth 0 triangles (-1)),
                extractVertex vertices (nth 1 triangles (-1)),
                extractVertex vertices (nth 2 triangles (-1)) with
          | Some pa, Some pb, Some pc =>
              obind (filledTriangle pa pb pc color c) (fun c1 =>
                draw_triangles fuel' vertices (skipn 3 triangles) color c1)
          | _, _, _ => Hangs
          end
      end
  end.

Definition polygon `{Triangulator} (rings : list (list Point)) (color : Z) (c : t)
  : outcome (bool * t) :=
  match collect_rings rings [] [] with
  | None => Returns (false, c)
  | Some (vertices, holes) =>
      match earcut vertices (if (length holes =? 0)%nat then None else Some holes) with
      | None => Returns (false, c)
      | Some triangles =>
          obind (draw_triangles (length triangles) vertices triangles color c)
                (fun c1 => Returns (true, c1))
      end
  end.

(** [_bresenhamLine]: the loop, cut off after [fuel] rounds. *)
Fixpoint bresenhamLine_loop (fuel : nat) (x0 y0 x1 y1 dx dy sx sy err color : Z)
    (b : BrailleBuffer.t) : option BrailleBuffer.t :=
  match fuel with
  | O => None
  | S fuel' =>
      let b := BrailleBuffer.setPixel x0 y0 color b in
      if (x0 =? x1) && (y0 =? y1) then Some b
      else
        let e2 := 2 * err in
        let '(err1, x0') := if e2 >? - dy then (err - dy, x0 + sx) else (err, x0) in
        let '(err2, y0') := if e2 <? dx then (err1 + dx, y0 + sy) else (err1, y0) in
        bresenhamLine_loop fuel' x0' y0' x1 y1 dx dy sx sy err2 color b
  end.

Definition bresenhamLine (x0 y0 x1 y1 color : Z) (b : BrailleBuffer.t)
  : option BrailleBuffer.t :=
  let dx := Z.abs (x1 - x0) in
  let dy := Z.abs (y1 - y0) in
  let sx := if x0 <? x1 then 1 else -1 in
  let sy := if y0 <? y1 then 1 else -1 in
  bresenhamLine_loop (Z.to_nat (dx + dy + 1)) x0 y0 x1 y1 dx dy sx sy (dx - dy) color b.

(** The two inner loops of the wide branch of [_line], which paint
    across the line: along y at column [x0], and along x at row [y0].
    [limit] is [ed * wd]. *)
Fixpoint across_y (fuel : nat) (limit : R) (x0 y1 dx dy sy color e2 y2 : Z)
    (b : BrailleBuffer.t) : option BrailleBuffer.t :=
  match fuel with
  | O => None
  | S fuel' =>
      if Utils.Rltb (IZR e2) limit && (negb (y1 =? y2) || (dx >? dy)) then
        across_y fuel' limit x0 y1 dx dy sy color (e2 + dx) (y2 + sy)
                 (BrailleBuffer.setPixel x0 (y2 + sy) color b)
      else Some b
  end.

Fixpoint across_x (fuel : nat) (limit : R) (y0 x1 dx dy sx color e2 x2 : Z)
    (b : BrailleBuffer.t) : option BrailleBuffer.t :=
  match fuel with
  | O => None
  | S fuel' =>
      if Utils.Rltb (IZR e2) limit && (negb (x1 =? x2) || (dx <? dy)) then
        across_x fuel' limit y0 x1 dx dy sx color (e2 + dy) (x2 + sx)
                 (BrailleBuffer.setPixel (x2 + sx) y0 color b)
      else Some b
  end.

(** The outer loop of the wide branch, cut off after [fuel] rounds; the
    inner loops get the same allowance. *)
Fixpoint wideLine_loop (fuel allowance : nat) (limit : R)
    (x0 y0 x1 y1 dx dy sx sy err color : Z) (b : BrailleBuffer.t)
  : option BrailleBuffer.t :=
  match fuel with
  | O => None
  | S fuel' =>
      let b := BrailleBuffer.setPixel x0 y0 color b in
      let first :=
        if 2 * err >=? - dx then
          match across_y allowance limit x0 y1 dx dy sy color (err + dy) y0 b with
          | None => None
          | Some b1 =>
              if x0 =? x1 then Some (true, err, err, x0, b1)
              else Some (false, err, err - dy, x0 + sx, b1)
          end
        else Some (false, err, err, x0, b) in
      match first with
      | None => None
      | Some (true, _, _, _, b1) => Some b1
      | Some (false, e2, err1, x0', b1) =>
          if 2 * e2 <=? dy then
            match across_x allowance limit y0 x1 dx dy sx color (dx - e2) x0 b1 with
            | None => None
            | Some b2 =>
                if y0 =? y1 then Some b2
                else wideLine_loop fuel' allowance limit x0' (y0 + sy) x1 y1
                                   dx dy sx sy (err1 + dx) color b2
            end
          else wideLine_loop fuel' allowance limit x0' y0 x1 y1 dx dy sx sy err1 color b1
      end
  end.

(** [_line] on pixel coordinates, which [Math.round] leaves as they are:
    the plain walk for a width of at most 1, the wide one otherwise.
    [None] stands for a loop that the allowance does not see the end of. *)
Definition line_ (x0 y0 x1 y1 color : Z) (lineWidth : R) (fuel : nat)
    (b : BrailleBuffer.t) : option BrailleBuffer.t :=
  if Rle_dec lineWidth 1 then bresenhamLine x0 y0 x1 y1 color b
  else
    let dx := Z.abs (x1 - x0) in
    let dy := Z.abs (y1 - y0) in
    let sx := if x0 <? x1 then 1 else -1 in
    let sy := if y0 <? y1 then 1 else -1 in
    let ed := if dx + dy =? 0 then 1%R else R_sqrt.sqrt (IZR (dx * dx + dy * dy)) in
    let wd := ((lineWidth + 1) / 2)%R in
    wideLine_loop fuel fuel (ed * wd)%R x0 y0 x1 y1 dx dy sx sy (dx - dy) color b.

Definition line (from to : Point) (color : Z) (lineWidth : R) (fuel : nat) (c : t)
  : option t :=
  with_buffer c <$> line_ (x from) (y from) (x to) (y to) color lineWidth fuel (buffer c).

(** [polyline]: a line from each point to the next. *)
Fixpoint polyline_from (prev : Point) (points : list Point) (color : Z)
    (lineWidth : R) (fuel : nat) (b : BrailleBuffer.t) : option BrailleBuffer.t :=
  match points with
  | [] => Some b
  | p :: rest =>
      match line_ (x prev) (y prev) (x p) (y p) color lineWidth fuel b with
      | None => None
      | Some b1 => polyline_from p rest color lineWidth fuel b1
      end
  end.

Definition polyline (points : list Point) (color : Z) (lineWidth : R) (fuel : nat)
    (c : t) : option t :=
  match points with
  | [] => Some c
  | p :: rest =>
      with_buffer c <$> polyline_from p rest color lineWidth fuel (buffer c)
  end.

(** Two pixels that touch, by a side or by a corner; a list of pixels
    each of which touches the next; a pixel within the box spanned by two
    corners. *)
Definition adjacent (p q : Point) : Prop :=
  Z.max (Z.abs (x q - x p)) (Z.abs (y q - y p)) = 1.

Fixpoint connected (pts : list Point) : Prop :=
  match pts with
  | p :: rest =>
      match rest with
      | q :: _ => adjacent p q /\ connected rest
      | [] => True
      end
  | [] => True
  end.

Definition in_box (lo hi p : Point) : Prop :=
  x lo <= x p <= x hi /\ y lo <= y p <= y hi.

(** [setPixel] on each pixel of a list, in order. *)
Definition paint (color : Z) (pts : list Point) (b : BrailleBuffer.t) : BrailleBuffer.t :=
  fold_left (fun b p => BrailleBuffer.setPixel (x p) (y p) color b) pts b.

(** The pixel lies on the walk between two successive points of the list. *)
Definition on_polyline (points : list Point) (q : Point) : Prop :=
  exists (i : nat) (p p' : Point) (pts : list Point),
    points !! i = Some p /\ points !! S i = Some p'
    /\ bresenhamPoints (x p) (y p) (x p') (y p') = Some pts /\ q ∈ pts.

(** A walk of [n] steps to the pixel [(bx, by_)] from the pixel [rx]
    columns and [ry] rows before it, within the box of a line that spans
    [dx] columns and [dy] rows. *)
Definition walk_from (bx by_ dx dy sx sy rx ry : Z) (n : Z) (pts : list Point) : Prop :=
  length pts = S (Z.to_nat n)
  /\ head pts = Some (mkPoint (bx - sx * rx) (by_ - sy * ry))
  /\ last pts = Some (mkPoint bx by_)
  /\ connected pts
  /\ Forall (fun p => exists qx qy, 0 <= qx <= dx /\ 0 <= qy <= dy
                                  /\ x p = bx - sx * qx /\ y p = by_ - sy * qy) pts.

(** A triangulator to run the model against: it throws on every input. *)
Definition failing_triangulator : Triangulator.
Proof.
  refine {| earcut := fun _ _ => None |}.
  intros vertices holes triangles Hcut. discriminate Hcut.
Defined.

(** A triangulator that answers a single triangle with the triangle
    itself, and gives up on anything else. *)
Definition single_triangle : Triangulator.
Proof.
  refine {| earcut := fun vertices _ =>
              if (length vertices =? 6)%nat then Some [0; 1; 2] else None |}.
  intros vertices holes triangles Hcut.
  destruct (Nat.eqb_spec (length vertices) 6) as [Hlen|]; [|discriminate].
  injection Hcut as <-. split; [reflexivity|]. rewrite Hlen. repeat constructor; lia.
Defined.

End Canvas.

(** ** tile-parser.ts *)

Module TileParser.

(** A property value of a vector-tile feature. *)
Inductive PropValue :=
| PStr (s : string)
| PNum (n : Z)
| PBool (b : bool).

(** JavaScript truthiness of a property that may be absent. *)
Definition truthy (v : option PropValue) : bool :=
  match v with
  | Some (PStr s) => negb (String.eqb s "")
  | Some (PNum n) => negb (n =? 0)
  | Some (PBool b) => b
  | None => false
  end.

(** [a || b]. *)
Definition js_or (a b : option PropValue) : option PropValue :=
  if truthy a then a else b.

Inductive StyleType := fill | line | symbol | background.

(** styles.ts, [CompiledStyle]: the fields the parser and renderer read. *)
Record CompiledStyle := mkStyle {
  id : string;
  type : StyleType;
  color : Z;
  lineWidth : Z;
  minzoom : Z;
  maxzoom : Z;
  appliesTo : gmap string PropValue -> bool
}.

(** A number that may be one of the infinities [addBoundaries] starts from. *)
Inductive ext := NegInf | Fin (v : Z) | PosInf.

Definition ext_ltb (v : Z) (e : ext) : bool :=
  match e with NegInf => false | Fin w => v <? w | PosInf => true end.

Definition ext_gtb (v : Z) (e : ext) : bool :=
  match e with NegInf => true | Fin w => v >? w | PosInf => false end.

Inductive Geometry :=
| Rings (rings : list (list Canvas.Point))
| Points (points : list Canvas.Point).

Record TileFeature := mkFeature {
  layer : string;
  style : CompiledStyle;
  label : option PropValue;
  sort : option PropValue;
  points : Geometry;
  fcolor : Z;
  minX : ext;
  maxX : ext;
  minY : ext;
  maxY : ext
}.

(** The [RBush] tree of a layer, as the nodes bulk-loaded into it. *)
Record ParsedLayer := mkLayer {
  extent : Z;
  tree : list TileFeature
}.

Record ParsedTile := mkTile {
  layers : gmap string ParsedLayer
}.

(** What [@mapbox/vector-tile] hands out: per layer its extent and
    features, each with its geometry type, properties and the rings or
    parts [loadGeometry()] returns; the layers in enumeration order. *)
Record VTFeature := mkVTFeature {
  vt_type : Z;
  vt_properties : gmap string PropValue;
  vt_geometry : list (list Canvas.Point)
}.

Record VTLayer := mkVTLayer {
  vt_extent : Z;
  vt_features : list VTFeature
}.

(** External: zlib's [gunzipSync] and the protobuf reader behind
    [new VectorTile(new Pbf(data))], [layer.feature(i)] and
    [loadGeometry()].  Either throws ([None]) on data it cannot read. *)
Class TileCodec := {
  gunzipSync : list Z -> option (list Z);
  decodeVectorTile : list Z -> option (list (string * VTLayer))
}.

Definition isGzipped (buffer : list Z) : bool :=
  (2 <=? length buffer)%nat
  && bool_decide (buffer !! 0%nat = Some 0x1f)
  && bool_decide (buffer !! 1%nat = Some 0x8b).

(** The loop of [addBoundaries]. *)
Definition bounds_step (acc : ext * ext * ext * ext) (p : Canvas.Point)
  : ext * ext * ext * ext :=
  let '(minX, maxX, minY, maxY) := acc in
  let minX := if ext_ltb (Canvas.x p) minX then Fin (Canvas.x p) else minX in
  let maxX := if ext_gtb (Canvas.x p) maxX then Fin (Canvas.x p) else maxX in
  let minY := if ext_ltb (Canvas.y p) minY then Fin (Canvas.y p) else minY in
  let maxY := if ext_gtb (Canvas.y p) maxY then Fin (Canvas.y p) else maxY in
  (minX, maxX, minY, maxY).

(** [addBoundaries]: for [deep] data the first ring is walked; with no
    ring at all the [for ... of undefined] throws a TypeError ([None]).
    The parser calls it with [deep] on rings and without on points only. *)
Definition addBoundaries (deep : bool) (data : TileFeature) : option TileFeature :=
  let pts :=
    match points data with
    | Rings rings => if deep then head rings else None
    | Points ps => if deep then None else Some ps
    end in
  match pts with
  | None => None
  | Some ps =>
      let '(minX, maxX, minY, maxY) :=
        fold_left bounds_step ps (PosInf, NegInf, PosInf, NegInf) in
      Some (mkFeature (layer data) (style data) (label data) (sort data)
              (points data) (fcolor data) minX maxX minY maxY)
  end.

(** [["", "Point", "LineString", "Polygon"][feature.type] || ""]. *)
Definition featureType (ty : Z) : string :=
  if ty =? 1 then "Point" else if ty =? 2 then "LineString"
  else if ty =? 3 then "Polygon" else "".

(** The first style of the list that applies. *)
Definition matchStyle (styles : list CompiledStyle) (props : gmap string PropValue)
  : option CompiledStyle :=
  find (fun s => appliesTo s props) styles.

(** The nodes one feature contributes; [None] when [addBoundaries] throws. *)
Definition featureNodes (name language : string) (styles : list CompiledStyle)
    (feature : VTFeature) : option (list TileFeature) :=
  let props := <["$type" := PStr (featureType (vt_type feature))]> (vt_properties feature) in
  match matchStyle styles props with
  | None => Some []
  | Some matchedStyle =>
      let geometries := vt_geometry feature in
      let label :=
        match type matchedStyle with
        | symbol =>
            js_or (props !! ("name_" +:+ language))
              (js_or (props !! "name_en")
                 (js_or (props !! "name") (props !! "house_num")))
        | _ => None
        end in
      let sort :=
        js_or (props !! "localrank") (js_or (props !! "scalerank") (Some (PNum 0))) in
      let node pts :=
        mkFeature name matchedStyle label sort pts (color matchedStyle)
                  (Fin 0) (Fin 0) (Fin 0) (Fin 0) in
      match type matchedStyle with
      | fill => (fun n => [n]) <$> addBoundaries true (node (Rings geometries))
      | _ => mapM (fun geom => addBoundaries false (node (Points geom))) geometries
      end
  end.

(** The body of the loop over [tile.layers]. *)
Definition parseLayer (byLayer : gmap string (list CompiledStyle)) (language : string)
    (acc : option (gmap string ParsedLayer)) (entry : string * VTLayer)
  : option (gmap string ParsedLayer) :=
  match acc with
  | None => None
  | Some layers =>
      let '(name, vlayer) := entry in
      match byLayer !! name with
      | None | Some [] => Some layers
      | Some styles =>
          match mapM (featureNodes name language styles) (vt_features vlayer) with
          | None => None
          | Some nodes =>
              Some (<[name := mkLayer (vt_extent vlayer) (concat nodes)]> layers)
          end
      end
  end.

Definition parseTile `{TileCodec} (buffer : list Z)
    (byLayer : gmap string (list CompiledStyle)) (language : string)
  : outcome ParsedTile :=
  match (if isGzipped buffer then gunzipSync buffer else Some buffer) with
  | None => Throws "gunzip"
  | Some data =>
      match decodeVectorTile data with
      | None => Throws "pbf"
      | Some tile =>
          match fold_left (parseLayer byLayer language) tile (Some ∅) with
          | None => Throws "TypeError"
          | Some layers => Returns (mkTile layers)
          end
      end
  end.

(** The points [addBoundaries] walks: the first ring of a polygon, the
    points of anything else. *)
Definition walked (f : TileFeature) : list Canvas.Point :=
  match points f with
  | Rings rings => default [] (head rings)
  | Points ps => ps
  end.

(** [v] lies between two bounds that are numbers. *)
Definition ext_within (lo hi : ext) (v : Z) : Prop :=
  match lo, hi with
  | Fin a, Fin b => a <= v <= b
  | _, _ => False
  end.

(** What [addBoundaries] leaves in a feature: the box holds every point
    walked, or keeps the infinities when there was none. *)
Definition bounded (f : TileFeature) : Prop :=
  (forall p, p ∈ walked f ->
     ext_within (minX f) (maxX f) (Canvas.x p) /\ ext_within (minY f) (maxY f) (Canvas.y p))
  /\ (walked f = [] ->
      minX f = PosInf /\ maxX f = NegInf /\ minY f = PosInf /\ maxY f = NegInf).

(** What the parser leaves in a feature of the layer [name], styled from
    [styles]. *)
Definition styled (name : string) (styles : list CompiledStyle) (f : TileFeature) : Prop :=
  style f ∈ styles
  /\ layer f = name
  /\ fcolor f = color (style f)
  /\ match points f with
     | Rings _ => type (style f) = fill
     | Points _ => type (style f) <> fill
     end
  /\ (type (style f) <> symbol -> label f = None)
  /\ bounded f.

(** A codec and a style table to run the parser against: the one-byte
    buffer [1] decodes to a tile with a layer [road] of extent 4096 that
    holds one line string, and the table styles that layer as a line. *)
Definition sample_codec : TileCodec :=
  {| gunzipSync := fun _ => None;
     decodeVectorTile := fun data =>
       match data with
       | [1] => Some [("road"%string,
                       mkVTLayer 4096
                         [mkVTFeature 2 ∅ [[Canvas.mkPoint 10 40; Canvas.mkPoint 30 20]]])]
       | _ => None
       end |}.

Definition sample_style : CompiledStyle :=
  mkStyle "road" line 250 1 0 0 (fun _ => true).

Definition sample_styles : gmap string (list CompiledStyle) :=
  {["road"%string := [sample_style]]}.

End TileParser.

(** ** tile-source.ts *)

Module TileSource.

Import TileParser.

Inductive SourceMode := mbtiles | http.

(** The [tiles] table of an open MBTiles file: the row, if any, at
    [(zoom_level, tile_column, tile_row)]. *)
Definition Database := Z -> Z -> Z -> option (list Z).

(** The network as [_getHTTP] sees it: the body of an [ok] response to a
    URL, [None] for any other response and for a failed request. *)
Definition Network := string -> option (list Z).

Record t := mk {
  mode : SourceMode;
  source : string;
  db : option Database;
  cache : gmap string ParsedTile;
  cacheOrder : list string;
  cacheSize : Z;
  language : string;
  byLayer : gmap string (list CompiledStyle)
}.

Definition with_cache (ts : t) (c : gmap string ParsedTile) (o : list string) : t :=
  mk (mode ts) (source ts) (db ts) c o (cacheSize ts) (language ts) (byLayer ts).

(** The text of an integer in a template literal; JavaScript prints
    every digit of an integer below 10^21 in size. *)
Definition num (n : Z) : string := DecimalString.NilZero.string_of_int (Z.to_int n).

Definition startsWith (s p : string) : bool := String.prefix p s.

Definition endsWith (s p : string) : bool :=
  (String.length p <=? String.length s)%nat
  && String.eqb (String.substring (String.length s - String.length p) (String.length p) s) p.

(** The constructor.  [openDb] is [new Database(path, {readonly: true})],
    which throws on a file it cannot open; [styles] is what
    [compileStyle()] returns as [byLayer]. *)
Definition new (openDb : string -> option Database)
    (styles : gmap string (list CompiledStyle))
    (source : string) (cacheSize : option Z) (language : option string)
  : outcome t :=
  let size := default 32 cacheSize in
  let lang := default "en"%string language in
  if startsWith source "http" then
    Returns (mk http source None ∅ [] size lang styles)
  else if endsWith source ".mbtiles" then
    match openDb source with
    | Some d => Returns (mk mbtiles source (Some d) ∅ [] size lang styles)
    | None => Throws "Failed to open MBTiles file"
    end
  else Throws "Unsupported tile source".

Definition tileKey (z x y : Z) : string :=
  num z +:+ "-" +:+ num x +:+ "-" +:+ num y.

(** Reading a key back, to tell keys apart: a decimal digit. *)
Definition is_digit (c : ascii) : bool :=
  let n := nat_of_ascii c in ((48 <=? n) && (n <=? 57))%nat.

(** The digits at the head of a string, and what follows them. *)
Fixpoint span_digits (s : string) : string * string :=
  match s with
  | String c r =>
      if is_digit c then let '(d, rest) := span_digits r in (String c d, rest)
      else (EmptyString, s)
  | EmptyString => (EmptyString, EmptyString)
  end.

(** A number at the head of a string: an optional sign, then digits. *)
Definition span_num (s : string) : string * string :=
  match s with
  | String "-"%char r => let '(d, rest) := span_digits r in (String "-"%char d, rest)
  | _ => span_digits s
  end.

(** [_getMBTile]; [1 << z] shifts by the low five bits of [z] and gives
    a 32-bit integer. *)
Definition getMBTile (z x y : Z) (ts : t) : outcome (list Z) :=
  match db ts with
  | None => Throws "MBTiles database not open"
  | Some query =>
      let tmsY := Utils.toInt32 (Z.shiftl 1 (Z.land z 31)) - 1 - y in
      match query z x tmsY with
      | None => Returns []
      | Some tile_data => Returns tile_data
      end
  end.

(** [_getHTTP]: every failure is the empty buffer. *)
Definition getHTTP (net : Network) (z x y : Z) (ts : t) : list Z :=
  let url := source ts +:+ num z +:+ "/" +:+ num x +:+ "/" +:+ num y +:+ ".pbf" in
  default [] (net url).

(** The eviction loop of [_cacheSet].  [shift()] on an empty queue gives
    [undefined] and changes nothing, so the loop then spins ([None]). *)
Fixpoint evict (size : Z) (order : list string) (cache : gmap string ParsedTile)
  : option (list string * gmap string ParsedTile) :=
  if Z.of_nat (length order) >? size then
    match order with
    | [] => None
    | k :: rest =>
        evict size rest (if String.eqb k "" then cache else delete k cache)
    end
  else Some (order, cache).

Definition cacheSet (key : string) (tile : ParsedTile) (ts : t) : outcome t :=
  match evict (cacheSize ts) (cacheOrder ts ++ [key]) (<[key := tile]> (cache ts)) with
  | Some (order, c) => Returns (with_cache ts c order)
  | None => Hangs
  end.

(** The [switch] of [getTile]: the raw buffer of the tile. *)
Definition fetchBuffer (net : Network) (z x y : Z) (ts : t) : outcome (list Z) :=
  match mode ts with
  | mbtiles => getMBTile z x y ts
  | http => Returns (getHTTP net z x y ts)
  end.

(** [getTile]: the value it resolves to or the error it rejects with, and
    the tile source it leaves. *)
Definition getTile `{TileCodec} (net : Network) (z x y : Z) (ts : t)
  : outcome ParsedTile * t :=
  let key := tileKey z x y in
  match cache ts !! key with
  | Some cached => (Returns cached, ts)
  | None =>
      match fetchBuffer net z x y ts with
      | Throws e => (Throws e, ts)
      | Hangs => (Hangs, ts)
      | Returns buffer =>
          match parseTile buffer (byLayer ts) (language ts) with
          | Throws e => (Throws e, ts)
          | Hangs => (Hangs, ts)
          | Returns parsed =>
              match cacheSet key parsed ts with
              | Returns ts' => (Returns parsed, ts')
              | Throws e => (Throws e, ts)
              | Hangs => (Hangs, ts)
              end
          end
      end
  end.

Definition close (ts : t) : t :=
  mk (mode ts) (source ts) None (cache ts) (cacheOrder ts) (cacheSize ts)
     (language ts) (byLayer ts).

(** What happens to a tile source over time.  A [getTile] call either
    runs from its cache lookup to its [_cacheSet] with nothing in between
    ([Call], with the network it meets), or, in HTTP mode, waits for its
    response while other calls run and then finishes on its own: all that
    such a call does to the tile source is its final [_cacheSet] of the
    tile it decoded ([Store]). *)
Inductive event :=
| Call (net : Network) (z x y : Z)
| Store (z x y : Z) (parsed : ParsedTile).

Definition step `{TileCodec} (ts : t) (ev : event) : t :=
  match ev with
  | Call net z x y => snd (getTile net z x y ts)
  | Store z x y parsed =>
      match cacheSet (tileKey z x y) parsed ts with
      | Returns ts' => ts'
      | _ => ts
      end
  end.

Definition run `{TileCodec} (evs : list event) (ts : t) : t :=
  fold_left step evs ts.

(** A call that runs to its end before the next begins, as every call
    does in MBTiles mode, where [getTile] never waits. *)
Definition is_call (ev : event) : Prop :=
  match ev with
  | Call _ _ _ _ => True
  | Store _ _ _ _ => False
  end.

(** What the cache and its queue keep between calls: the capacity is not
    negative, no key is the empty string, every cached key is queued, and
    the queue is within the capacity. *)
Definition cache_inv (ts : t) : Prop :=
  0 <= cacheSize ts
  /\ (EmptyString ∉ cacheOrder ts)
  /\ (forall k, is_Some (cache ts !! k) -> k ∈ cacheOrder ts)
  /\ Z.of_nat (length (cacheOrder ts)) <= cacheSize ts.

(** What the cache and its queue keep when no two calls overlap: the
    queue lists the cached keys, each once. *)
Definition seq_inv (ts : t) : Prop :=
  cache_inv ts
  /\ NoDup (cacheOrder ts)
  /\ (forall k, k ∈ cacheOrder ts -> is_Some (cache ts !! k)).

(** The cache after the keys of [evicted] were deleted, oldest first. *)
Definition delete_all (evicted : list string) (c : gmap string ParsedTile)
  : gmap string ParsedTile :=
  fold_left (fun c k => delete k c) evicted c.

(** A codec to run the model against.  It agrees with zlib in rejecting a
    gzip member shorter than the 18 bytes of its fixed header and trailer
    (RFC 1952), and with the protobuf reader in decoding the empty buffer
    to a tile without layers and in rejecting the one-byte buffer [0x0a],
    the tag of a layer whose length is missing.  It is stricter than the
    reader elsewhere: it rejects every other buffer, some of which the
    reader decodes. *)
Definition strict_codec : TileCodec :=
  {| gunzipSync := fun _ => None;
     decodeVectorTile := fun data => match data with [] => Some [] | _ => None end |}.

End TileSource.

(** ** renderer.ts and utils.ts on IEEE doubles

    The part of the viewport code that is plain arithmetic, on binary64
    numbers as JavaScript has them. *)

Module Binary64.

Local Open Scope float_scope.

Record LatLon := mkLatLon { lat : float; lon : float }.

Record MapState := mkState { center : LatLon; zoom : float }.

Definition clamp (num min max : float) : float :=
  if PrimFloat.leb num min then min
  else if PrimFloat.leb max num then max else num.

Definition normalize (ll : LatLon) : LatLon :=
  let lon0 := lon ll in
  let lon1 := if PrimFloat.ltb lon0 (-180) then lon0 + 360 else lon0 in
  let lon2 := if PrimFloat.ltb 180 lon1 then lon1 - 360 else lon1 in
  {| lon := lon2; lat := clamp (lat ll) (-85.0511) 85.0511 |}.

Definition centerOn (ll : LatLon) (s : MapState) : MapState :=
  mkState (normalize ll) (zoom s).

(** [Math.min] and [Math.max] on numbers that are not NaN. *)
Definition min (a b : float) : float := if PrimFloat.ltb b a then b else a.
Definition max (a b : float) : float := if PrimFloat.ltb a b then b else a.

Definition zoomIn (s : MapState) : MapState :=
  mkState (center s) (min 18 (zoom s + 0.5)).

Definition zoomOut (s : MapState) : MapState :=
  mkState (center s) (max 0 (zoom s - 0.5)).

Definition fit_step (acc : float * float * float * float) (p : LatLon)
  : float * float * float * float :=
  let '(minLat, maxLat, minLon, maxLon) := acc in
  (if PrimFloat.ltb (lat p) minLat then lat p else minLat,
   if PrimFloat.ltb maxLat (lat p) then lat p else maxLat,
   if PrimFloat.ltb (lon p) minLon then lon p else minLon,
   if PrimFloat.ltb maxLon (lon p) then lon p else maxLon).

Definition zoomForSpan (span : float) : float :=
  if PrimFloat.ltb span 0.001 then 17
  else if PrimFloat.ltb span 0.005 then 16
  else if PrimFloat.ltb span 0.01 then 15
  else if PrimFloat.ltb span 0.05 then 13
  else if PrimFloat.ltb span 0.1 then 12
  else if PrimFloat.ltb span 0.5 then 10
  else if PrimFloat.ltb span 1 then 9
  else if PrimFloat.ltb span 2 then 8
  else if PrimFloat.ltb span 5 then 7
  else if PrimFloat.ltb span 10 then 6
  else 5.

Definition fitBounds (points : list LatLon) (padding : option float) (s : MapState)
  : MapState :=
  let padding := default 0.2 padding in
  match points with
  | [] => s
  | _ =>
      let '(minLat, maxLat, minLon, maxLon) :=
        fold_left fit_step points (infinity, neg_infinity, infinity, neg_infinity) in
      let c := normalize (mkLatLon ((minLat + maxLat) / 2) ((minLon + maxLon) / 2)) in
      let latSpan := (maxLat - minLat) * (1 + padding) in
      let lonSpan := (maxLon - minLon) * (1 + padding) in
      mkState c (zoomForSpan (max latSpan lonSpan))
  end.

(** The state the constructor starts from. *)
Definition initial : MapState := mkState (mkLatLon 53.3498 (-6.2603)) 12.

End Binary64.

(** ** utils.ts on rounded arithmetic

    The Mercator conversions as they run on binary64: every arithmetic
    operation returns its exact result rounded ([rnd]), in the order
    JavaScript evaluates the expression, and every [Math] function
    returns what the library of the runtime computes.  Negation and the
    literals 1, 2, 0.5, 180 and 360 are exact; [Math.PI] and the factor of
    [rad2deg] are the doubles the source denotes.  The rounding and the
    library are parameters; [accurate] says what is assumed of them. *)

Module Rounded.

Import Utils.
Local Open Scope R_scope.

Class Arith := {
  rnd : R -> R;
  Math_pow2 : R -> R;
  Math_log : R -> R;
  Math_tan : R -> R;
  Math_cos : R -> R;
  Math_atan : R -> R;
  Math_exp : R -> R
}.

(** Half the gap between 1 and the next double: 2^-53. *)
Definition u : R := / 9007199254740992.

(** More than half the smallest positive double, 2^-1075. *)
Definition eta : R := 1e-320.

(** [approx] is [exact] rounded to a nearest double, and [approx] is
    within one unit in the last place of [exact]. *)
Definition rounds (approx exact : R) : Prop :=
  Rabs (approx - exact) <= u * Rabs exact + eta.

Definition within_ulp (approx exact : R) : Prop :=
  Rabs (approx - exact) <= 2 * u * Rabs exact + eta.

(** What binary64 arithmetic guarantees below its overflow threshold, and
    what the mathematical libraries in use are documented to deliver on
    the arguments met here. *)
Record accurate `{Arith} : Prop := {
  rnd_ok : forall v, Rabs v <= 1e300 -> rounds (rnd v) v;
  pow2_ok : forall e, -1 <= e <= 1000 -> within_ulp (Math_pow2 e) (pow2 e);
  log_ok : forall v, 1e-300 <= v <= 1e300 -> within_ulp (Math_log v) (ln v);
  tan_ok : forall v, -(3/2) <= v <= 3/2 -> within_ulp (Math_tan v) (tan v);
  cos_ok : forall v, within_ulp (Math_cos v) (cos v);
  atan_ok : forall v, within_ulp (Math_atan v) (atan v);
  exp_ok : forall v, -700 <= v <= 700 -> within_ulp (Math_exp v) (exp v)
}.

(** The double that the literal 57.29577951308232 denotes. *)
Definition RAD2DEG : R := 1007958012753983 / 17592186044416.

Definition rad2deg `{Arith} (angle : R) : R := rnd (angle * RAD2DEG).

Definition ll2tile `{Arith} (lon lat zoom : R) : TileCoord :=
  let n := Math_pow2 zoom in
  let a := rnd (rnd (lat * Math_PI) / 180) in
  {| x := rnd (rnd (rnd (lon + 180) / 360) * n);
     y := rnd (rnd (rnd (1 - rnd (Math_log (rnd (Math_tan a + rnd (1 / Math_cos a)))
                                  / Math_PI)) / 2) * n);
     z := zoom |}.

Definition tile2ll `{Arith} (x y zoom : R) : LatLon :=
  let n := rnd (Math_PI - rnd (rnd (rnd (2 * Math_PI) * y) / Math_pow2 zoom)) in
  {| lon := rnd (rnd (rnd (x / Math_pow2 zoom) * 360) - 180);
     lat := rad2deg (Math_atan (rnd (0.5 * rnd (Math_exp n - Math_exp (- n))))) |}.

(** The double that the literal 85.0511 denotes. *)
Definition MAX_LAT : R := 5984939097928919 / 70368744177664.

Definition tileSizeAtZoom `{Arith} (zoom : R) : R :=
  rnd (TILE_SIZE * Math_pow2 (rnd (zoom - baseZoom zoom))).

Definition normalize `{Arith} (ll : LatLon) : LatLon :=
  let lon0 := lon ll in
  let lon1 := if Rlt_dec lon0 (-180) then rnd (lon0 + 360) else lon0 in
  let lon2 := if Rgt_dec lon1 180 then rnd (lon1 - 360) else lon1 in
  {| lon := lon2; lat := clamp (lat ll) (- MAX_LAT) MAX_LAT |}.

(** [MapRenderer.pan], as the centre it leaves; it does not touch the
    zoom. *)
Definition pan `{Arith} (dx dy : R) (center : LatLon) (zoom : R) : LatLon :=
  let z := baseZoom zoom in
  let tileSize := tileSizeAtZoom zoom in
  let c := ll2tile (lon center) (lat center) z in
  let cx := rnd (x c + rnd (dx / tileSize)) in
  let cy := rnd (y c + rnd (dy / tileSize)) in
  normalize (tile2ll cx cy z).

Definition PAN_PIXELS : R := 32.

Definition panLeft `{Arith} (center : LatLon) (zoom : R) : LatLon :=
  pan (- PAN_PIXELS) 0 center zoom.

Definition panRight `{Arith} (center : LatLon) (zoom : R) : LatLon :=
  pan PAN_PIXELS 0 center zoom.

(** *** An arithmetic to run the model against

    Rounding to the nearest number with a significand of 53 bits, ties
    to the even significand, as binary64 rounds within its exponent
    range; and a library that returns every function correctly rounded. *)
Definition nearest_even (m : R) : Z :=
  let f := Zfloor m in
  if Rlt_dec (m - IZR f) (/ 2) then f
  else if Rlt_dec (/ 2) (m - IZR f) then (f + 1)%Z
  else if Z.even f then f else (f + 1)%Z.

Definition round53 (v : R) : R :=
  if Req_dec_T v 0 then 0
  else
    let e := Zfloor (ln (Rabs v) / ln 2) in
    IZR (nearest_even (v * pow2 (IZR (52 - e)))) * pow2 (IZR (e - 52)).

Definition correctly_rounded : Arith :=
  {| rnd := round53;
     Math_pow2 := fun e => round53 (pow2 e);
     Math_log := fun v => round53 (ln v);
     Math_tan := fun v => round53 (tan v);
     Math_cos := fun v => round53 (cos v);
     Math_atan := fun v => round53 (atan v);
     Math_exp := fun v => round53 (exp v) |}.

End Rounded.

(** ** label-buffer.ts *)

Module LabelBuffer.

Record LabelEntry := mkEntry {
  minX : Z; minY : Z; maxX : Z; maxY : Z; text : jsstr
}.

(** The [RBush] index, as the entries inserted so far. *)
Record t := mk { tree : list LabelEntry; defaultMargin : Z }.

Definition new (margin : option Z) : t := mk [] (default 5 margin).

Definition clear (lb : t) : t := mk [] (defaultMargin lb).

Definition calculateArea (s : jsstr) (x y margin : Z) : LabelEntry :=
  mkEntry (x - margin) (y - margin / 2)
          (x + margin + Z.of_nat (length s)) (y + margin / 2) [].

(** RBush's test of two boxes. *)
Definition intersects (a b : LabelEntry) : bool :=
  (minX b <=? maxX a) && (minY b <=? maxY a)
  && (maxX b >=? minX a) && (maxY b >=? minY a).

Definition hasSpace (lb : t) (s : jsstr) (x y margin : Z) : bool :=
  negb (existsb (intersects (calculateArea s x y margin)) (tree lb)).

Definition writeIfPossible (s : jsstr) (x y : Z) (margin : option Z) (lb : t)
  : bool * t :=
  let margin := default (defaultMargin lb) margin in
  let cx := x / 2 in
  let cy := y / 4 in
  if hasSpace lb s cx cy margin then
    let area := calculateArea s cx cy margin in
    (true, mk (tree lb ++ [mkEntry (minX area) (minY area) (maxX area) (maxY area) s])
              (defaultMargin lb))
  else (false, lb).

(** [featuresAt]: RBush's [search] with the box of a single point. *)
Definition featuresAt (x y : Z) (lb : t) : list LabelEntry :=
  filter (fun e => intersects (mkEntry x y x y []) e = true) (tree lb).

(** No two entries of the list meet. *)
Definition apart (l : list LabelEntry) : Prop :=
  forall (i j : nat) (a b : LabelEntry),
    (i < j)%nat -> l !! i = Some a -> l !! j = Some b -> intersects a b = false.

(** The calls a client makes on a label index. *)
Inductive op :=
| Clear
| Write (s : jsstr) (x y : Z) (margin : option Z).

Definition apply (lb : t) (o : op) : t :=
  match o with
  | Clear => clear lb
  | Write s x y margin => snd (writeIfPossible s x y margin lb)
  end.

Definition run (ops : list op) (lb : t) : t := fold_left apply ops lb.

End LabelBuffer.

(** ** renderer.ts *)

Module Renderer.

Import Utils.

Definition MAX_ZOOM : R := 18.
Definition MIN_ZOOM : R := 0.
Definition ZOOM_STEP : R := 0.5.
Definition PAN_PIXELS : R := 32.
Definition LABEL_MARGIN : Z := 5.
Definition TILE_PADDING : Z := 64.
Definition EARTH_RADIUS : R := 6378137.

Record MapState := mkState { center : LatLon; zoom : R }.

(** [xyz] holds the tile address in the order [getTile] takes it:
    zoom, column, row. *)
Record VisibleTile := mkVisible {
  xyz : Z * Z * Z;
  vzoom : R;
  position : R * R;
  size : R;
  data : option TileParser.ParsedTile
}.

Record RenderResult := mkResult {
  lines : list jsstr;
  plainLines : list jsstr;
  coloredCells : list (list BrailleBuffer.ColoredCell);
  rcenter : LatLon;
  rzoom : R;
  scaleMeters : R
}.

Record t := mk {
  tileSource : TileSource.t;
  canvas : Canvas.t;
  labelBuffer : LabelBuffer.t;
  styleById : gmap string TileParser.CompiledStyle;
  width : Z;
  height : Z;
  isDrawing : bool;
  state : MapState;
  gpsPosition : option LatLon;
  waypoint : option LatLon;
  route : option (list LatLon);
  routeStart : option LatLon;
  routeEnd : option LatLon
}.

Definition with_state (r : t) (s : MapState) : t :=
  mk (tileSource r) (canvas r) (labelBuffer r) (styleById r) (width r) (height r)
     (isDrawing r) s (gpsPosition r) (waypoint r) (route r) (routeStart r) (routeEnd r).

Definition with_waypoint (r : t) (w : option LatLon) : t :=
  mk (tileSource r) (canvas r) (labelBuffer r) (styleById r) (width r) (height r)
     (isDrawing r) (state r) (gpsPosition r) w (route r) (routeStart r) (routeEnd r).

Definition with_frame (r : t) (ts : TileSource.t) (c : Canvas.t) (lb : LabelBuffer.t)
    (drawing : bool) : t :=
  mk ts c lb (styleById r) (width r) (height r)
     drawing (state r) (gpsPosition r) (waypoint r) (route r) (routeStart r) (routeEnd r).

(** The constructor, given the tile source and the compiled style table;
    [None] when the canvas cannot be allocated. *)
Definition new (w h : Z) (ts : TileSource.t)
    (byId : gmap string TileParser.CompiledStyle)
    (initialCenter : option LatLon) (initialZoom : option R) : option t :=
  match Canvas.new w h with
  | None => None
  | Some c =>
      Some (mk ts c (LabelBuffer.new (Some LABEL_MARGIN)) byId w h false
               (mkState (default (mkLatLon 53.3498 (-6.2603)) initialCenter)
                        (default 12%R initialZoom))
               None None None None None)
  end.

(** *** Mutators *)

Definition pan (dx dy : R) (r : t) : t :=
  let s := state r in
  let z := baseZoom (zoom s) in
  let tileSize := tileSizeAtZoom (zoom s) in
  let c := ll2tile (lon (center s)) (lat (center s)) z in
  let cx := (x c + dx / tileSize)%R in
  let cy := (y c + dy / tileSize)%R in
  let ll := tile2ll cx cy z in
  with_state r (mkState (normalize ll) (zoom s)).

Definition panLeft (r : t) : t := pan (- PAN_PIXELS) 0 r.
Definition panRight (r : t) : t := pan PAN_PIXELS 0 r.
Definition panUp (r : t) : t := pan 0 (- PAN_PIXELS) r.
Definition panDown (r : t) : t := pan 0 PAN_PIXELS r.

Definition zoomIn (r : t) : t :=
  with_state r (mkState (center (state r)) (Rmin MAX_ZOOM (zoom (state r) + ZOOM_STEP))).

Definition zoomOut (r : t) : t :=
  with_state r (mkState (center (state r)) (Rmax MIN_ZOOM (zoom (state r) - ZOOM_STEP))).

Definition centerOn (ll : LatLon) (r : t) : t :=
  with_state r (mkState (normalize ll) (zoom (state r))).

Definition centerOnGps (r : t) : t :=
  match gpsPosition r with
  | Some g => centerOn g r
  | None => r
  end.

Definition setWaypoint (ll : LatLon) (r : t) : t :=
  with_waypoint r (Some (normalize ll)).

Definition clearWaypoint (r : t) : t := with_waypoint r None.

Definition setRoute (geometry : list LatLon) (start finish : LatLon) (r : t) : t :=
  mk (tileSource r) (canvas r) (labelBuffer r) (styleById r) (width r) (height r)
     (isDrawing r) (state r) (gpsPosition r) (waypoint r)
     (Some geometry) (Some start) (Some finish).

Definition clearRoute (r : t) : t :=
  mk (tileSource r) (canvas r) (labelBuffer r) (styleById r) (width r) (height r)
     (isDrawing r) (state r) (gpsPosition r) (waypoint r) None None None.

(** [setSize]: a new canvas of the new size; [None] when it cannot be
    allocated. *)
Definition setSize (w h : Z) (r : t) : option t :=
  match Canvas.new w h with
  | None => None
  | Some c =>
      Some (mk (tileSource r) c (labelBuffer r) (styleById r) w h
               (isDrawing r) (state r) (gpsPosition r) (waypoint r)
               (route r) (routeStart r) (routeEnd r))
  end.

(** [v < m] where [m] may still be the [Infinity] the loop starts from, and
    [v > m] where [m] may still be [-Infinity]; [None] is that start. *)
Definition below (v : R) (m : option R) : bool :=
  match m with
  | None => true
  | Some w => Rltb v w
  end.

Definition above (v : R) (m : option R) : bool :=
  match m with
  | None => true
  | Some w => Rltb w v
  end.

(** The loop of [fitBounds] over the points. *)
Definition fit_step (acc : option R * option R * option R * option R) (p : LatLon)
  : option R * option R * option R * option R :=
  let '(minLat, maxLat, minLon, maxLon) := acc in
  (if below (lat p) minLat then Some (lat p) else minLat,
   if above (lat p) maxLat then Some (lat p) else maxLat,
   if below (lon p) minLon then Some (lon p) else minLon,
   if above (lon p) maxLon then Some (lon p) else maxLon).

(** The span-to-zoom table. *)
Definition zoomForSpan (span : R) : R :=
  if Rlt_dec span 0.001 then 17
  else if Rlt_dec span 0.005 then 16
  else if Rlt_dec span 0.01 then 15
  else if Rlt_dec span 0.05 then 13
  else if Rlt_dec span 0.1 then 12
  else if Rlt_dec span 0.5 then 10
  else if Rlt_dec span 1 then 9
  else if Rlt_dec span 2 then 8
  else if Rlt_dec span 5 then 7
  else if Rlt_dec span 10 then 6
  else 5.

(** [fitBounds(points, padding = 0.2)].  One point is enough to replace
    all four infinities, so the last branch is never taken. *)
Definition fitBounds (points : list LatLon) (padding : option R) (r : t) : t :=
  let padding := default 0.2%R padding in
  match points with
  | [] => r
  | _ =>
      match fold_left fit_step points (None, None, None, None) with
      | (Some minLat, Some maxLat, Some minLon, Some maxLon) =>
          let c := normalize (mkLatLon ((minLat + maxLat) / 2) ((minLon + maxLon) / 2)) in
          let latSpan := ((maxLat - minLat) * (1 + padding))%R in
          let lonSpan := ((maxLon - minLon) * (1 + padding))%R in
          let span := Rmax latSpan lonSpan in
          with_state r (mkState c (zoomForSpan span))
      | _ => r
      end
  end.

(** The mutators of the viewport, as calls. *)
Inductive mutator :=
| Pan (dx dy : R)
| PanLeft | PanRight | PanUp | PanDown
| ZoomIn | ZoomOut
| CenterOn (ll : LatLon)
| SetWaypoint (ll : LatLon)
| FitBounds (points : list LatLon) (padding : option R).

Definition mutate (r : t) (m : mutator) : t :=
  match m with
  | Pan dx dy => pan dx dy r
  | PanLeft => panLeft r
  | PanRight => panRight r
  | PanUp => panUp r
  | PanDown => panDown r
  | ZoomIn => zoomIn r
  | ZoomOut => zoomOut r
  | CenterOn ll => centerOn ll r
  | SetWaypoint ll => setWaypoint ll r
  | FitBounds ps pad => fitBounds ps pad r
  end.

Definition mutate_all (ms : list mutator) (r : t) : t := fold_left mutate ms r.

(** *** Drawing *)

Definition metersPerPixel (zoom lat : R) : R :=
  (cos (lat * Math_PI / 180) * 2 * Math_PI * EARTH_RADIUS / (256 * pow2 zoom))%R.

(** [_scaleBar], before [formatDistance] turns the metres into text. *)
Definition scaleBar (r : t) : R :=
  (metersPerPixel (zoom (state r)) (lat (center (state r))) * 40)%R.

(** The object both [return]s of [draw] build. *)
Definition snapshot (r : t) : RenderResult :=
  mkResult (Canvas.toLines (canvas r)) (Canvas.toPlainLines (canvas r))
           (Canvas.toColoredCells (canvas r))
           (center (state r)) (zoom (state r)) (scaleBar r).

(** [_visibleTiles]: the 3x3 grid about the centre tile. *)
Definition visibleTiles (r : t) : list VisibleTile :=
  let s := state r in
  let z := baseZoom (zoom s) in
  let c := ll2tile (lon (center s)) (lat (center s)) z in
  let tileSize := tileSizeAtZoom (zoom s) in
  let gridSize := Zfloor (pow2 z) in
  let fy := Zfloor (y c) in
  let fx := Zfloor (x c) in
  flat_map (fun ty =>
    flat_map (fun tx =>
      let px := (IZR (width r) / 2 - (x c - IZR tx) * tileSize)%R in
      let py := (IZR (height r) / 2 - (y c - IZR ty) * tileSize)%R in
      let w0 := Z.rem tx gridSize in
      let wrappedX :=
        if w0 <? 0 then (if Zfloor z =? 0 then 0 else w0 + gridSize) else w0 in
      if (ty <? 0) || (ty >=? gridSize)
         || Rltb (px + tileSize) 0 || Rltb (py + tileSize) 0
         || Rltb (IZR (width r)) px || Rltb (IZR (height r)) py
      then []
      else [mkVisible (Zfloor z, wrappedX, ty) (zoom s) (px, py) tileSize None])
      [fx - 1; fx; fx + 1])
    [fy - 1; fy; fy + 1].

(** The body of the per-tile [async] arrow inside [Promise.all]: the tile
    gets its data, or keeps none when [getTile] rejects. *)
Definition loadTile `{TileParser.TileCodec} (net : TileSource.Network)
    (acc : option (list VisibleTile * TileSource.t)) (tile : VisibleTile)
  : option (list VisibleTile * TileSource.t) :=
  match acc with
  | None => None
  | Some (done, ts) =>
      let '(tz, tx, ty) := xyz tile in
      match TileSource.getTile net tz tx ty ts with
      | (Returns parsed, ts') =>
          Some (done ++ [mkVisible (xyz tile) (vzoom tile) (position tile)
                                   (size tile) (Some parsed)], ts')
      | (Throws _, ts') => Some (done ++ [tile], ts')
      | (Hangs, _) => None
      end
  end.

(** [_scalePoints]: one pass of the loop; the state is the last pixel
    computed and the result so far. *)
Definition scale_step (r : t) (tile : VisibleTile) (scale : R)
    (st : Z * Z * list Canvas.Point) (point : Canvas.Point)
  : Z * Z * list Canvas.Point :=
  let '(lastX, lastY, result) := st in
  let px := Zfloor (fst (position tile) + IZR (Canvas.x point) / scale) in
  let py := Zfloor (snd (position tile) + IZR (Canvas.y point) / scale) in
  if (px =? lastX) && (py =? lastY) then st
  else if (px <? - TILE_PADDING) || (px >? width r + TILE_PADDING)
          || (py <? - TILE_PADDING) || (py >? height r + TILE_PADDING)
       then (px, py, result)
       else (px, py, result ++ [Canvas.mkPoint px py]).

Definition scalePoints (r : t) (tile : VisibleTile) (points : list Canvas.Point)
    (scale : R) : list Canvas.Point :=
  snd (fold_left (scale_step r tile scale) points (-1, -1, [])).

(** The pixel a tile-local point lands on. *)
Definition toPixel (tile : VisibleTile) (scale : R) (point : Canvas.Point) : Canvas.Point :=
  Canvas.mkPoint (Zfloor (fst (position tile) + IZR (Canvas.x point) / scale))
                 (Zfloor (snd (position tile) + IZR (Canvas.y point) / scale)).

(** Within the viewport and its padding. *)
Definition padded (r : t) (q : Canvas.Point) : Prop :=
  - TILE_PADDING <= Canvas.x q <= width r + TILE_PADDING
  /\ - TILE_PADDING <= Canvas.y q <= height r + TILE_PADDING.

(** [_llToScreen]; [None] is the [null] of a point off the screen. *)
Definition llToScreen (ll : LatLon) (r : t) : option Canvas.Point :=
  let z := baseZoom (zoom (state r)) in
  let tileSize := tileSizeAtZoom (zoom (state r)) in
  let c := ll2tile (lon (center (state r))) (lat (center (state r))) z in
  let target := ll2tile (lon ll) (lat ll) z in
  let px := Zfloor (IZR (width r) / 2 + (x target - x c) * tileSize) in
  let py := Zfloor (IZR (height r) / 2 + (y target - y c) * tileSize) in
  if (px <? -20) || (px >? width r + 20) || (py <? -20) || (py >? height r + 20)
  then None
  else Some (Canvas.mkPoint px py).

(** [XTERM.gpsMarker] and [XTERM.waypoint] of styles.ts; a colour that is
    no number is stored by the byte arrays as 0. *)
Definition XTERM_gpsMarker : Z := default 0 (hex2xterm "#ff0000").

(** [_drawGpsMarker]. *)
Definition drawGpsMarker (r : t) : Canvas.t :=
  match gpsPosition r with
  | None => canvas r
  | Some g =>
      match llToScreen g r with
      | None => canvas r
      | Some pos =>
          Canvas.marker (Canvas.x pos) (Canvas.y pos) XTERM_gpsMarker 4 (canvas r)
      end
  end.


(** External to this model: everything [draw] does between the tile loads
    and the export, that is [_extractTileFeatures], [_renderTiles] and the
    GPS, waypoint and route overlays.  It draws on the canvas and places
    labels; it comes back normally or throws part way, and either way
    leaves a canvas and a label index. *)
Class FramePainter := {
  paintFrame : t -> list VisibleTile -> outcome unit * Canvas.t * LabelBuffer.t
}.

(** What a call of [draw] does before control leaves it: either it finds
    the latch set and returns at once, or it sets the latch, clears the
    label index and the canvas, lists the visible tiles and waits for
    their data. *)
Inductive draw_step :=
| Immediate (res : RenderResult)
| Suspended (tiles : list VisibleTile).

Definition draw_call (r : t) : draw_step * t :=
  if isDrawing r then (Immediate (snapshot r), r)
  else
    let lb := LabelBuffer.clear (labelBuffer r) in
    let c1 :=
      match styleById r !! "background" with
      | Some bgStyle => Canvas.setBackground (TileParser.color bgStyle) (canvas r)
      | None => canvas r
      end in
    let r1 := with_frame r (tileSource r) (Canvas.clear c1) lb true in
    (Suspended (visibleTiles r1), r1).

(** The rest of that call once the tiles have settled: paint, export,
    and in any case ([finally]) release the latch. *)
Definition draw_resume `{TileParser.TileCodec} `{FramePainter}
    (net : TileSource.Network) (tiles : list VisibleTile) (r : t)
  : outcome RenderResult * t :=
  match fold_left (loadTile net) tiles (Some ([], tileSource r)) with
  | None => (Hangs, r)
  | Some (loaded, ts) =>
      let r1 := with_frame r ts (canvas r) (labelBuffer r) true in
      match paintFrame r1 loaded with
      | (Returns _, c, lb) =>
          let r2 := with_frame r1 ts c lb true in
          (Returns (snapshot r2), with_frame r2 ts c lb false)
      | (Throws e, c, lb) => (Throws e, with_frame r1 ts c lb false)
      | (Hangs, c, lb) => (Hangs, with_frame r1 ts c lb true)
      end
  end.

(** *** The data model's bounds on the viewport *)

Definition zoom_ok (s : MapState) : Prop := (MIN_ZOOM <= zoom s <= MAX_ZOOM)%R.
Definition lat_ok (ll : LatLon) : Prop := (-85.0511 <= lat ll <= 85.0511)%R.
Definition lon_ok (ll : LatLon) : Prop := (-180 <= lon ll <= 180)%R.

(** Zoom and latitude within their bounds. *)
Definition view_ok (r : t) : Prop :=
  zoom_ok (state r) /\ lat_ok (center (state r)).

(** A mutator call whose longitudes are already in range and whose pan
    is at most one tile wide. *)
Definition tame (m : mutator) : Prop :=
  match m with
  | Pan dx _ => (-256 <= dx <= 256)%R
  | CenterOn ll => lon_ok ll
  | FitBounds ps _ => Forall lon_ok ps
  | _ => True
  end.

(** *** A renderer to run the model against

    An 8x8 canvas over an HTTP tile source, in the state the constructor
    leaves; and the same renderer after a frame that drew the GPS marker
    at the canvas centre. *)
Definition sample_source : TileSource.t :=
  TileSource.mk TileSource.http "http://tiles/" None ∅ [] 32 "en" ∅.

Definition sample_canvas : Canvas.t :=
  Canvas.mk 8 8
    (BrailleBuffer.mk 8 8 4 2 (replicate 8 0) (replicate 8 0) (replicate 8 0)
                      (replicate 8 None) 0).

Definition sample_renderer : t :=
  mk sample_source sample_canvas (LabelBuffer.new (Some LABEL_MARGIN)) ∅ 8 8 false
     (mkState (mkLatLon 53.3498 (-6.2603)) 12) None None None None None.

Definition painted_renderer : t :=
  with_frame sample_renderer sample_source
    (Canvas.marker 4 4 226 4 sample_canvas)
    (LabelBuffer.new (Some LABEL_MARGIN)) false.


(** The plain text of a canvas with no dot and no glyph: every cell the
    empty braille pattern U+2800. *)
Definition blank_lines (b : BrailleBuffer.t) : list jsstr :=
  replicate (Z.to_nat (BrailleBuffer.charHeight b))
            (replicate (Z.to_nat (BrailleBuffer.charWidth b)) 0x2800).

End Renderer.

(* ===================================================================== *)
(** * Part II: properties                                                 *)
(* ===================================================================== *)

(** ** The model on concrete inputs *)

Section Sanity.

(** Two dots of the first cell, bits 0 and 7, give U+2881. *)
Example braille_cell_bits :
  exists b0, BrailleBuffer.new 4 4 = Some b0 /\
    BrailleBuffer.toPlainLines
      (BrailleBuffer.run [BrailleBuffer.SetPixel 0 0 1; BrailleBuffer.SetPixel 1 3 1] b0)
    = [[0x2881; 0x2800]].
Proof. eexists. split; reflexivity. Qed.

(** Sizes are rounded down to whole cells. *)
Example buffer_size_rounded :
  exists b0, BrailleBuffer.new 7 9 = Some b0 /\
    (BrailleBuffer.width b0, BrailleBuffer.height b0,
     BrailleBuffer.charWidth b0, BrailleBuffer.charHeight b0) = (6, 8, 3, 2).
Proof. eexists. split; reflexivity. Qed.

(** A three-unit glyph hides the two cells after it in every export. *)
Example wide_glyph_skips :
  exists b0, BrailleBuffer.new 8 4 = Some b0 /\
    let b := BrailleBuffer.run [BrailleBuffer.SetChar [65; 66; 67] 0 0 1] b0 in
    BrailleBuffer.toPlainLines b = [[65; 66; 67; 0x2800]]
    /\ map (map BrailleBuffer.char) (BrailleBuffer.toColoredCells b)
       = [[[65; 66; 67]; [0x2800]]].
Proof. eexists. split; [reflexivity|]. split; reflexivity. Qed.

(** The colour sequence of a foreground-only cell. *)
Example foreground_sequence :
  exists b0, BrailleBuffer.new 2 4 = Some b0 /\
    BrailleBuffer.toLines (BrailleBuffer.run [BrailleBuffer.SetPixel 0 0 46] b0)
    = [[27; 91; 52; 57; 59; 51; 56; 59; 53; 59; 52; 54; 109; 0x2801;
        27; 91; 51; 57; 59; 52; 57; 109]].
Proof. eexists. split; reflexivity. Qed.

Example colour_cube_corner :
  Utils.hex2xterm "#ff0000" = Some 196 /\ Utils.xterm2hex 196 = "#ff0000"%string.
Proof. split; reflexivity. Qed.

Example short_hex_colour :
  Utils.hex2rgb "#abc" = (Some 170, Some 187, Some 204).
Proof. reflexivity. Qed.

Example tile_key : TileSource.tileKey 12 2042 1324 = "12-2042-1324"%string.
Proof. reflexivity. Qed.

Example gzip_magic :
  TileParser.isGzipped [0x1f; 0x8b; 8; 0] = true
  /\ TileParser.isGzipped [0x1a; 0x03] = false
  /\ TileParser.isGzipped [0x1f] = false.
Proof. repeat split; reflexivity. Qed.

(** A queue of capacity 2 drops its oldest key on the third store. *)
Example eviction_order :
  let ts := TileSource.mk TileSource.http "http://tiles/" None ∅ [] 2 "en" ∅ in
  TileSource.cacheOrder
    (@TileSource.run TileSource.strict_codec
       [TileSource.Store 1 0 0 (TileParser.mkTile ∅);
        TileSource.Store 1 0 1 (TileParser.mkTile ∅);
        TileSource.Store 1 1 0 (TileParser.mkTile ∅)] ts)
  = ["1-0-1"; "1-1-0"]%string.
Proof. reflexivity. Qed.

(** The edge walk from (0, 0) to (3, 1). *)
Example bresenham_walk :
  Canvas.bresenhamPoints 0 0 3 1
  = Some [Canvas.mkPoint 0 0; Canvas.mkPoint 1 0; Canvas.mkPoint 2 1; Canvas.mkPoint 3 1].
Proof. reflexivity. Qed.

End Sanity.

(** ** Arrays *)

Lemma ta_get_set_eq (a : list Z) (i v : Z) :
  0 <= i < Z.of_nat (length a) ->
  ta_get (ta_set a i v) i = Some (to_uint8 v).
Proof.
  intros Hi. unfold ta_get, ta_set.
  destruct (i <? 0) eqn:E; [lia|].
  apply list_lookup_insert_eq. lia.
Qed.

Lemma ta_get_set_ne (a : list Z) (i j v : Z) :
  i <> j -> ta_get (ta_set a i v) j = ta_get a j.
Proof.
  intros Hne. unfold ta_get, ta_set.
  destruct (j <? 0) eqn:Ej; [done|].
  destruct (i <? 0) eqn:Ei; [done|].
  apply list_lookup_insert_ne. lia.
Qed.

Lemma ta_set_length (a : list Z) (i v : Z) : length (ta_set a i v) = length a.
Proof. unfold ta_set. destruct (i <? 0); [done|]. apply length_insert. Qed.

Lemma ta_get_in_range (a : list Z) (i : Z) :
  0 <= i < Z.of_nat (length a) -> exists v, ta_get a i = Some v.
Proof.
  intros Hi. unfold ta_get. destruct (i <? 0) eqn:E; [lia|].
  destruct (lookup_lt_is_Some_2 a (Z.to_nat i)) as [v Hv]; [lia|]. eauto.
Qed.

Lemma to_uint8_byte (v : Z) : 0 <= to_uint8 v < 256.
Proof. unfold to_uint8. apply Z.mod_pos_bound. lia. Qed.

Lemma ta_set_bytes (a : list Z) (i v : Z) :
  Forall BrailleBuffer.is_byte a -> Forall BrailleBuffer.is_byte (ta_set a i v).
Proof.
  intros Ha. unfold ta_set. destruct (i <? 0); [done|].
  apply Forall_insert; [done|]. apply to_uint8_byte.
Qed.

Lemma ta_get_byte (a : list Z) (i v : Z) :
  Forall BrailleBuffer.is_byte a -> ta_get a i = Some v -> 0 <= v < 256.
Proof.
  intros Ha. unfold ta_get. destruct (i <? 0); [done|].
  intros Hv. eapply Forall_lookup_1 in Ha; eauto.
Qed.

Lemma arr_set_length_in (a : list (option jsstr)) (i : Z) v :
  0 <= i < Z.of_nat (length a) -> length (arr_set a i v) = length a.
Proof.
  intros Hi. unfold arr_set. destruct (i <? 0) eqn:E; [done|].
  destruct (Nat.ltb_spec (Z.to_nat i) (length a)); [|lia].
  apply length_insert.
Qed.

(** ** The pixel buffer: invariants *)

Section BrailleBufferProperties.
Import BrailleBuffer.

Lemma dotMask_bit (x y : Z) : dotMask x y = Some (2 ^ dotBit x y).
Proof.
  unfold dotMask, dotBit.
  change 3 with (Z.ones 2) at 1. change 1 with (Z.ones 1) at 1.
  rewrite !Z.land_ones by lia.
  change (2 ^ 2) with 4. change (2 ^ 1) with 2.
  pose proof (Z.mod_pos_bound y 4 ltac:(lia)) as Hy.
  pose proof (Z.mod_pos_bound x 2 ltac:(lia)) as Hx.
  assert (Hyc : y mod 4 = 0 \/ y mod 4 = 1 \/ y mod 4 = 2 \/ y mod 4 = 3) by lia.
  assert (Hxc : x mod 2 = 0 \/ x mod 2 = 1) by lia.
  destruct Hyc as [-> | [-> | [-> | ->]]]; destruct Hxc as [-> | ->]; reflexivity.
Qed.

Lemma dotBit_range (x y : Z) : 0 <= dotBit x y < 8.
Proof.
  unfold dotBit.
  pose proof (Z.mod_pos_bound y 4 ltac:(lia)).
  pose proof (Z.mod_pos_bound x 2 ltac:(lia)).
  destruct (y mod 4 <? 3) eqn:E; lia.
Qed.

Lemma outside_false (b : t) (x y : Z) :
  0 <= x < width b -> 0 <= y < height b -> outside b x y = false.
Proof. intros. unfold outside. lia. Qed.

Lemma outside_true (b : t) (x y : Z) :
  ~ (0 <= x < width b /\ 0 <= y < height b) -> outside b x y = true.
Proof. intros. unfold outside. lia. Qed.

Lemma cellIndex_range (b : t) (x y : Z) :
  wf b -> 0 <= x < width b -> 0 <= y < height b ->
  0 <= cellIndex b x y < charWidth b * charHeight b.
Proof.
  intros Hwf Hx Hy. unfold cellIndex.
  rewrite !Z.shiftr_div_pow2 by lia.
  change (2 ^ 1) with 2. change (2 ^ 2) with 4.
  rewrite (wf_width b Hwf) in Hx. rewrite (wf_height b Hwf) in Hy.
  assert (0 <= x / 2 < charWidth b) by (split; [apply Z.div_pos; lia | apply Z.div_lt_upper_bound; lia]).
  assert (0 <= y / 4 < charHeight b) by (split; [apply Z.div_pos; lia | apply Z.div_lt_upper_bound; lia]).
  nia.
Qed.

Lemma clear_bit_testbit (p k n : Z) :
  0 <= k ->
  Z.testbit (Z.land p (Z.lnot (2 ^ k))) n = Z.testbit p n && negb (n =? k).
Proof.
  intros Hk. destruct (Z.ltb_spec n 0).
  - rewrite !Z.testbit_neg_r by lia. reflexivity.
  - rewrite Z.land_spec, Z.lnot_spec by lia.
    rewrite Z.pow2_bits_eqb by lia. rewrite (Z.eqb_sym k n). reflexivity.
Qed.

Lemma land_byte (p m : Z) :
  0 <= p < 256 -> to_uint8 (Z.land p m) = Z.land p m.
Proof.
  intros Hp. unfold to_uint8. change 256 with (2 ^ 8).
  rewrite <- Z.land_ones by lia.
  rewrite <- Z.land_assoc, (Z.land_comm m), Z.land_assoc.
  rewrite Z.land_ones by lia. rewrite Z.mod_small; [reflexivity|].
  change (2 ^ 8) with 256. lia.
Qed.

Lemma with_pixel_wf (b : t) (i v : Z) :
  wf b -> wf (with_pixel b (ta_set (pixelBuffer b) i v)).
Proof.
  intros [? ? ? ? ? ? ? ? ?]. constructor; simpl; auto.
  - rewrite ta_set_length. assumption.
  - apply ta_set_bytes. assumption.
Qed.

Lemma with_foreground_wf (b : t) (i v : Z) :
  wf b -> wf (with_foreground b (ta_set (foregroundBuffer b) i v)).
Proof.
  intros [? ? ? ? ? ? ? ? ?]. constructor; simpl; auto.
  - rewrite ta_set_length. assumption.
  - apply ta_set_bytes. assumption.
Qed.

Lemma with_background_wf (b : t) (i v : Z) :
  wf b -> wf (with_background b (ta_set (backgroundBuffer b) i v)).
Proof.
  intros [? ? ? ? ? ? ? ? ?]. constructor; simpl; auto.
  - rewrite ta_set_length. assumption.
  - apply ta_set_bytes. assumption.
Qed.

Lemma new_wf (w h : Z) (b : t) : new w h = Some b -> wf b.
Proof.
  unfold new. destruct (_ <? 0) eqn:E; [discriminate|].
  intros [= <-]. constructor; simpl; rewrite ?length_replicate; try reflexivity.
  - rewrite Z.shiftr_div_pow2 by lia. change (2 ^ 1) with 2.
    pose proof (Z.rem_mod_eq_0 (w - Z.rem w 2) 2 ltac:(lia)) as Hm.
    assert (Hr : Z.rem (w - Z.rem w 2) 2 = 0).
    { pose proof (Z.quot_rem' w 2) as Hq.
      replace (w - Z.rem w 2) with (Z.quot w 2 * 2) by lia.
      apply Z.rem_mul. lia. }
    apply Hm in Hr. pose proof (Z.div_mod (w - Z.rem w 2) 2 ltac:(lia)). lia.
  - rewrite Z.shiftr_div_pow2 by lia. change (2 ^ 2) with 4.
    pose proof (Z.rem_mod_eq_0 (h - Z.rem h 4) 4 ltac:(lia)) as Hm.
    assert (Hr : Z.rem (h - Z.rem h 4) 4 = 0).
    { pose proof (Z.quot_rem' h 4) as Hq.
      replace (h - Z.rem h 4) with (Z.quot h 4 * 4) by lia.
      apply Z.rem_mul. lia. }
    apply Hm in Hr. pose proof (Z.div_mod (h - Z.rem h 4) 4 ltac:(lia)). lia.
  - apply Forall_replicate. unfold is_byte. lia.
  - apply Forall_replicate. unfold is_byte. lia.
  - apply Forall_replicate. unfold is_byte. lia.
Qed.

Lemma clear_wf (b : t) : wf b -> wf (clear b).
Proof.
  intros [? ? ? ? ? ? ? ? ?]. constructor; simpl; rewrite ?length_replicate; auto;
    apply Forall_replicate; unfold is_byte; lia.
Qed.

Lemma setPixel_wf (x y c : Z) (b : t) : wf b -> wf (setPixel x y c b).
Proof.
  intros Hwf. unfold setPixel. destruct (outside b x y); [done|].
  destruct (dotMask x y); [|done].
  apply (with_foreground_wf (with_pixel _ _)). by apply with_pixel_wf.
Qed.

Lemma unsetPixel_wf (x y : Z) (b : t) : wf b -> wf (unsetPixel x y b).
Proof.
  intros Hwf. unfold unsetPixel. destruct (outside b x y); [done|].
  destruct (dotMask x y); [|done]. by apply with_pixel_wf.
Qed.

Lemma setBackground_wf (x y c : Z) (b : t) : wf b -> wf (setBackground x y c b).
Proof.
  intros Hwf. unfold setBackground. destruct (outside b x y) eqn:E; [done|].
  by apply with_background_wf.
Qed.

Lemma outside_inv (b : t) (x y : Z) :
  outside b x y = false -> 0 <= x < width b /\ 0 <= y < height b.
Proof. unfold outside. lia. Qed.

Lemma setChar_wf (ch : jsstr) (x y c : Z) (b : t) : wf b -> wf (setChar ch x y c b).
Proof.
  intros Hwf. unfold setChar. destruct (outside b x y) eqn:E; [done|].
  apply outside_inv in E as [Hx Hy].
  pose proof (cellIndex_range b x y Hwf Hx Hy) as Hi.
  apply (with_foreground_wf (with_char _ _)).
  destruct Hwf as [? ? ? ? ? Hc ? ? ?]. constructor; simpl; auto.
  rewrite arr_set_length_in; [assumption|]. rewrite Hc. lia.
Qed.

Lemma writeText_loop_wf (s : jsstr) (x y c : Z) (n i0 : nat) (b : t) :
  wf b -> wf (writeText_loop s x y c i0 n b).
Proof.
  revert i0 b. induction n as [|n IH]; intros i0 b Hwf; simpl; [done|].
  apply IH. by apply setChar_wf.
Qed.

Lemma writeText_wf (s : jsstr) (x y c : Z) (ctr : bool) (b : t) :
  wf b -> wf (writeText s x y c ctr b).
Proof. intros Hwf. unfold writeText. by apply writeText_loop_wf. Qed.

Lemma apply_wf (b : t) (o : op) : wf b -> wf (apply b o).
Proof.
  intros Hwf. destruct o; simpl.
  - by apply setPixel_wf.
  - by apply unsetPixel_wf.
  - by apply setBackground_wf.
  - by apply setChar_wf.
  - by apply writeText_wf.
  - by apply clear_wf.
  - destruct Hwf. by constructor.
Qed.

Lemma run_wf (ops : list op) (b : t) : wf b -> wf (run ops b).
Proof.
  revert b. induction ops as [|o ops IH]; intros b Hwf; simpl; [done|].
  apply IH. by apply apply_wf.
Qed.

(** The frame of [unsetPixel] on a well-formed buffer. *)
Lemma unsetPixel_frame_wf (b : t) (x y : Z) :
  wf b -> 0 <= x < width b -> 0 <= y < height b ->
  let b' := unsetPixel x y b in
  let idx := cellIndex b x y in
  foregroundBuffer b' = foregroundBuffer b /\
  backgroundBuffer b' = backgroundBuffer b /\
  charBuffer b' = charBuffer b /\
  globalBackground b' = globalBackground b /\
  (width b', height b', charWidth b', charHeight b')
    = (width b, height b, charWidth b, charHeight b) /\
  length (pixelBuffer b') = length (pixelBuffer b) /\
  (forall j, j <> idx -> ta_get (pixelBuffer b') j = ta_get (pixelBuffer b) j) /\
  exists p p',
    ta_get (pixelBuffer b) idx = Some p /\
    ta_get (pixelBuffer b') idx = Some p' /\
    forall n, Z.testbit p' n = Z.testbit p n && negb (n =? dotBit x y).
Proof.
  intros Hwf Hx Hy b' idx. subst b'. unfold unsetPixel.
  rewrite outside_false by assumption. rewrite dotMask_bit. fold idx.
  pose proof (cellIndex_range b x y Hwf Hx Hy) as Hi. fold idx in Hi.
  assert (Hlen : 0 <= idx < Z.of_nat (length (pixelBuffer b))).
  { rewrite (wf_pixel b Hwf). lia. }
  destruct (ta_get_in_range _ _ Hlen) as [p Hp].
  pose proof (ta_get_byte _ _ _ (wf_pixel_bytes b Hwf) Hp) as Hpb.
  rewrite Hp. simpl.
  repeat split; try reflexivity.
  - apply ta_set_length.
  - intros j Hj. apply ta_get_set_ne. congruence.
  - exists p, (Z.land p (Z.lnot (2 ^ dotBit x y))).
    split; [reflexivity|]. split.
    + rewrite ta_get_set_eq by assumption. f_equal. by apply land_byte.
    + intros n. apply clear_bit_testbit. apply dotBit_range.
Qed.

End BrailleBufferProperties.

(** ** The pixel buffer: escape sequences *)

Section ExportProperties.
Import BrailleBuffer.

Lemma uint_units_param (d : Decimal.uint) : param_units (uint_units d).
Proof. induction d; simpl; constructor; auto. Qed.

Lemma num_units_param (n : Z) : 0 <= n -> param_units (num_units n).
Proof.
  intros Hn. unfold num_units. destruct n as [|p|p]; simpl.
  - repeat constructor.
  - apply uint_units_param.
  - lia.
Qed.

Lemma strip_pending (params p rest : jsstr) :
  param_units params -> (2 <= length p)%nat ->
  strip_from (Some p) (params ++ 109 :: rest) = strip_from None rest.
Proof.
  intros Hp. revert p. induction Hp as [|c params Hc _ IH]; intros p Hlen; simpl.
  - destruct (Nat.eqb_spec (length p) 1); [lia|]. reflexivity.
  - destruct (Nat.eqb_spec (length p) 1); [lia|].
    destruct (Z.eqb_spec c 109) as [->|_]; [discriminate Hc|].
    rewrite Hc. apply IH. rewrite length_app. simpl. lia.
Qed.

Lemma strip_code (c rest : jsstr) :
  is_code c -> strip_from None (c ++ rest) = strip_from None rest.
Proof.
  intros (params & -> & Hp). simpl. rewrite <- app_assoc. simpl.
  apply strip_pending; [assumption|]. simpl. lia.
Qed.

Lemma strip_plain (g rest : jsstr) :
  esc_free g -> strip_from None (g ++ rest) = g ++ strip_from None rest.
Proof.
  unfold esc_free. induction g as [|c g IH]; intros Hg; simpl; [reflexivity|].
  destruct (Z.eqb_spec c ESC) as [->|_].
  - exfalso. apply Hg. left.
  - f_equal. apply IH. intros Hin. apply Hg. by right.
Qed.

Lemma termReset_code : is_code termReset.
Proof. exists [51; 57; 59; 52; 57]. split; [reflexivity|]. repeat constructor. Qed.

Lemma termColor_code (b : t) (fg bg : Z) :
  0 <= globalBackground b -> 0 <= fg -> 0 <= bg -> is_code (termColor b fg bg).
Proof.
  intros Hg Hf Hb. unfold termColor.
  set (ebg := if bg =? 0 then globalBackground b else bg).
  assert (Hebg : 0 <= ebg) by (subst ebg; destruct (bg =? 0); lia).
  pose proof (num_units_param fg Hf) as Pf.
  pose proof (num_units_param ebg Hebg) as Pe.
  destruct (negb (fg =? 0) && negb (ebg =? 0)); [|destruct (negb (fg =? 0)); [|destruct (negb (ebg =? 0))]].
  - exists ([51; 56; 59; 53; 59] ++ num_units fg ++ [59; 52; 56; 59; 53; 59] ++ num_units ebg).
    split; [by rewrite <- !app_assoc|].
    unfold param_units. rewrite !Forall_app. repeat split; auto; repeat constructor.
  - exists ([52; 57; 59; 51; 56; 59; 53; 59] ++ num_units fg).
    split; [by rewrite <- !app_assoc|].
    unfold param_units. rewrite !Forall_app. repeat split; auto; repeat constructor.
  - exists ([51; 57; 59; 52; 56; 59; 53; 59] ++ num_units ebg).
    split; [by rewrite <- !app_assoc|].
    unfold param_units. rewrite !Forall_app. repeat split; auto; repeat constructor.
  - apply termReset_code.
Qed.

Lemma arr_get_clean (b : t) (i : Z) (g : jsstr) :
  clean b -> arr_get (charBuffer b) i = Some g -> esc_free g.
Proof.
  intros [Hc _]. unfold arr_get. destruct (i <? 0); [done|].
  destruct (charBuffer b !! Z.to_nat i) as [o|] eqn:E; simpl; [|done].
  intros ->. eapply Forall_lookup_1 in Hc; eauto.
Qed.

Lemma arr_set_clean (a : list (option jsstr)) (i : Z) (g : jsstr) :
  esc_free g ->
  Forall (fun o => forall g, o = Some g -> esc_free g) a ->
  Forall (fun o => forall g, o = Some g -> esc_free g) (arr_set a i (Some g)).
Proof.
  intros Hg Ha. unfold arr_set. destruct (i <? 0); [done|].
  destruct (_ <? _)%nat.
  - apply Forall_insert; [done|]. by intros ? [= <-].
  - rewrite !Forall_app. repeat split; [done| |].
    + apply Forall_replicate. discriminate.
    + constructor; [|constructor]. by intros ? [= <-].
Qed.

Lemma new_clean (w h : Z) (b : t) : new w h = Some b -> clean b.
Proof.
  unfold new. destruct (_ <? 0); [discriminate|]. intros [= <-]. split; simpl; [|lia].
  apply Forall_replicate. discriminate.
Qed.

Lemma setChar_clean (ch : jsstr) (x y c : Z) (b : t) :
  esc_free ch -> clean b -> clean (setChar ch x y c b).
Proof.
  intros Hch [Hc Hg]. unfold setChar. destruct (outside b x y); [done|].
  split; simpl; [|done]. by apply arr_set_clean.
Qed.

Lemma charAt_esc_free (s : jsstr) (i : nat) : esc_free s -> esc_free (charAt s i).
Proof.
  unfold esc_free, charAt. intros Hs. destruct (s !! i) as [c|] eqn:E.
  - intros Hin. apply list_elem_of_singleton in Hin. subst c.
    apply Hs. eapply list_elem_of_lookup_2. eassumption.
  - apply not_elem_of_nil.
Qed.

Lemma writeText_loop_clean (s : jsstr) (x y c : Z) (n i0 : nat) (b : t) :
  esc_free s -> clean b -> clean (writeText_loop s x y c i0 n b).
Proof.
  intros Hs. revert i0 b. induction n as [|n IH]; intros i0 b Hb; simpl; [done|].
  apply IH. apply setChar_clean; [|done]. by apply charAt_esc_free.
Qed.

Lemma apply_clean (b : t) (o : op) : plain_op o -> clean b -> clean (apply b o).
Proof.
  intros Ho Hb. destruct o; simpl in *.
  - unfold setPixel. destruct (outside b x y); [done|]. by destruct (dotMask x y).
  - unfold unsetPixel. destruct (outside b x y); [done|]. by destruct (dotMask x y).
  - unfold setBackground. by destruct (outside b x y).
  - by apply setChar_clean.
  - unfold writeText. by apply writeText_loop_clean.
  - destruct Hb as [_ Hg]. split; simpl; [|done]. apply Forall_replicate. discriminate.
  - destruct Hb as [Hc _]. by split.
Qed.

Lemma run_clean (ops : list op) (b : t) :
  Forall plain_op ops -> clean b -> clean (run ops b).
Proof.
  intros Hops. revert b. induction Hops as [|o ops Ho _ IH]; intros b Hb; simpl; [done|].
  apply IH. by apply apply_clean.
Qed.

End ExportProperties.

(** ** The pixel buffer: the three exports *)

Section ExportConsistency.
Import BrailleBuffer.

Lemma join_snoc (parts : list jsstr) (s : jsstr) : join (parts ++ [s]) = join parts ++ s.
Proof. unfold join. rewrite concat_app. simpl. by rewrite app_nil_r. Qed.

Lemma same_text_nil : same_text [] [].
Proof. intros rest. reflexivity. Qed.

Lemma same_text_code (parts parts' : list jsstr) (c : jsstr) :
  is_code c -> same_text parts parts' -> same_text (parts ++ [c]) parts'.
Proof.
  intros Hc H rest. rewrite join_snoc, <- app_assoc, H. f_equal. by apply strip_code.
Qed.

Lemma same_text_glyph (parts parts' : list jsstr) (g : jsstr) :
  esc_free g -> same_text parts parts' -> same_text (parts ++ [g]) (parts' ++ [g]).
Proof.
  intros Hg H rest. rewrite !join_snoc, <- !app_assoc, H. f_equal. by apply strip_plain.
Qed.

Lemma braille_esc_free (p : Z) : 0 <= p < 256 -> esc_free (fromCharCode (BRAILLE_OFFSET + p)).
Proof.
  intros Hp. unfold esc_free, fromCharCode, BRAILLE_OFFSET, ESC.
  rewrite Z.mod_small by lia. intros Hin. apply list_elem_of_singleton in Hin. lia.
Qed.

Lemma grid_index_range (b : t) (cy cx : Z) :
  0 <= cy < charHeight b -> 0 <= cx < charWidth b ->
  0 <= cy * charWidth b + cx < charWidth b * charHeight b.
Proof. intros. nia. Qed.

Lemma toLines_cell_strips (b : t) (cy cx : Z) cc skip parts parts' :
  wf b -> clean b -> 0 <= cy < charHeight b -> 0 <= cx < charWidth b ->
  same_text parts parts' ->
  exists cc1 skip1 parts1 parts1',
    toLines_cell b cy (cc, skip, parts) cx = (cc1, skip1, parts1) /\
    toPlainLines_cell b cy (skip, parts') cx = (skip1, parts1') /\
    same_text parts1 parts1'.
Proof.
  intros Hwf Hcl Hcy Hcx Hst.
  pose proof (grid_index_range b cy cx Hcy Hcx) as Hi.
  unfold toLines_cell, toPlainLines_cell.
  set (idx := cy * charWidth b + cx) in *.
  destruct (ta_get_in_range (foregroundBuffer b) idx) as [f Hf];
    [rewrite (wf_foreground b Hwf); lia|].
  destruct (ta_get_in_range (backgroundBuffer b) idx) as [g Hg];
    [rewrite (wf_background b Hwf); lia|].
  destruct (ta_get_in_range (pixelBuffer b) idx) as [p Hp];
    [rewrite (wf_pixel b Hwf); lia|].
  pose proof (ta_get_byte _ _ _ (wf_foreground_bytes b Hwf) Hf) as Hfb.
  pose proof (ta_get_byte _ _ _ (wf_background_bytes b Hwf) Hg) as Hgb.
  pose proof (ta_get_byte _ _ _ (wf_pixel_bytes b Hwf) Hp) as Hpb.
  rewrite Hf, Hg, Hp. simpl.
  assert (Hcode : is_code (termColor b f g))
    by (apply termColor_code; [apply Hcl | lia | lia]).
  set (code := termColor b f g) in *.
  assert (Hst' : same_text (parts ++ [code]) parts') by (by apply same_text_code).
  destruct (arr_get (charBuffer b) idx) as [ch|] eqn:Ech.
  - pose proof (arr_get_clean b idx ch Hcl Ech) as Hch.
    destruct (bool_decide (cc = Some code)); destruct (0 <? skip);
      do 4 eexists; (split; [reflexivity|]); (split; [reflexivity|]);
      auto using same_text_glyph.
  - pose proof (braille_esc_free p Hpb) as Hbr.
    destruct (bool_decide (cc = Some code)); destruct (0 <? skip);
      do 4 eexists; (split; [reflexivity|]); (split; [reflexivity|]);
      auto using same_text_glyph.
Qed.

Lemma toLines_cells_strip (b : t) (cy : Z) (cols : list Z) :
  wf b -> clean b -> 0 <= cy < charHeight b ->
  Forall (fun cx => 0 <= cx < charWidth b) cols ->
  forall cc skip parts parts',
    same_text parts parts' ->
    exists cc1 skip1 parts1 parts1',
      fold_left (toLines_cell b cy) cols (cc, skip, parts) = (cc1, skip1, parts1) /\
      fold_left (toPlainLines_cell b cy) cols (skip, parts') = (skip1, parts1') /\
      same_text parts1 parts1'.
Proof.
  intros Hwf Hcl Hcy Hcols.
  induction Hcols as [|cx cols Hcx _ IH]; intros cc skip parts parts' Hst;
    cbn [fold_left].
  - by do 4 eexists.
  - destruct (toLines_cell_strips b cy cx cc skip parts parts' Hwf Hcl Hcy Hcx Hst)
      as (cc1 & skip1 & parts1 & parts1' & -> & -> & Hst1).
    by apply IH.
Qed.

Lemma columns_range (b : t) : Forall (fun cx => 0 <= cx < charWidth b) (columns b).
Proof.
  unfold columns. apply Forall_forall. intros cx Hin.
  apply list_elem_of_fmap in Hin as (k & -> & Hk).
  apply elem_of_seq in Hk. lia.
Qed.

Lemma rows_range (b : t) : Forall (fun cy => 0 <= cy < charHeight b) (rows b).
Proof.
  unfold rows. apply Forall_forall. intros cy Hin.
  apply list_elem_of_fmap in Hin as (k & -> & Hk).
  apply elem_of_seq in Hk. lia.
Qed.

Lemma toLines_row_strips (b : t) (cy : Z) cc lines :
  wf b -> clean b -> 0 <= cy < charHeight b ->
  exists cc1 line,
    toLines_row b (cc, lines) cy = (cc1, lines ++ [line]) /\
    stripAnsi line = toPlainLines_row b cy.
Proof.
  intros Hwf Hcl Hcy. unfold toLines_row, toPlainLines_row.
  destruct (toLines_cells_strip b cy (columns b) Hwf Hcl Hcy (columns_range b)
              cc 0 [] [] same_text_nil)
    as (cc1 & skip1 & parts1 & parts1' & -> & -> & Hst).
  do 2 eexists. split; [reflexivity|]. cbn [snd].
  unfold stripAnsi.
  pose proof (same_text_code _ _ _ termReset_code Hst []) as H.
  rewrite !app_nil_r in H. exact H.
Qed.

Lemma toLines_rows_strip (b : t) (rws : list Z) :
  wf b -> clean b -> Forall (fun cy => 0 <= cy < charHeight b) rws ->
  forall cc lines,
    map stripAnsi (snd (fold_left (toLines_row b) rws (cc, lines)))
    = map stripAnsi lines ++ map (toPlainLines_row b) rws.
Proof.
  intros Hwf Hcl Hrws.
  induction Hrws as [|cy rws Hcy _ IH]; intros cc lines; cbn [fold_left map].
  - by rewrite app_nil_r.
  - destruct (toLines_row_strips b cy cc lines Hwf Hcl Hcy) as (cc1 & line & -> & Hl).
    rewrite IH, map_app. simpl. rewrite Hl, <- app_assoc. reflexivity.
Qed.

Lemma toLines_strip (b : t) :
  wf b -> clean b -> map stripAnsi (toLines b) = toPlainLines b.
Proof.
  intros Hwf Hcl. unfold toLines, toPlainLines.
  by rewrite (toLines_rows_strip b (rows b) Hwf Hcl (rows_range b)).
Qed.

(** The coloured cells carry the plain text, cell for cell. *)
Lemma toColoredCells_cells_text (b : t) (cy : Z) (cols : list Z) :
  forall skip row parts,
    map char row = parts ->
    exists skip1 row1 parts1,
      fold_left (toColoredCells_cell b cy) cols (skip, row) = (skip1, row1) /\
      fold_left (toPlainLines_cell b cy) cols (skip, parts) = (skip1, parts1) /\
      map char row1 = parts1.
Proof.
  induction cols as [|cx cols IH]; intros skip row parts Hrow; cbn [fold_left].
  - by do 3 eexists.
  - unfold toColoredCells_cell at 2, toPlainLines_cell at 2.
    destruct (arr_get (charBuffer b) (cy * charWidth b + cx)) as [ch|];
      destruct (0 <? skip); apply IH; rewrite ?map_app; simpl; by subst.
Qed.

Lemma toColoredCells_text (b : t) :
  map cells_text (toColoredCells b) = toPlainLines b.
Proof.
  unfold toColoredCells, toPlainLines. rewrite map_map. apply map_ext. intros cy.
  unfold toColoredCells_row, toPlainLines_row, cells_text.
  destruct (toColoredCells_cells_text b cy (columns b) 0 [] [] eq_refl)
    as (skip1 & row1 & parts1 & -> & -> & <-). reflexivity.
Qed.

End ExportConsistency.

(** ** Claims on the pixel buffer *)

Section BufferClaims.
Import BrailleBuffer.

(** C10.  On a buffer built by the constructor and any calls, [unsetPixel]
    at an in-range pixel changes only the pixel byte of the containing
    cell, and there only the addressed dot bit: foreground, background,
    glyphs, global background and sizes are the same, every other pixel
    byte reads the same, and bit [n] of the addressed byte is the old bit
    except for the dot's own bit, which is cleared.  At an out-of-range
    pixel the buffer is returned as it was. *)
Theorem unsetPixel_frame (w h : Z) (b0 : t) (ops : list op) (x y : Z) :
  new w h = Some b0 ->
  let b := run ops b0 in
  let b' := unsetPixel x y b in
  let idx := cellIndex b x y in
  (0 <= x < width b /\ 0 <= y < height b ->
     foregroundBuffer b' = foregroundBuffer b /\
     backgroundBuffer b' = backgroundBuffer b /\
     charBuffer b' = charBuffer b /\
     globalBackground b' = globalBackground b /\
     (width b', height b', charWidth b', charHeight b')
       = (width b, height b, charWidth b, charHeight b) /\
     length (pixelBuffer b') = length (pixelBuffer b) /\
     (forall j, j <> idx -> ta_get (pixelBuffer b') j = ta_get (pixelBuffer b) j) /\
     exists p p',
       ta_get (pixelBuffer b) idx = Some p /\
       ta_get (pixelBuffer b') idx = Some p' /\
       forall n, Z.testbit p' n = Z.testbit p n && negb (n =? dotBit x y))
  /\ (~ (0 <= x < width b /\ 0 <= y < height b) -> b' = b).
Proof.
  intros Hnew b b' idx.
  assert (Hwf : wf b) by (apply run_wf; eapply new_wf; eassumption).
  split.
  - intros [Hx Hy]. by apply unsetPixel_frame_wf.
  - intros Hout. subst b'. unfold unsetPixel. by rewrite outside_true.
Qed.

Lemma unsetPixel_frame_witness :
  exists b0, new 4 8 = Some b0 /\
    let b := run [SetPixel 1 2 7; SetPixel 0 0 7] b0 in
    ta_get (pixelBuffer b) 0 = Some 33 /\
    ta_get (pixelBuffer (unsetPixel 1 2 b)) 0 = Some 1 /\
    foregroundBuffer (unsetPixel 1 2 b) = foregroundBuffer b.
Proof.
  eexists. split; [reflexivity|].
  pose proof (unsetPixel_frame 4 8 _ [SetPixel 1 2 7; SetPixel 0 0 7] 1 2 eq_refl) as H.
  cbv zeta in H. destruct H as [H _].
  assert (Hin : 0 <= 1 < 4 /\ 0 <= 2 < 8) by lia.
  destruct (H Hin) as (Hfg & _).
  cbv zeta. split; [reflexivity|]. split; [reflexivity|]. exact Hfg.
Defined.

(** C5, amended.  On a buffer built by the constructor and any calls whose
    glyphs do not contain the escape character, the three exports agree:
    removing the colour sequences from each line of [toLines] gives
    [toPlainLines], and so does joining the [char] fields of each row of
    [toColoredCells]; a glyph of several units makes all three skip the
    same cells. *)
Theorem export_modes_consistent (w h : Z) (b0 : t) (ops : list op) :
  new w h = Some b0 -> Forall plain_op ops ->
  let b := run ops b0 in
  map stripAnsi (toLines b) = toPlainLines b
  /\ map cells_text (toColoredCells b) = toPlainLines b.
Proof.
  intros Hnew Hops b. split.
  - apply toLines_strip.
    + apply run_wf. eapply new_wf. eassumption.
    + apply run_clean; [assumption|]. eapply new_clean. eassumption.
  - apply toColoredCells_text.
Qed.

Lemma export_modes_consistent_witness :
  exists b0, new 8 4 = Some b0 /\
    let b := run [SetChar [65; 66; 67] 0 0 1; SetPixel 7 3 9; SetBackground 2 0 4] b0 in
    map stripAnsi (toLines b) = toPlainLines b
    /\ map cells_text (toColoredCells b) = toPlainLines b.
Proof.
  eexists. split; [reflexivity|].
  apply (export_modes_consistent 8 4 _
           [SetChar [65; 66; 67] 0 0 1; SetPixel 7 3 9; SetBackground 2 0 4] eq_refl).
  repeat constructor. unfold esc_free, ESC. intros Hin.
  repeat (apply elem_of_cons in Hin as [Hin|Hin]; [discriminate|]).
  by apply elem_of_nil in Hin.
Defined.

(** C5 as stated fails: a label that holds the four units of a colour
    sequence is text in [toPlainLines] and vanishes from the stripped
    [toLines]. *)
Lemma export_modes_escape_glyph :
  exists b0, new 8 4 = Some b0 /\
    let b := run [WriteText [27; 91; 48; 109] 0 0 1 false] b0 in
    toPlainLines b = [[27; 91; 48; 109]] /\
    map stripAnsi (toLines b) = [[]] /\
    map stripAnsi (toLines b) <> toPlainLines b.
Proof.
  eexists. split; [reflexivity|]. vm_compute. repeat split. discriminate.
Qed.

End BufferClaims.

(** ** The canvas: polygons that cannot be drawn *)

Section CanvasClaims.
Import Canvas.
Context `{Triangulator}.

Lemma collect_rings_short_outer (ring : list Point) (rest : list (list Point)) :
  (length ring < 3)%nat -> collect_rings (ring :: rest) [] [] = None.
Proof.
  intros Hlen. simpl. destruct (Nat.ltb_spec (length ring) 3); [reflexivity|lia].
Qed.

(** C7.  A ring set whose first ring has fewer than three points makes
    [polygon] return [false] with the canvas, and so the pixel buffer,
    as it was; and when earcut throws on the collected vertices,
    [polygon] returns [false], again with the canvas as it was, instead
    of throwing. *)
Theorem polygon_failure (rings : list (list Point)) (color : Z) (c : t) :
  (forall ring rest, rings = ring :: rest -> (length ring < 3)%nat ->
     polygon rings color c = Returns (false, c))
  /\ (forall vertices holes,
        collect_rings rings [] [] = Some (vertices, holes) ->
        earcut vertices (if (length holes =? 0)%nat then None else Some holes) = None ->
        polygon rings color c = Returns (false, c)).
Proof.
  split.
  - intros ring rest -> Hlen. unfold polygon.
    by rewrite collect_rings_short_outer.
  - intros vertices holes Hc He. unfold polygon. by rewrite Hc, He.
Qed.

End CanvasClaims.

Lemma polygon_failure_witness :
  exists c, Canvas.new 8 8 = Some c
    /\ @Canvas.polygon Canvas.failing_triangulator
         [[Canvas.mkPoint 0 0; Canvas.mkPoint 3 3]] 7 c = Returns (false, c)
    /\ @Canvas.polygon Canvas.failing_triangulator
         [[Canvas.mkPoint 0 0; Canvas.mkPoint 4 0; Canvas.mkPoint 0 4]] 7 c
       = Returns (false, c).
Proof.
  eexists. split; [reflexivity|]. split.
  - apply (proj1 (@polygon_failure Canvas.failing_triangulator _ 7 _)
             [Canvas.mkPoint 0 0; Canvas.mkPoint 3 3] []); [reflexivity | simpl; lia].
  - apply (proj2 (@polygon_failure Canvas.failing_triangulator _ 7 _)
             [0; 0; 4; 0; 0; 4] []); reflexivity.
Defined.

(** ** The canvas: the rasteriser always returns *)

Section Rasteriser.
Import Canvas.

(** The edge walk with [rx] steps left along x and [ry] along y: the
    error term is determined by them, and the walk ends within
    [rx + ry + 1] rounds. *)
Lemma bresenham_loop_returns (bx by_ dx dy sx sy : Z) :
  0 <= dx -> 0 <= dy -> (sx = 1 \/ sx = -1) -> (sy = 1 \/ sy = -1) ->
  forall (fuel : nat) (rx ry : Z),
    0 <= rx <= dx -> 0 <= ry <= dy -> rx + ry < Z.of_nat fuel ->
    exists pts,
      bresenham_loop fuel (bx - sx * rx) (by_ - sy * ry) bx by_ dx dy sx sy
                     (dx - dy + rx * dy - ry * dx) = Some pts
      /\ Z.of_nat (length pts) <= rx + ry + 1.
Proof.
  intros Hdx Hdy Hsx Hsy. induction fuel as [|fuel IH]; intros rx ry Hrx Hry Hfuel; [lia|].
  cbn [bresenham_loop].
  destruct ((bx - sx * rx =? bx) && (by_ - sy * ry =? by_)) eqn:Hend.
  - eexists. split; [reflexivity|]. simpl. lia.
  - assert (Hleft : 0 < rx + ry).
    { destruct (Z.eqb_spec (bx - sx * rx) bx); destruct (Z.eqb_spec (by_ - sy * ry) by_);
        try discriminate; nia. }
    set (err := dx - dy + rx * dy - ry * dx).
    destruct (Z.gtb_spec (2 * err) (- dy)) as [Hx|Hx];
      destruct (Z.ltb_spec (2 * err) dx) as [Hy|Hy].
    + assert (1 <= rx) by (subst err; nia). assert (1 <= ry) by (subst err; nia).
      destruct (IH (rx - 1) (ry - 1)) as (pts & Hpts & Hlen); [lia|lia|lia|].
      replace (bx - sx * rx + sx) with (bx - sx * (rx - 1)) by lia.
      replace (by_ - sy * ry + sy) with (by_ - sy * (ry - 1)) by lia.
      replace (err - dy + dx) with (dx - dy + (rx - 1) * dy - (ry - 1) * dx)
        by (subst err; lia).
      rewrite Hpts. eexists. split; [reflexivity|]. cbn [length]. lia.
    + assert (1 <= rx) by (subst err; nia).
      destruct (IH (rx - 1) ry) as (pts & Hpts & Hlen); [lia|lia|lia|].
      replace (bx - sx * rx + sx) with (bx - sx * (rx - 1)) by lia.
      replace (err - dy) with (dx - dy + (rx - 1) * dy - ry * dx) by (subst err; lia).
      rewrite Hpts. eexists. split; [reflexivity|]. cbn [length]. lia.
    + assert (1 <= ry) by (subst err; nia).
      destruct (IH rx (ry - 1)) as (pts & Hpts & Hlen); [lia|lia|lia|].
      replace (by_ - sy * ry + sy) with (by_ - sy * (ry - 1)) by lia.
      replace (err + dx) with (dx - dy + rx * dy - (ry - 1) * dx) by (subst err; lia).
      rewrite Hpts. eexists. split; [reflexivity|]. cbn [length]. lia.
    + exfalso. subst err. nia.
Qed.

Lemma bresenhamPoints_returns (ax ay bx by_ : Z) :
  exists pts, bresenhamPoints ax ay bx by_ = Some pts.
Proof.
  unfold bresenhamPoints.
  set (dx := Z.abs (bx - ax)). set (dy := Z.abs (by_ - ay)).
  set (sx := if ax <? bx then 1 else -1). set (sy := if ay <? by_ then 1 else -1).
  assert (Hx : ax = bx - sx * dx) by (subst sx dx; destruct (Z.ltb_spec ax bx); lia).
  assert (Hy : ay = by_ - sy * dy) by (subst sy dy; destruct (Z.ltb_spec ay by_); lia).
  destruct (bresenham_loop_returns bx by_ dx dy sx sy) with
    (fuel := Z.to_nat (dx + dy + 1)) (rx := dx) (ry := dy)
    as (pts & Hpts & _); try (subst dx dy; lia).
  - subst sx. destruct (ax <? bx); auto.
  - subst sy. destruct (ay <? by_); auto.
  - exists pts. rewrite Hx at 1. rewrite Hy at 1.
    replace (dx - dy) with (dx - dy + dx * dy - dy * dx) by lia. exact Hpts.
Qed.

Lemma filledTriangle_returns (pa pb pc : Z * Z) (color : Z) (c : t) :
  exists c', filledTriangle pa pb pc color c = Returns c'
             /\ width c' = width c /\ height c' = height c.
Proof.
  unfold filledTriangle.
  destruct (bresenhamPoints_returns (fst pb) (snd pb) (fst pc) (snd pc)) as [ea ->].
  destruct (bresenhamPoints_returns (fst pa) (snd pa) (fst pc) (snd pc)) as [eb ->].
  destruct (bresenhamPoints_returns (fst pa) (snd pa) (fst pb) (snd pb)) as [ec ->].
  eexists. split; [reflexivity|]. split; reflexivity.
Qed.

Lemma extractVertex_valid (vertices : list Z) (idx : Z) :
  0 <= idx /\ 2 * idx + 1 < Z.of_nat (length vertices) ->
  exists p, extractVertex vertices idx = Some p.
Proof.
  intros [Hlo Hhi]. unfold extractVertex.
  destruct (ta_get_in_range vertices (idx * 2)) as [vx ->]; [lia|].
  destruct (ta_get_in_range vertices (idx * 2 + 1)) as [vy ->]; [lia|].
  eauto.
Qed.

Lemma draw_triangles_returns (vertices : list Z) (color : Z) :
  forall (n : nat) (triangles : list Z) (fuel : nat) (c : t),
    length triangles = (3 * n)%nat -> (n <= fuel)%nat ->
    Forall (fun i => 0 <= i /\ 2 * i + 1 < Z.of_nat (length vertices)) triangles ->
    exists c', draw_triangles fuel vertices triangles color c = Returns c'.
Proof.
  induction n as [|n IH]; intros triangles fuel c Hlen Hfuel Hidx.
  - destruct triangles; [|discriminate]. destruct fuel; simpl; eauto.
  - destruct triangles as [|i0 [|i1 [|i2 rest]]]; try (simpl in Hlen; lia).
    destruct fuel as [|fuel]; [lia|]. cbn [draw_triangles nth skipn].
    apply Forall_cons in Hidx as [H0 Hidx]. apply Forall_cons in Hidx as [H1 Hidx].
    apply Forall_cons in Hidx as [H2 Hidx].
    destruct (extractVertex_valid vertices i0 H0) as [pa ->].
    destruct (extractVertex_valid vertices i1 H1) as [pb ->].
    destruct (extractVertex_valid vertices i2 H2) as [pc ->].
    destruct (filledTriangle_returns pa pb pc color c) as (c1 & -> & _). cbn [obind].
    apply (IH rest fuel c1); [simpl in Hlen; lia | lia | exact Hidx].
Qed.

Context `{Triangulator}.

(** [polygon] always comes back with an answer: it neither throws nor
    loops, whatever the rings and whatever earcut does within its
    contract. *)
Theorem polygon_returns (rings : list (list Point)) (color : Z) (c : t) :
  exists ok c', polygon rings color c = Returns (ok, c').
Proof.
  unfold polygon. destruct (collect_rings rings [] []) as [[vertices holes]|]; [|eauto].
  destruct (earcut vertices _) as [triangles|] eqn:Hcut; [|eauto].
  destruct (earcut_indices _ _ _ Hcut) as [Hmod Hidx].
  assert (Hlen : length triangles = (3 * (length triangles / 3))%nat).
  { pose proof (Nat.div_mod_eq (length triangles) 3). lia. }
  destruct (draw_triangles_returns vertices color (length triangles / 3) triangles
              (length triangles) c Hlen) as [c' ->]; [|exact Hidx|cbn [obind]; eauto].
  pose proof (Nat.div_mod_eq (length triangles) 3). lia.
Qed.

End Rasteriser.

(** ** The label index *)

Section LabelProperties.
Import LabelBuffer.

(** After [clear()] any label can be placed: the index is empty, so the
    first placement of a frame is accepted and recorded. *)
Theorem label_after_clear (lb : t) (s : jsstr) (x y : Z) (margin : option Z) :
  exists entry,
    writeIfPossible s x y margin (clear lb) = (true, mk [entry] (defaultMargin lb))
    /\ text entry = s.
Proof. unfold writeIfPossible, hasSpace, clear. simpl. eexists. split; reflexivity. Qed.

(** A label is refused exactly when its padded box meets one already
    placed, and a refusal leaves the index as it was. *)
Theorem label_refused_keeps_index (lb : t) (s : jsstr) (x y : Z) (margin : option Z) :
  fst (writeIfPossible s x y margin lb) = false ->
  snd (writeIfPossible s x y margin lb) = lb.
Proof. unfold writeIfPossible. destruct (hasSpace _ _ _ _ _); [discriminate|reflexivity]. Qed.

Lemma label_refused_keeps_index_witness :
  let lb := snd (writeIfPossible [65; 66] 10 8 None (new None)) in
  snd (writeIfPossible [67] 12 8 None lb) = lb.
Proof.
  apply (label_refused_keeps_index
           (snd (writeIfPossible [65; 66] 10 8 None (new None))) [67] 12 8 None).
  reflexivity.
Defined.

End LabelProperties.

(** ** The tile source: cache invariants *)

Section TileCacheProperties.
Import TileParser TileSource.

Lemma tileKey_nonempty (z x y : Z) : tileKey z x y <> EmptyString.
Proof. unfold tileKey. destruct (num z); simpl; discriminate. Qed.

Lemma evict_unfold (size : Z) (order : list string) (c : gmap string ParsedTile) :
  evict size order c =
  if Z.of_nat (length order) >? size then
    match order with
    | [] => None
    | k :: rest => evict size rest (if String.eqb k "" then c else delete k c)
    end
  else Some (order, c).
Proof. destruct order; reflexivity. Qed.

Lemma evict_spec (size : Z) (order : list string) :
  0 <= size -> EmptyString ∉ order ->
  forall c, exists evicted order',
    evict size order c = Some (order', delete_all evicted c)
    /\ order = evicted ++ order'
    /\ length order' = Nat.min (length order) (Z.to_nat size).
Proof.
  intros Hsize. induction order as [|k rest IH]; intros Hne c; rewrite evict_unfold.
  - destruct (Z.gtb_spec (Z.of_nat (length (@nil string))) size) as [Hgt|_];
      [simpl in Hgt; lia|].
    exists [], []. repeat split.
  - destruct (Z.gtb_spec (Z.of_nat (length (k :: rest))) size) as [Hgt|Hle].
    + apply not_elem_of_cons in Hne as [Hk Hrest].
      destruct (String.eqb_spec k "") as [->|_]; [done|].
      destruct (IH Hrest (delete k c)) as (ev & order' & -> & -> & Hlen).
      exists (k :: ev), order'. repeat split.
      rewrite Hlen. cbn [length] in *. rewrite length_app. lia.
    + exists [], (k :: rest). repeat split. cbn [length] in *. lia.
Qed.

Lemma lookup_delete_all (evicted : list string) (c : gmap string ParsedTile) (k : string) :
  delete_all evicted c !! k = if decide (k ∈ evicted) then None else c !! k.
Proof.
  revert c. induction evicted as [|e ev IH]; intros c; simpl.
  - destruct (decide (k ∈ [])) as [Hin|_]; [by apply elem_of_nil in Hin|done].
  - unfold delete_all in *. simpl. rewrite IH.
    destruct (decide (k ∈ ev)) as [Hin|Hnin].
    + rewrite decide_True; [done|]. by right.
    + destruct (decide (k = e)) as [->|Hne].
      * rewrite decide_True by left. apply lookup_delete_eq.
      * rewrite decide_False; [by apply lookup_delete_ne|].
        intros Hin. apply elem_of_cons in Hin as [?|?]; done.
Qed.

(** [_cacheSet] on a tile source that satisfies the invariant: the oldest
    keys leave the queue, and the cache loses exactly those. *)
Lemma cacheSet_spec (key : string) (tile : ParsedTile) (ts : t) :
  cache_inv ts -> key <> EmptyString ->
  exists ts' evicted,
    cacheSet key tile ts = Returns ts'
    /\ cacheOrder ts ++ [key] = evicted ++ cacheOrder ts'
    /\ cache ts' = delete_all evicted (<[key := tile]> (cache ts))
    /\ length (cacheOrder ts') = Nat.min (S (length (cacheOrder ts))) (Z.to_nat (cacheSize ts))
    /\ cacheSize ts' = cacheSize ts
    /\ cache_inv ts'.
Proof.
  intros (Hsize & Hne & Hdom & Hlen) Hkey. unfold cacheSet.
  assert (Hne' : EmptyString ∉ cacheOrder ts ++ [key]).
  { rewrite elem_of_app, list_elem_of_singleton. intros [?|?]; [done|]. by apply Hkey. }
  destruct (evict_spec (cacheSize ts) (cacheOrder ts ++ [key]) Hsize Hne'
              (<[key := tile]> (cache ts)))
    as (ev & order' & -> & Hsplit & Hlen').
  exists (with_cache ts (delete_all ev (<[key := tile]> (cache ts))) order'), ev.
  repeat split; simpl; try done.
  - rewrite Hlen', length_app. cbn [length]. destruct (Z.to_nat (cacheSize ts)); lia.
  - intros Hin. apply Hne'. rewrite Hsplit, elem_of_app. by right.
  - intros k [v Hk]. rewrite lookup_delete_all in Hk.
    destruct (decide (k ∈ ev)) as [|Hnin]; [done|].
    assert (Hin : k ∈ cacheOrder ts ++ [key]).
    { rewrite elem_of_app, list_elem_of_singleton.
      destruct (decide (k = key)) as [->|Hnk]; [by right|left].
      apply Hdom. rewrite lookup_insert_ne in Hk by done. eauto. }
    rewrite Hsplit, elem_of_app in Hin. by destruct Hin.
  - rewrite Hlen'. lia.
Qed.

(** With a negative capacity the eviction loop empties the queue and then
    spins on it: [_cacheSet] never returns. *)
Theorem cacheSet_negative_capacity (key : string) (tile : ParsedTile) (ts : t) :
  cacheSize ts < 0 -> cacheSet key tile ts = Hangs.
Proof.
  intros Hneg. unfold cacheSet.
  assert (Hev : forall order c, evict (cacheSize ts) order c = None).
  { induction order as [|k rest IH]; intros c; rewrite evict_unfold.
    - destruct (Z.gtb_spec (Z.of_nat (length (@nil string))) (cacheSize ts)) as [_|Hle];
        [reflexivity | simpl in Hle; lia].
    - destruct (Z.gtb_spec (Z.of_nat (length (k :: rest))) (cacheSize ts)) as [_|Hle];
        [apply IH | lia]. }
  by rewrite Hev.
Qed.

Lemma cacheSet_negative_capacity_witness :
  cacheSet "0-0-0" (mkTile ∅) (mk http "http://tiles/" None ∅ [] (-1) "en" ∅) = Hangs.
Proof. apply cacheSet_negative_capacity. simpl. lia. Defined.

(** A map whose keys all lie in a list is no larger than the list. *)
Lemma size_le_keys (m : gmap string ParsedTile) (l : list string) :
  (forall k, is_Some (m !! k) -> k ∈ l) -> (size m <= length l)%nat.
Proof.
  revert m. induction l as [|x l IH]; intros m Hm.
  - assert (m = ∅) as ->.
    { apply map_empty. intros k. destruct (m !! k) eqn:E; [|done].
      exfalso. eapply not_elem_of_nil. apply Hm. eauto. }
    rewrite map_size_empty. simpl. lia.
  - assert (Hd : (size (delete x m) <= length l)%nat).
    { apply IH. intros k [v Hk].
      destruct (decide (k = x)) as [->|Hne].
      - by rewrite lookup_delete_eq in Hk.
      - rewrite lookup_delete_ne in Hk by done.
        assert (Hin : k ∈ x :: l) by (apply Hm; eauto).
        apply elem_of_cons in Hin as [?|?]; done. }
    pose proof (map_size_delete x m) as Hs. cbn [length].
    destruct (m !! x); unfold Datatypes.id in Hs; lia.
Qed.

Lemma cache_inv_bound (ts : t) :
  cache_inv ts -> Z.of_nat (size (cache ts)) <= cacheSize ts.
Proof.
  intros (_ & _ & Hdom & Hlen). pose proof (size_le_keys _ _ Hdom). lia.
Qed.

Context `{TileCodec}.

Lemma getTile_inv (net : Network) (z x y : Z) (ts : t) :
  cache_inv ts ->
  cache_inv (snd (getTile net z x y ts))
  /\ cacheSize (snd (getTile net z x y ts)) = cacheSize ts.
Proof.
  intros Hinv. unfold getTile.
  destruct (cache ts !! tileKey z x y); [done|].
  destruct (fetchBuffer net z x y ts) as [buffer| |]; [|done|done].
  destruct (parseTile buffer (byLayer ts) (language ts)) as [parsed| |]; [|done|done].
  destruct (cacheSet_spec (tileKey z x y) parsed ts Hinv (tileKey_nonempty z x y))
    as (ts' & ev & -> & _ & _ & _ & Hsz & Hinv'). done.
Qed.

Lemma step_inv (ev : event) (ts : t) :
  cache_inv ts -> cache_inv (step ts ev) /\ cacheSize (step ts ev) = cacheSize ts.
Proof.
  intros Hinv. destruct ev as [net z x y|z x y parsed]; cbn [step].
  - by apply getTile_inv.
  - destruct (cacheSet_spec (tileKey z x y) parsed ts Hinv (tileKey_nonempty z x y))
      as (ts' & ev & -> & _ & _ & _ & Hsz & Hinv'). done.
Qed.

Lemma run_inv (evs : list event) (ts : t) :
  cache_inv ts -> cache_inv (run evs ts) /\ cacheSize (run evs ts) = cacheSize ts.
Proof.
  revert ts. induction evs as [|ev evs IH]; intros ts Hinv; [done|].
  destruct (step_inv ev ts Hinv) as [Hinv' Hsz].
  destruct (IH _ Hinv') as [Hinv'' Hsz'].
  unfold run in *. cbn [fold_left]. split; [done|]. congruence.
Qed.

Lemma new_inv openDb styles src size lang (ts : t) :
  new openDb styles src size lang = Returns ts ->
  0 <= default 32 size ->
  cache_inv ts /\ cacheSize ts = default 32 size.
Proof.
  unfold new. intros Hnew Hsize.
  assert (Hok : forall m d, cache_inv (mk m src d ∅ [] (default 32 size) (default "en"%string lang) styles)).
  { intros m d. repeat split; simpl; try done.
    - apply not_elem_of_nil.
    - intros k [v Hk]. by rewrite lookup_empty in Hk. }
  destruct (startsWith src "http").
  - injection Hnew as <-. split; [apply Hok|done].
  - destruct (endsWith src ".mbtiles"); [|done].
    destruct (openDb src); [|done].
    injection Hnew as <-. split; [apply Hok|done].
Qed.

End TileCacheProperties.

(** ** Claims on the tile source *)

Section TileSourceClaims.
Import TileParser TileSource.
Context `{TileCodec}.

(** C6.  After the constructor and any history of [getTile] calls,
    overlapping or not, the cache holds no more tiles than the capacity
    (32 unless given); a
    [_cacheSet] at that point drops keys from the front of the queue, the
    oldest first, until the queue is within the capacity, and deletes
    exactly those from the cache; and a [getTile] whose key is cached
    returns the stored tile and leaves the tile source as it was, whatever
    the decoder would do (so no decoding takes place). *)
Theorem tile_cache_bounded openDb styles src capacity lang (ts0 : t)
    (evs : list event) :
  new openDb styles src capacity lang = Returns ts0 ->
  0 <= default 32 capacity ->
  let ts := run evs ts0 in
  cacheSize ts = default 32 capacity
  /\ Z.of_nat (size (cache ts)) <= cacheSize ts
  /\ (forall key tile, key <> EmptyString ->
        exists ts' evicted,
          cacheSet key tile ts = Returns ts'
          /\ cacheOrder ts ++ [key] = evicted ++ cacheOrder ts'
          /\ cache ts' = delete_all evicted (<[key := tile]> (cache ts))
          /\ length (cacheOrder ts')
             = Nat.min (S (length (cacheOrder ts))) (Z.to_nat (cacheSize ts)))
  /\ (forall (other : TileCodec) net z x y tile,
        cache ts !! tileKey z x y = Some tile ->
        @getTile other net z x y ts = (Returns tile, ts)).
Proof.
  intros Hnew Hcap ts.
  destruct (new_inv _ _ _ _ _ _ Hnew Hcap) as [Hinv0 Hsz0].
  destruct (run_inv evs ts0 Hinv0) as [Hinv Hsz]. fold ts in Hinv, Hsz.
  split; [congruence|]. split; [by apply cache_inv_bound|]. split.
  - intros key tile Hkey.
    destruct (cacheSet_spec key tile ts Hinv Hkey)
      as (ts' & ev & Hset & Hq & Hc & Hlen & _ & _).
    by exists ts', ev.
  - intros other net z x y tile Hhit. unfold getTile. by rewrite Hhit.
Qed.

Lemma parseTile_gunzip_error (buffer : list Z) byLayer language :
  isGzipped buffer = true -> gunzipSync buffer = None ->
  parseTile buffer byLayer language = Throws "gunzip".
Proof. intros Hz Hg. unfold parseTile. by rewrite Hz, Hg. Qed.

Lemma parseTile_pbf_error (buffer : list Z) byLayer language :
  isGzipped buffer = false -> decodeVectorTile buffer = None ->
  parseTile buffer byLayer language = Throws "pbf".
Proof. intros Hz Hd. unfold parseTile. by rewrite Hz, Hd. Qed.

(** C1, amended.  For a key that is not cached and a buffer the lookup
    returns: when [parseTile] decodes the buffer, [getTile] returns that
    tile; when decoding throws (a gzip stream zlib rejects, bytes the
    protobuf reader rejects), [getTile] has no handler, so the same error
    leaves it and nothing is cached.  The error is absorbed one level up:
    the per-tile handler of [MapRenderer.draw] keeps the tile without
    data and goes on. *)
Theorem getTile_decode_outcome openDb styles src capacity lang (ts0 : t)
    (evs : list event) (net : Network) (z x y : Z) (buffer : list Z) :
  new openDb styles src capacity lang = Returns ts0 ->
  0 <= default 32 capacity ->
  let ts := run evs ts0 in
  cache ts !! tileKey z x y = None ->
  fetchBuffer net z x y ts = Returns buffer ->
  (forall parsed,
      parseTile buffer (byLayer ts) (language ts) = Returns parsed ->
      exists ts', getTile net z x y ts = (Returns parsed, ts'))
  /\ (forall e,
        parseTile buffer (byLayer ts) (language ts) = Throws e ->
        getTile net z x y ts = (Throws e, ts)
        /\ forall done tile,
             Renderer.xyz tile = (z, x, y) ->
             Renderer.loadTile net (Some (done, ts)) tile = Some (done ++ [tile], ts)).
Proof.
  intros Hnew Hcap ts Hmiss Hfetch.
  destruct (new_inv _ _ _ _ _ _ Hnew Hcap) as [Hinv0 _].
  destruct (run_inv evs ts0 Hinv0) as [Hinv _]. fold ts in Hinv.
  split.
  - intros parsed Hparse. unfold getTile. rewrite Hmiss, Hfetch, Hparse.
    destruct (cacheSet_spec (tileKey z x y) parsed ts Hinv (tileKey_nonempty z x y))
      as (ts' & ev & -> & _). by exists ts'.
  - intros e Hparse.
    assert (Hget : getTile net z x y ts = (Throws e, ts))
      by (unfold getTile; by rewrite Hmiss, Hfetch, Hparse).
    split; [exact Hget|].
    intros done tile Hxyz. unfold Renderer.loadTile. by rewrite Hxyz, Hget.
Qed.

End TileSourceClaims.

Lemma tile_cache_bounded_witness :
  exists ts0,
    TileSource.new (fun _ => None) ∅ "http://tiles/" None None = Returns ts0
    /\ let ts := @TileSource.run TileSource.strict_codec
                   [TileSource.Call (fun _ => Some []) 0 0 0;
                    TileSource.Store 1 0 0 (TileParser.mkTile ∅)] ts0 in
       Z.of_nat (size (TileSource.cache ts)) <= 32.
Proof.
  eexists. split; [reflexivity|].
  pose proof (@tile_cache_bounded TileSource.strict_codec (fun _ => None) ∅
                "http://tiles/" None None _
                [TileSource.Call (fun _ => Some []) 0 0 0;
                 TileSource.Store 1 0 0 (TileParser.mkTile ∅)]
                eq_refl ltac:(simpl; lia)) as Hb.
  cbv zeta in *. destruct Hb as (Hsz & Hb & _).
  rewrite Hsz in Hb. exact Hb.
Defined.

Lemma getTile_decode_outcome_witness :
  exists ts0,
    TileSource.new (fun _ => None) ∅ "http://tiles/" None None = Returns ts0
    /\ @TileSource.getTile TileSource.strict_codec (fun _ => Some [0x0a]) 1 0 0 ts0
       = (Throws "pbf", ts0).
Proof.
  eexists. split; [reflexivity|].
  pose proof (@getTile_decode_outcome TileSource.strict_codec (fun _ => None) ∅
                "http://tiles/" None None _ [] (fun _ => Some [0x0a]) 1 0 0 [0x0a]
                eq_refl ltac:(simpl; lia) eq_refl eq_refl) as Hd.
  destruct Hd as [_ Hd]. destruct (Hd "pbf"%string eq_refl) as [Hget _]. exact Hget.
Defined.

(** C1 as stated fails: a two-byte buffer that carries the gzip magic is
    handed to zlib, which throws, and [getTile] passes the error on. *)
Lemma getTile_rejects_corrupt_gzip :
  exists ts,
    TileSource.new (fun _ => None) ∅ "http://tiles/" None None = Returns ts
    /\ @TileSource.getTile TileSource.strict_codec
         (fun _ => Some [0x1f; 0x8b]) 0 0 0 ts
       = (Throws "gunzip", ts).
Proof. eexists. split; reflexivity. Qed.

(** ** Colours: the xterm palette *)

Section ColourProperties.
Import Utils.

Lemma forallb_below (P : Z -> bool) (n : nat) :
  forallb P (map Z.of_nat (seq 0 n)) = true ->
  forall c, 0 <= c < Z.of_nat n -> P c = true.
Proof.
  intros Hall c Hc. rewrite forallb_forall in Hall. apply Hall.
  apply in_map_iff. exists (Z.to_nat c). split; [lia|]. apply in_seq. lia.
Qed.

Lemma cube_index_range (c : Z) : 0 <= c <= 255 -> 0 <= round_ratio c 255 5 <= 5.
Proof.
  intros Hc. unfold round_ratio. split.
  - apply Z.div_pos; lia.
  - apply Z.lt_succ_r. apply Z.div_lt_upper_bound; lia.
Qed.

Lemma cube_channel_error (c : Z) :
  0 <= c <= 255 -> Z.abs (c - cubeLevel (round_ratio c 255 5)) <= 69.
Proof.
  intros Hc.
  pose proof (forallb_below
    (fun c => Z.abs (c - cubeLevel (round_ratio c 255 5)) <=? 69) 256 eq_refl c) as H.
  apply Z.leb_le, H. lia.
Qed.

Lemma cube_decodes (ri gi bi : Z) :
  0 <= ri <= 5 -> 0 <= gi <= 5 -> 0 <= bi <= 5 ->
  hex2rgb (xterm2hex (16 + 36 * ri + 6 * gi + bi))
  = (Some (cubeLevel ri), Some (cubeLevel gi), Some (cubeLevel bi)).
Proof.
  intros Hr Hg Hb.
  pose proof (forallb_below
    (fun ri => forallb (fun gi => forallb (fun bi =>
       bool_decide (hex2rgb (xterm2hex (16 + 36 * ri + 6 * gi + bi))
                    = (Some (cubeLevel ri), Some (cubeLevel gi), Some (cubeLevel bi))))
       (map Z.of_nat (seq 0 6))) (map Z.of_nat (seq 0 6))) 6 eq_refl ri ltac:(lia)) as H1.
  pose proof (forallb_below _ 6 H1 gi ltac:(lia)) as H2.
  pose proof (forallb_below _ 6 H2 bi ltac:(lia)) as H3.
  by apply bool_decide_eq_true in H3.
Qed.

Lemma grey_decodes (v : Z) :
  0 <= v <= 255 ->
  exists v', hex2rgb (xterm2hex (rgb2xterm v v v)) = (Some v', Some v', Some v')
             /\ Z.abs (v - v') <= 20.
Proof.
  intros Hv.
  pose proof (forallb_below
    (fun v => match hex2rgb (xterm2hex (rgb2xterm v v v)) with
              | (Some a, Some b, Some c) =>
                  (a =? b) && (b =? c) && (Z.abs (v - a) <=? 20)
              | _ => false
              end) 256 eq_refl v ltac:(lia)) as H.
  cbv beta in H.
  destruct (hex2rgb (xterm2hex (rgb2xterm v v v))) as [[[a|] [b|]] [c|]]; try discriminate.
  apply andb_prop in H as [H Hle]. apply andb_prop in H as [Hab Hbc].
  apply Z.eqb_eq in Hab, Hbc. apply Z.leb_le in Hle. subst b c.
  exists a. split; [reflexivity | exact Hle].
Qed.

(** C9, the failing input.  The grey #f8f8f8 goes to ramp index 254 and
    comes back as #e4e4e4: each channel is off by 20, two steps of the
    ramp, while the ramp's last entry, index 255 (#eeeeee), is one step
    away.  The non-grey #4d0000 goes to the cube level 135 although 95 is
    nearer. *)
Theorem grey_f8_two_ramp_steps :
  hex2rgb "#f8f8f8" = (Some 248, Some 248, Some 248)
  /\ hex2xterm "#f8f8f8" = Some 254
  /\ xterm2hex 254 = "#e4e4e4"%string
  /\ hex2rgb "#e4e4e4" = (Some 228, Some 228, Some 228)
  /\ xterm2hex 255 = "#eeeeee"%string
  /\ hex2xterm "#4d0000" = Some 88
  /\ xterm2hex 88 = "#870000"%string
  /\ xterm2hex 52 = "#5f0000"%string.
Proof. repeat split; reflexivity. Qed.

(** What does hold of [hex -> xterm -> hex] on channels: the colour that
    comes back is within 69 of the input in every channel, and within 20
    for a grey. *)
Theorem xterm_roundtrip_error (r g b : Z) :
  0 <= r <= 255 -> 0 <= g <= 255 -> 0 <= b <= 255 ->
  exists r' g' b',
    hex2rgb (xterm2hex (rgb2xterm r g b)) = (Some r', Some g', Some b')
    /\ Z.abs (r - r') <= 69 /\ Z.abs (g - g') <= 69 /\ Z.abs (b - b') <= 69
    /\ (r = g -> g = b -> Z.abs (r - r') <= 20).
Proof.
  intros Hr Hg Hb.
  destruct (decide (r = g /\ g = b)) as [[-> ->]|Hne].
  - destruct (grey_decodes b Hb) as (v' & Hv & Hle).
    exists v', v', v'. rewrite Hv. repeat split; try lia.
  - assert (Hcube : rgb2xterm r g b
                    = 16 + 36 * round_ratio r 255 5 + 6 * round_ratio g 255 5
                      + round_ratio b 255 5).
    { unfold rgb2xterm. destruct (Z.eqb_spec r g); destruct (Z.eqb_spec g b);
        simpl; try reflexivity. exfalso. by apply Hne. }
    rewrite Hcube, cube_decodes by (by apply cube_index_range).
    do 3 eexists. split; [reflexivity|].
    repeat split; try (by apply cube_channel_error).
    intros -> ->. exfalso. by apply Hne.
Qed.

Lemma xterm_roundtrip_error_witness :
  exists r' g' b',
    hex2rgb (xterm2hex (rgb2xterm 26 200 77)) = (Some r', Some g', Some b')
    /\ Z.abs (26 - r') <= 69 /\ Z.abs (200 - g') <= 69 /\ Z.abs (77 - b') <= 69
    /\ (26 = 200 -> 200 = 77 -> Z.abs (26 - r') <= 20).
Proof. apply (xterm_roundtrip_error 26 200 77); lia. Defined.

End ColourProperties.

(** ** Web Mercator *)

Section MercatorProperties.
Import Utils.
Local Open Scope R_scope.

Lemma pow2_pos (e : R) : 0 < pow2 e.
Proof. unfold pow2, Rpower. apply exp_pos. Qed.

Lemma Math_PI_pos : 0 < Math_PI.
Proof. unfold Math_PI. lra. Qed.

(** The latitude in radians stays inside the branch of the tangent. *)
Lemma mercator_angle (lat : R) :
  -85.0511 <= lat <= 85.0511 ->
  - (PI / 2) < lat * Math_PI / 180 < PI / 2.
Proof. intros Hlat. pose proof PI2_3_2. unfold Math_PI. lra. Qed.

End MercatorProperties.

(** ** The viewport *)

Section ViewportProperties.
Import Utils Renderer.
Local Open Scope R_scope.

Lemma Rltb_true (a b : R) : a < b -> Rltb a b = true.
Proof. intros. unfold Rltb. destruct (Rlt_dec a b); [reflexivity|lra]. Qed.

Lemma Rltb_false (a b : R) : b <= a -> Rltb a b = false.
Proof. intros. unfold Rltb. destruct (Rlt_dec a b); [lra|reflexivity]. Qed.

Lemma clamp_range (v lo hi : R) : lo <= hi -> lo <= clamp v lo hi <= hi.
Proof.
  intros. unfold clamp. destruct (Rle_dec v lo); [lra|].
  destruct (Rge_dec v hi); lra.
Qed.

Lemma normalize_lat (ll : LatLon) : lat_ok (normalize ll).
Proof. unfold lat_ok, normalize. simpl. apply clamp_range. lra. Qed.

(** [normalize] wraps once: it lands in range from at most one turn away. *)
Lemma normalize_lon (ll : LatLon) :
  -540 <= lon ll <= 540 -> lon_ok (normalize ll).
Proof.
  intros Hl. unfold lon_ok, normalize. simpl.
  destruct (Rlt_dec (lon ll) (-180)); destruct (Rgt_dec _ 180); lra.
Qed.

Lemma normalize_lon_value (ll : LatLon) :
  lon (normalize ll) =
    (if Rlt_dec (lon ll) (-180) then
       (if Rgt_dec (lon ll + 360) 180 then lon ll + 360 - 360 else lon ll + 360)
     else if Rgt_dec (lon ll) 180 then lon ll - 360 else lon ll).
Proof. unfold normalize. simpl. destruct (Rlt_dec (lon ll) (-180)); reflexivity. Qed.

Lemma zoomForSpan_range (span : R) : 5 <= zoomForSpan span <= 17.
Proof.
  unfold zoomForSpan.
  repeat (match goal with |- context [Rlt_dec ?a ?b] => destruct (Rlt_dec a b) end);
    lra.
Qed.

(** The bounds [fitBounds] collects are coordinates of its points. *)
Lemma fit_step_from (ps : list LatLon) (P : R -> Prop) (a b c d : R) :
  Forall (fun p => P (lon p)) ps -> P c -> P d ->
  exists a' b' c' d',
    fold_left fit_step ps (Some a, Some b, Some c, Some d)
      = (Some a', Some b', Some c', Some d') /\ P c' /\ P d'.
Proof.
  intros Hps. revert a b c d.
  induction Hps as [|p ps Hp _ IH]; intros a b c d Hc Hd; cbn [fold_left].
  - by exists a, b, c, d.
  - unfold fit_step at 2. unfold below, above.
    destruct (Rltb (lat p) a); destruct (Rltb b (lat p));
      destruct (Rltb (lon p) c); destruct (Rltb d (lon p)); apply IH; assumption.
Qed.

Lemma fit_step_first (p : LatLon) :
  fit_step (None, None, None, None) p
  = (Some (lat p), Some (lat p), Some (lon p), Some (lon p)).
Proof. reflexivity. Qed.

Lemma fitBounds_state (ps : list LatLon) (pad : option R) (r : t) :
  ps <> [] ->
  exists a b c d,
    fold_left fit_step ps (None, None, None, None) = (Some a, Some b, Some c, Some d)
    /\ state (fitBounds ps pad r)
       = mkState (normalize (mkLatLon ((a + b) / 2) ((c + d) / 2)))
                 (zoomForSpan (Rmax ((b - a) * (1 + default 0.2 pad))
                                    ((d - c) * (1 + default 0.2 pad)))).
Proof.
  destruct ps as [|p ps]; [done|]. intros _.
  unfold fitBounds. cbn [fold_left]. rewrite fit_step_first.
  destruct (fit_step_from ps (fun _ => True) (lat p) (lat p) (lon p) (lon p))
    as (a & b & c & d & Hf & _); [by apply Forall_forall|done|done|].
  exists a, b, c, d. rewrite Hf. split; reflexivity.
Qed.

Lemma fitBounds_lon (ps : list LatLon) (pad : option R) (r : t) :
  ps <> [] -> Forall lon_ok ps -> lon_ok (center (state (fitBounds ps pad r))).
Proof.
  destruct ps as [|p ps]; [done|]. intros _ Hps.
  apply Forall_cons in Hps as [Hp Hps].
  unfold fitBounds. cbn [fold_left]. rewrite fit_step_first.
  destruct (fit_step_from ps (fun v => -180 <= v <= 180) (lat p) (lat p) (lon p) (lon p))
    as (a & b & c & d & Hf & Hc & Hd); [exact Hps|exact Hp|exact Hp|].
  rewrite Hf. cbn [state center]. apply normalize_lon. simpl. lra.
Qed.

Lemma floor_le (v : R) : floor v <= v.
Proof. unfold floor. pose proof (Zfloor_bound v). lra. Qed.

Lemma baseZoom_range (zoom : R) : 0 <= baseZoom zoom <= 14.
Proof.
  unfold baseZoom, baseZoom_max, Rmin, Rmax.
  destruct (Rle_dec 0 (floor zoom)); destruct (Rle_dec 14 _); lra.
Qed.

Lemma baseZoom_le (zoom : R) : 0 <= zoom -> baseZoom zoom <= zoom.
Proof.
  intros Hz. pose proof (floor_le zoom).
  unfold baseZoom, baseZoom_max, Rmin, Rmax.
  destruct (Rle_dec 0 (floor zoom)); destruct (Rle_dec 14 _); lra.
Qed.

Lemma pow2_ge_1 (e : R) : 0 <= e -> 1 <= pow2 e.
Proof.
  intros He. unfold pow2.
  rewrite <- (Rpower_O 2) by lra. apply Rle_Rpower; lra.
Qed.

(** The longitude [pan] hands to [normalize]. *)
Lemma pan_lon_raw (dx dy : R) (r : t) :
  let s := state r in
  let z := baseZoom (zoom s) in
  let c := ll2tile (lon (center s)) (lat (center s)) z in
  lon (tile2ll (x c + dx / tileSizeAtZoom (zoom s)) (y c + dy / tileSizeAtZoom (zoom s)) z)
  = lon (center s) + dx / (tileSizeAtZoom (zoom s) * pow2 z) * 360.
Proof.
  intros s z c. unfold tile2ll, ll2tile in *. subst c. simpl.
  pose proof (pow2_pos z). unfold tileSizeAtZoom, TILE_SIZE.
  pose proof (pow2_pos (zoom s - baseZoom (zoom s))).
  field. lra.
Qed.

Lemma pan_lon (dx dy : R) (r : t) :
  zoom_ok (state r) -> lon_ok (center (state r)) -> -256 <= dx <= 256 ->
  lon_ok (center (state (pan dx dy r))).
Proof.
  intros [Hz1 Hz2] Hlon Hdx. unfold MIN_ZOOM in Hz1.
  unfold pan. cbn [state center with_state]. apply normalize_lon.
  rewrite pan_lon_raw.
  pose proof (baseZoom_range (zoom (state r))) as [Hb _].
  pose proof (baseZoom_le (zoom (state r)) Hz1) as Hble.
  pose proof (pow2_ge_1 (baseZoom (zoom (state r))) Hb) as Hn.
  pose proof (pow2_ge_1 (zoom (state r) - baseZoom (zoom (state r))) ltac:(lra)) as Hm.
  unfold tileSizeAtZoom, TILE_SIZE.
  set (m := pow2 (zoom (state r) - baseZoom (zoom (state r)))) in *.
  set (n := pow2 (baseZoom (zoom (state r)))) in *.
  assert (Hd : 256 <= 256 * m * n) by nra.
  assert (Hmul : dx / (256 * m * n) * (256 * m * n) = dx) by (field; lra).
  assert (Hq : -1 <= dx / (256 * m * n) <= 1).
  { set (q := dx / (256 * m * n)) in *. set (D := 256 * m * n) in *. split; nra. }
  unfold lon_ok in Hlon. lra.
Qed.

Lemma mutate_view_ok (m : mutator) (r : t) : view_ok r -> view_ok (mutate r m).
Proof.
  intros [[Hz1 Hz2] Hlat]. unfold MIN_ZOOM, MAX_ZOOM in *.
  assert (Hpan : forall dx dy, view_ok (pan dx dy r)).
  { intros dx dy. split; [by split|]. apply normalize_lat. }
  destruct m; cbn [mutate]; try apply Hpan.
  - split; [|done]. unfold zoomIn, zoom_ok, MIN_ZOOM, MAX_ZOOM, ZOOM_STEP. simpl.
    unfold Rmin. destruct (Rle_dec 18 _); lra.
  - split; [|done]. unfold zoomOut, zoom_ok, MIN_ZOOM, MAX_ZOOM, ZOOM_STEP. simpl.
    unfold Rmax. destruct (Rle_dec 0 _); lra.
  - split; [by split|]. apply normalize_lat.
  - by split.
  - destruct points as [|p ps]; [by split|].
    destruct (fitBounds_state (p :: ps) padding r) as (a & b & c & d & _ & Hst); [done|].
    unfold view_ok. rewrite Hst. split.
    + unfold zoom_ok, MIN_ZOOM, MAX_ZOOM. simpl.
      pose proof (zoomForSpan_range
        (Rmax ((b - a) * (1 + default 0.2 padding)) ((d - c) * (1 + default 0.2 padding)))).
      lra.
    + apply normalize_lat.
Qed.

Lemma mutate_lon_ok (m : mutator) (r : t) :
  tame m -> view_ok r -> lon_ok (center (state r)) ->
  lon_ok (center (state (mutate r m))).
Proof.
  intros Ht [Hz Hlat] Hlon.
  assert (Hstep : forall dx dy, -256 <= dx <= 256 -> lon_ok (center (state (pan dx dy r))))
    by (intros; by apply pan_lon).
  destruct m; cbn [mutate tame] in *; try done.
  - by apply Hstep.
  - apply Hstep. unfold PAN_PIXELS. lra.
  - apply Hstep. unfold PAN_PIXELS. lra.
  - apply Hstep. lra.
  - apply Hstep. lra.
  - unfold centerOn. cbn [state center with_state]. apply normalize_lon.
    unfold lon_ok in Ht. lra.
  - destruct points as [|p ps]; [done|]. by apply fitBounds_lon.
Qed.

End ViewportProperties.

(** ** Claims on the coordinate maths and the viewport *)

Section ViewportClaims.
Import Utils Renderer.
Local Open Scope R_scope.

Ltac rltb :=
  repeat match goal with
         | |- context [Rltb ?a ?b] =>
             first [ rewrite (Rltb_true a b) by lra
                   | rewrite (Rltb_false a b) by lra ]
         end.

(** C4, the failing input.  [centerOn] with longitude 1000 leaves the
    centre at longitude 640: [normalize] takes off one turn only. *)
Theorem centerOn_lon_1000 (r : t) :
  lon (center (state (centerOn (mkLatLon 0 1000) r))) = 640
  /\ ~ lon_ok (center (state (centerOn (mkLatLon 0 1000) r))).
Proof.
  assert (H : lon (center (state (centerOn (mkLatLon 0 1000) r))) = 640).
  { unfold centerOn. cbn [state center with_state]. rewrite normalize_lon_value.
    cbn [lon]. destruct (Rlt_dec _ _); [lra|]. destruct (Rgt_dec _ _); lra. }
  split; [exact H|]. unfold lon_ok. rewrite H. lra.
Qed.

(** Zoom and latitude stay within their bounds under every sequence of
    mutator calls, whatever the arguments. *)
Theorem mutators_keep_zoom_and_lat (ms : list mutator) (r : t) :
  view_ok r -> view_ok (mutate_all ms r).
Proof.
  revert r. induction ms as [|m ms IH]; intros r Hr; [exact Hr|].
  unfold mutate_all. cbn [fold_left]. apply IH. by apply mutate_view_ok.
Qed.

Lemma sample_view_ok : view_ok sample_renderer.
Proof.
  unfold view_ok, zoom_ok, lat_ok, MIN_ZOOM, MAX_ZOOM. cbn [sample_renderer state zoom center lat].
  lra.
Qed.

Lemma mutators_keep_zoom_and_lat_witness :
  view_ok (mutate_all [PanLeft; ZoomIn; CenterOn (mkLatLon 95 1000); ZoomOut]
                      sample_renderer).
Proof. apply mutators_keep_zoom_and_lat. exact sample_view_ok. Defined.

(** The longitude stays within [-180, 180] as well when the calls are
    tame: step pans, pans of at most a tile, and longitudes handed to
    [centerOn] and [fitBounds] that are themselves in range. *)
Theorem tame_mutators_keep_lon (ms : list mutator) (r : t) :
  Forall tame ms -> view_ok r -> lon_ok (center (state r)) ->
  lon_ok (center (state (mutate_all ms r))).
Proof.
  intros Hms. revert r. induction Hms as [|m ms Hm _ IH]; intros r Hv Hl; [exact Hl|].
  unfold mutate_all. cbn [fold_left]. apply IH.
  - by apply mutate_view_ok.
  - by apply mutate_lon_ok.
Qed.

Lemma tame_mutators_keep_lon_witness :
  lon_ok (center (state (mutate_all [PanRight; ZoomIn; PanUp] sample_renderer))).
Proof.
  apply tame_mutators_keep_lon.
  - repeat constructor.
  - exact sample_view_ok.
  - unfold lon_ok. cbn [sample_renderer state center lon]. lra.
Defined.

End ViewportClaims.

(** ** The viewport scenarios on IEEE doubles *)

Section Binary64Scenarios.
Import Binary64.
Local Open Scope float_scope.

(** C3, amended.  [fitBounds] on the two Dublin corners with the default
    padding, as JavaScript computes it on doubles, whatever the state
    before: the span of 0.1 degrees is padded to 0.1200000000000017, which
    the table maps to zoom 10; the centre has longitude -6.25 and latitude
    53.349999999999994, the double next below 53.35, since the sum
    53.30 + 53.40 is rounded before it is halved. *)
Theorem fitBounds_dublin (s : MapState) :
  let s' := fitBounds [mkLatLon 53.30 (-6.30); mkLatLon 53.40 (-6.20)] None s in
  s' = mkState (mkLatLon 53.349999999999994 (-6.25)) 10
  /\ PrimFloat.ltb (lat (center s')) 53.35 = true
  /\ PrimFloat.ltb (PrimFloat.abs (lat (center s') - 53.35)) 1e-14 = true.
Proof. cbv zeta. split; [reflexivity|]. split; reflexivity. Qed.

(** C3 as stated fails: the zoom selected is 10, not 12, and the
    latitude of the centre is not the double 53.35. *)
Lemma fitBounds_dublin_not_12 :
  let s' := fitBounds [mkLatLon 53.30 (-6.30); mkLatLon 53.40 (-6.20)] None initial in
  zoom s' <> 12 /\ lat (center s') <> 53.35.
Proof.
  cbv zeta. split; intros H.
  - apply (f_equal (fun z => PrimFloat.eqb z 12)) in H. vm_compute in H. discriminate.
  - apply (f_equal (fun z => PrimFloat.eqb z 53.35)) in H. vm_compute in H. discriminate.
Qed.

(** [centerOn] with longitude 1000, as JavaScript computes it. *)
Example centerOn_lon_1000_binary64 :
  centerOn (mkLatLon 0 1000) initial = mkState (mkLatLon 0 640) 12.
Proof. reflexivity. Qed.

End Binary64Scenarios.

(** ** The draw latch *)

Section DrawLatch.
Import Renderer.

Lemma cleared_cells_blank (b : BrailleBuffer.t) (cy : Z) (cols : list Z) (parts : list jsstr) :
  fold_left (BrailleBuffer.toPlainLines_cell (BrailleBuffer.clear b) cy) cols (0, parts)
  = (0, parts ++ map (fun _ => [0x2800]) cols).
Proof.
  revert parts. induction cols as [|cx cols IH]; intros parts; cbn [fold_left map].
  - by rewrite app_nil_r.
  - assert (Hstep : BrailleBuffer.toPlainLines_cell (BrailleBuffer.clear b) cy (0, parts) cx
                    = (0, parts ++ [[0x2800]])).
    { unfold BrailleBuffer.toPlainLines_cell, BrailleBuffer.clear.
      cbn [BrailleBuffer.charBuffer BrailleBuffer.pixelBuffer BrailleBuffer.charWidth].
      set (idx := cy * BrailleBuffer.charWidth b + cx).
      assert (Hc : arr_get (replicate (length (BrailleBuffer.charBuffer b)) None) idx = None).
      { unfold arr_get. destruct (idx <? 0); [done|].
        destruct (replicate _ _ !! Z.to_nat idx) as [o|] eqn:E; [|done].
        apply lookup_replicate in E as [-> _]. done. }
      assert (Hp : default 0 (ta_get (replicate (length (BrailleBuffer.pixelBuffer b)) 0) idx) = 0).
      { unfold ta_get. destruct (idx <? 0); [done|].
        destruct (replicate _ _ !! Z.to_nat idx) as [o|] eqn:E; [|done].
        apply lookup_replicate in E as [-> _]. done. }
      rewrite Hc, Hp. reflexivity. }
    rewrite Hstep, IH, <- app_assoc. reflexivity.
Qed.

Lemma map_const {A B : Type} (f : A -> B) (v : B) (l : list A) :
  (forall a, f a = v) -> map f l = replicate (length l) v.
Proof. intros Hf. induction l as [|a l IH]; simpl; [done|]. by rewrite Hf, IH. Qed.

Lemma join_units (cols : list Z) (u : Z) :
  join (map (fun _ => [u]) cols) = replicate (length cols) u.
Proof. induction cols as [|c cols IH]; simpl; [done|]. by rewrite <- IH. Qed.

(** A cleared buffer exports as blank lines. *)
Lemma clear_blank (b : BrailleBuffer.t) :
  BrailleBuffer.toPlainLines (BrailleBuffer.clear b) = blank_lines b.
Proof.
  unfold BrailleBuffer.toPlainLines, blank_lines.
  rewrite (map_const _ (replicate (Z.to_nat (BrailleBuffer.charWidth b)) 0x2800)).
  - unfold BrailleBuffer.rows. cbn [BrailleBuffer.clear BrailleBuffer.charHeight].
    by rewrite length_map, length_seq.
  - intros cy. unfold BrailleBuffer.toPlainLines_row.
    rewrite cleared_cells_blank. cbn [snd app]. rewrite join_units.
    unfold BrailleBuffer.columns. cbn [BrailleBuffer.clear BrailleBuffer.charWidth].
    by rewrite length_map, length_seq.
Qed.

Lemma draw_call_busy (r : t) :
  isDrawing r = true -> draw_call r = (Immediate (snapshot r), r).
Proof. intros Hd. unfold draw_call. by rewrite Hd. Qed.

(** The renderer a first [draw] call leaves when it suspends. *)
Lemma draw_call_idle (r : t) :
  isDrawing r = false ->
  exists tiles r1,
    draw_call r = (Suspended tiles, r1)
    /\ isDrawing r1 = true
    /\ state r1 = state r
    /\ Canvas.toPlainLines (canvas r1) = blank_lines (Canvas.buffer (canvas r)).
Proof.
  intros Hd. unfold draw_call. rewrite Hd.
  do 2 eexists. split; [reflexivity|]. split; [reflexivity|]. split; [reflexivity|].
  cbn [canvas with_frame]. unfold Canvas.toPlainLines, Canvas.clear.
  cbn [Canvas.buffer Canvas.with_buffer]. rewrite clear_blank.
  destruct (styleById r !! "background"); reflexivity.
Qed.

Context `{TileParser.TileCodec} `{FramePainter}.

(** C2, amended.  A [draw] call that finds the latch set returns at once
    an export of the canvas as it stands, and changes nothing: not the
    canvas, the label index, the latch, the tile source or the viewport.
    So a call made while a first call is suspended finds the canvas that
    first call has already cleared: its plain lines are blank, whatever
    the previous frame showed; and since it changes nothing, the first
    call resumes to the same result and the same renderer as if the second
    call had not been made. *)
Theorem reentrant_draw (r : t) :
  (isDrawing r = true -> draw_call r = (Immediate (snapshot r), r))
  /\ (isDrawing r = false ->
      exists tiles r1,
        draw_call r = (Suspended tiles, r1)
        /\ draw_call r1 = (Immediate (snapshot r1), r1)
        /\ plainLines (snapshot r1) = blank_lines (Canvas.buffer (canvas r))
        /\ forall net,
             draw_resume net tiles (snd (draw_call r1)) = draw_resume net tiles r1).
Proof.
  split; [apply draw_call_busy|].
  intros Hd. destruct (draw_call_idle r Hd) as (tiles & r1 & Hcall & Hbusy & _ & Hblank).
  exists tiles, r1. split; [exact Hcall|].
  pose proof (draw_call_busy r1 Hbusy) as Hsecond.
  split; [exact Hsecond|]. split; [exact Hblank|].
  intros net. by rewrite Hsecond.
Qed.

End DrawLatch.

(** The sample renderer is what the constructors build. *)
Lemma sample_renderer_constructed :
  TileSource.new (fun _ => None) ∅ "http://tiles/" None None
    = Returns Renderer.sample_source
  /\ Renderer.new 8 8 Renderer.sample_source ∅ None None
     = Some Renderer.sample_renderer.
Proof. split; reflexivity. Qed.

(** C2 as stated fails: after a frame that drew the GPS marker, a [draw]
    call made while the next call is suspended returns blank lines, not
    the lines of the previous frame. *)
Lemma reentrant_draw_not_previous_frame :
  exists tiles r1 res,
    Renderer.draw_call Renderer.painted_renderer = (Renderer.Suspended tiles, r1)
    /\ Renderer.draw_call r1 = (Renderer.Immediate res, r1)
    /\ Renderer.plainLines (Renderer.snapshot Renderer.painted_renderer)
       = [[0x2800; 0x2880; 0x28C7; 0x2800]; [0x2809; 0x2819; 0x285F; 0x2809]]
    /\ Renderer.plainLines res
       = [[0x2800; 0x2800; 0x2800; 0x2800]; [0x2800; 0x2800; 0x2800; 0x2800]]
    /\ Renderer.plainLines res
       <> Renderer.plainLines (Renderer.snapshot Renderer.painted_renderer).
Proof.
  do 3 eexists. split; [reflexivity|]. split; [reflexivity|].
  cbn [Renderer.plainLines Renderer.snapshot].
  match goal with
  | |- ?prev = ?p /\ ?res = ?q /\ _ =>
      assert (Hprev : prev = p) by (lazy; reflexivity);
      assert (Hres : res = q) by (lazy; reflexivity)
  end.
  split; [exact Hprev|]. split; [exact Hres|].
  rewrite Hprev, Hres. discriminate.
Qed.
(* ===================================================================== *)
(** * Part II, continued: further properties                            *)
(* ===================================================================== *)

(** ** utils.ts: distance and bearing *)

Section GeodesyProperties.
Import Utils.
Local Open Scope R_scope.

Lemma deg2rad_opp (v : R) : deg2rad (- v) = - deg2rad v.
Proof. unfold deg2rad. lra. Qed.

Lemma asin_nonneg (v : R) : 0 <= v -> 0 <= asin v.
Proof.
  intros Hv. unfold asin.
  destruct (Rle_dec v (-1)); [lra|].
  destruct (Rle_dec 1 v); [pose proof PI_RGT_0; lra|].
  rewrite <- atan_0.
  assert (Hq : 0 <= v / R_sqrt.sqrt (1 - v²)).
  { apply Rmult_le_pos; [exact Hv|]. apply Rlt_le, Rinv_0_lt_compat.
    apply sqrt_lt_R0. unfold Rsqr. nra. }
  destruct Hq as [Hq|<-]; [|lra]. apply Rlt_le, atan_increasing. exact Hq.
Qed.

(** [haversine] is a distance: no point is away from itself, the way
    back is as long as the way out, and no two points are further apart
    than half the circumference. *)
Theorem haversine_distance (a b : LatLon) :
  haversine a a = 0
  /\ haversine a b = haversine b a
  /\ 0 <= haversine a b <= PI * EARTH_RADIUS.
Proof.
  split; [|split].
  - unfold haversine, haversine_h. cbv zeta.
    replace (lat a - lat a) with 0 by lra. replace (lon a - lon a) with 0 by lra.
    replace (deg2rad 0 / 2) with 0 by (unfold deg2rad; lra).
    rewrite sin_0. rewrite !Rmult_0_r. rewrite Rplus_0_l.
    rewrite sqrt_0, asin_0. lra.
  - unfold haversine. f_equal. f_equal. f_equal. unfold haversine_h. cbv zeta.
    replace (lat a - lat b) with (- (lat b - lat a)) by lra.
    replace (lon a - lon b) with (- (lon b - lon a)) by lra.
    rewrite !deg2rad_opp.
    replace (- deg2rad (lat b - lat a) / 2) with (- (deg2rad (lat b - lat a) / 2)) by lra.
    replace (- deg2rad (lon b - lon a) / 2) with (- (deg2rad (lon b - lon a) / 2)) by lra.
    rewrite !sin_neg. lra.
  - unfold haversine, EARTH_RADIUS.
    pose proof (asin_bound (R_sqrt.sqrt (haversine_h a b))) as [_ Hhi].
    pose proof (asin_nonneg _ (sqrt_pos (haversine_h a b))) as Hlo.
    split; nra.
Qed.

End GeodesyProperties.

Section BearingProperties.
Import Utils.
Local Open Scope R_scope.

Lemma Math_atan2_bound (y x : R) : - PI <= Math_atan2 y x <= PI.
Proof.
  pose proof PI_RGT_0 as Hpi. unfold Math_atan2.
  pose proof (atan_bound (y / x)) as [Hlo Hhi].
  destruct (Rlt_dec 0 x) as [Hx|Hx]; [lra|].
  destruct (Rlt_dec x 0) as [Hx'|Hx'].
  - assert (Hinv : / x < 0) by (by apply Rinv_lt_0_compat).
    destruct (Rle_dec 0 y) as [Hy|Hy].
    + assert (Hq : y / x <= 0) by (unfold Rdiv; nra).
      assert (atan (y / x) <= 0).
      { rewrite <- atan_0. destruct Hq as [Hq| ->]; [|lra].
        apply Rlt_le, atan_increasing. exact Hq. }
      lra.
    + assert (Hq : 0 < y / x) by (unfold Rdiv; nra).
      assert (0 < atan (y / x)) by (rewrite <- atan_0; by apply atan_increasing).
      lra.
  - destruct (Rlt_dec 0 y); [lra|]. destruct (Rlt_dec y 0); lra.
Qed.

Lemma js_rem_pos (a b : R) :
  0 <= a -> 0 < b -> 0 <= js_rem a b < b.
Proof.
  intros Ha Hb. unfold js_rem, Ztrunc.
  assert (Hq : 0 <= a / b) by (apply Rmult_le_pos; [lra | apply Rlt_le, Rinv_0_lt_compat; lra]).
  destruct (Rlt_dec (a / b) 0); [lra|].
  pose proof (Zfloor_bound (a / b)) as [Hf1 Hf2].
  assert (Hab : a / b * b = a) by (field; lra).
  set (q := a / b) in *. set (f := IZR (Zfloor q)) in *. clearbody q f. split; nra.
Qed.

Lemma bearing_bounds (a b : LatLon) : 0 <= bearing a b < 360.
Proof.
  unfold bearing. cbv zeta. apply js_rem_pos; [|lra].
  match goal with |- context [Math_atan2 ?y ?x] =>
    pose proof (Math_atan2_bound y x) as [Hlo _]; set (t := Math_atan2 y x) in * end.
  pose proof PI_4. unfold rad2deg. lra.
Qed.

Lemma Math_round_bound (v : R) : IZR (Math_round v) - / 2 <= v < IZR (Math_round v) + / 2.
Proof. unfold Math_round. pose proof (Zfloor_bound (v + / 2)). lra. Qed.

Lemma dirs_lookup (k : Z) : (0 <= k < 8)%Z -> exists d, dirs !! Z.to_nat k = Some d.
Proof.
  intros Hk. apply lookup_lt_is_Some. simpl. lia.
Qed.

Lemma compass_index (deg : R) :
  -22.5 <= deg ->
  exists (k turns : Z) (d : string),
    (0 <= k < 8)%Z /\ dirs !! Z.to_nat k = Some d
    /\ bearingToCompass deg = Some d
    /\ -22.5 <= deg - (45 * IZR k + 360 * IZR turns) < 22.5.
Proof.
  intros Hdeg. unfold bearingToCompass. cbv zeta.
  pose proof (Math_round_bound (deg / 45)) as [Hr1 Hr2].
  set (n := Math_round (deg / 45)) in *.
  assert (Hn : (0 <= n)%Z).
  { apply Z.lt_succ_r. apply lt_IZR. rewrite succ_IZR. lra. }
  pose proof (Z.rem_bound_pos n 8 Hn ltac:(lia)) as Hrem.
  destruct (dirs_lookup (Z.rem n 8) Hrem) as [d Hd].
  exists (Z.rem n 8), (Z.quot n 8), d.
  split; [exact Hrem|]. split; [exact Hd|]. split.
  - destruct (Z.ltb_spec (Z.rem n 8) 0); [lia | exact Hd].
  - pose proof (Z.quot_rem' n 8) as Hqr.
    assert (Hsum : 45 * IZR (Z.rem n 8) + 360 * IZR (Z.quot n 8) = 45 * IZR n).
    { rewrite Hqr at 3. rewrite plus_IZR, mult_IZR. lra. }
    rewrite Hsum. lra.
Qed.

(** The name [bearingToCompass] gives an angle that is not below -22.5:
    the one of the eight directions, 45 degrees apart, whose angle is
    within 22.5 degrees of it, whole turns apart. *)
Theorem bearingToCompass_sector (deg : R) :
  -22.5 <= deg ->
  exists (k turns : Z) (d : string),
    (0 <= k < 8)%Z /\ dirs !! Z.to_nat k = Some d
    /\ bearingToCompass deg = Some d
    /\ -22.5 <= deg - (45 * IZR k + 360 * IZR turns) < 22.5.
Proof. apply compass_index. Qed.

Lemma bearingToCompass_sector_witness :
  exists (k turns : Z) (d : string),
    (0 <= k < 8)%Z /\ dirs !! Z.to_nat k = Some d
    /\ bearingToCompass 350 = Some d
    /\ -22.5 <= 350 - (45 * IZR k + 360 * IZR turns) < 22.5.
Proof. apply (bearingToCompass_sector 350). lra. Defined.

(** Below that the index is negative and the lookup gives nothing. *)
Lemma bearingToCompass_negative (deg : R) :
  -337.5 <= deg < -22.5 -> bearingToCompass deg = None.
Proof.
  intros Hdeg. unfold bearingToCompass. cbv zeta.
  pose proof (Math_round_bound (deg / 45)) as [Hr1 Hr2].
  set (n := Math_round (deg / 45)) in *.
  assert (Hn : (-8 < n < 0)%Z).
  { split.
    - apply lt_IZR. lra.
    - apply lt_IZR. lra. }
  assert (Hrem : Z.rem n 8 = n) by (apply Z.rem_small_iff; lia || (right; lia)).
  rewrite Hrem. destruct (Z.ltb_spec n 0); [reflexivity|lia].
Qed.

(** The bearing between any two points is an angle in [0, 360), so it
    always has a compass name. *)
Theorem bearing_compass (a b : LatLon) :
  0 <= bearing a b < 360
  /\ exists d, bearingToCompass (bearing a b) = Some d /\ d ∈ dirs.
Proof.
  pose proof (bearing_bounds a b) as Hb. split; [exact Hb|].
  destruct (compass_index (bearing a b)) as (k & turns & d & Hk & Hd & Hc & _); [lra|].
  exists d. split; [exact Hc|]. by eapply list_elem_of_lookup_2.
Qed.

End BearingProperties.

(** ** utils.ts: the population count *)

Section PopulationProperties.
Import Utils.

Lemma toInt32_small (v : Z) : - 2 ^ 31 <= v < 2 ^ 31 -> toInt32 v = v.
Proof. intros Hv. unfold toInt32. rewrite Z.mod_small; lia. Qed.

Lemma toInt32_range (v : Z) : - 2 ^ 31 <= toInt32 v < 2 ^ 31.
Proof. unfold toInt32. pose proof (Z.mod_pos_bound (v + 2 ^ 31) (2 ^ 32) ltac:(lia)). lia. Qed.

Lemma bitcount_0 (n : nat) : bitcount n 0 = 0.
Proof.
  unfold bitcount.
  assert (Hnil : forall l : list nat,
             filter (fun i => Z.testbit 0 (Z.of_nat i) = true) l = []).
  { induction l as [|i l IH]; [reflexivity|].
    rewrite filter_cons, Z.bits_0, decide_False by discriminate. exact IH. }
  by rewrite Hnil.
Qed.

Lemma bitcount_S (n : nat) (v : Z) :
  bitcount (S n) v = Z.land v 1 + bitcount n (Z.shiftr v 1).
Proof.
  unfold bitcount. cbn [seq]. rewrite <- seq_shift, filter_cons.
  assert (Hrest :
    length (filter (fun i => Z.testbit v (Z.of_nat i) = true) (map S (seq 0 n)))
    = length (filter (fun i => Z.testbit (Z.shiftr v 1) (Z.of_nat i) = true) (seq 0 n))).
  { induction (seq 0 n) as [|i l IH]; [reflexivity|].
    cbn [map]. rewrite !filter_cons.
    assert (Hbit : Z.testbit v (Z.of_nat (S i)) = Z.testbit (Z.shiftr v 1) (Z.of_nat i)).
    { rewrite Z.shiftr_spec by lia. f_equal. lia. }
    rewrite Hbit. destruct (decide _); cbn [length]; by rewrite IH. }
  assert (Hlow : Z.land v 1 = if Z.testbit v 0 then 1 else 0).
  { change 1 with (Z.ones 1) at 1. rewrite Z.land_ones by lia.
    rewrite <- Z.bit0_mod. by destruct (Z.testbit v 0). }
  rewrite Hlow. change (Z.of_nat 0) with 0.
  destruct (Z.testbit v 0); [rewrite decide_True by done | rewrite decide_False by done];
    cbn [length]; rewrite Hrest; lia.
Qed.

Lemma population_loop_S (fuel : nat) (val bits : Z) :
  population_loop (S fuel) val bits
  = if val >? 0 then
      population_loop fuel (Z.shiftr (toInt32 val) 1) (bits + Z.land (toInt32 val) 1)
    else Some bits.
Proof. reflexivity. Qed.

(** The loop on a value of [k] bits counts them, in [k + 1] rounds. *)
Lemma population_loop_counts (k : nat) :
  forall (fuel : nat) (v bits : Z),
    0 <= v < 2 ^ Z.of_nat k -> (k <= 31)%nat -> (k < fuel)%nat ->
    population_loop fuel v bits = Some (bits + bitcount k v).
Proof.
  induction k as [|k IH]; intros fuel v bits Hv Hk Hfuel;
    (destruct fuel as [|fuel]; [lia|]); cbn [population_loop].
  - assert (v = 0) as -> by (simpl in Hv; lia). simpl. f_equal. unfold bitcount. simpl. lia.
  - destruct (Z.gtb_spec v 0) as [Hpos|Hz].
    + assert (Hpow : 2 ^ Z.of_nat (S k) <= 2 ^ 31) by (apply Z.pow_le_mono_r; lia).
      rewrite toInt32_small by lia.
      rewrite IH; [|split|lia|lia].
      * f_equal. rewrite bitcount_S. lia.
      * apply Z.shiftr_nonneg. lia.
      * rewrite Z.shiftr_div_pow2 by lia. apply Z.div_lt_upper_bound; [lia|].
        rewrite Nat2Z.inj_succ, Z.pow_succ_r in Hv by lia. lia.
    + assert (v = 0) as -> by lia. by rewrite bitcount_0, Z.add_0_r.
Qed.

(** [population] returns on every integer; on one that fits 31 bits the
    result is the number of bits set, and on one that is not positive it
    is 0. *)
Theorem population_counts (v : Z) :
  (exists n, population v = Some n /\ 0 <= n <= 31)
  /\ (0 <= v < 2 ^ 31 -> population v = Some (bitcount 31 v))
  /\ (v <= 0 -> population v = Some 0).
Proof.
  assert (Hcount : forall k v, 0 <= bitcount k v <= Z.of_nat k).
  { intros k w. unfold bitcount. split; [lia|].
    apply inj_le. etrans; [apply length_filter|]. by rewrite length_seq. }
  assert (Hsmall : 0 <= v < 2 ^ 31 -> population v = Some (bitcount 31 v)).
  { intros Hv. unfold population.
    rewrite (population_loop_counts 31) by (try lia; exact Hv). reflexivity. }
  assert (Hneg : v <= 0 -> population v = Some 0).
  { intros Hv. unfold population. rewrite population_loop_S.
    destruct (Z.gtb_spec v 0); [lia|reflexivity]. }
  split; [|split; assumption].
  destruct (Z.le_gt_cases v 0) as [Hle|Hgt].
  - exists 0. rewrite Hneg by exact Hle. split; [reflexivity|lia].
  - unfold population. rewrite population_loop_S.
    destruct (Z.gtb_spec v 0); [|lia].
    pose proof (toInt32_range v) as Hr.
    set (w := toInt32 v) in *.
    assert (Hbit : 0 <= Z.land w 1 <= 1).
    { replace (Z.land w 1) with (w mod 2).
      - pose proof (Z.mod_pos_bound w 2 ltac:(lia)). lia.
      - change 1 with (Z.ones 1). by rewrite Z.land_ones by lia. }
    destruct (Z.le_gt_cases (Z.shiftr w 1) 0) as [Hs|Hs].
    + exists (0 + Z.land w 1). rewrite population_loop_S.
      destruct (Z.gtb_spec (Z.shiftr w 1) 0); [lia|]. split; [reflexivity|lia].
    + assert (Hhalf : 0 <= Z.shiftr w 1 < 2 ^ Z.of_nat 30).
      { split; [lia|]. rewrite Z.shiftr_div_pow2 by lia.
        apply Z.div_lt_upper_bound; [lia|]. change (2 ^ 1) with 2.
        change (2 ^ Z.of_nat 30) with (2 ^ 30). lia. }
      rewrite (population_loop_counts 30) by (try lia; exact Hhalf).
      eexists. split; [reflexivity|]. pose proof (Hcount 30%nat (Z.shiftr w 1)). lia.
Qed.

End PopulationProperties.

(** ** utils.ts: colours and scale *)

Section ColourRange.
Import Utils.

Lemma round_ratio_grey (r : Z) : 8 <= r <= 248 -> 0 <= round_ratio (r - 8) 247 23 <= 23.
Proof.
  intros Hr. unfold round_ratio. split.
  - apply Z.div_pos; lia.
  - apply Z.lt_succ_r. apply Z.div_lt_upper_bound; lia.
Qed.

Lemma round_ratio_cube (c : Z) : 0 <= c <= 255 -> 0 <= round_ratio c 255 5 <= 5.
Proof.
  intros Hc. unfold round_ratio. split.
  - apply Z.div_pos; lia.
  - apply Z.lt_succ_r. apply Z.div_lt_upper_bound; lia.
Qed.

(** The index of a colour with channels in 0..255 is never one of the
    sixteen system colours, and never 0. *)
Lemma rgb2xterm_range (r g b : Z) :
  0 <= r <= 255 -> 0 <= g <= 255 -> 0 <= b <= 255 -> 16 <= rgb2xterm r g b <= 255.
Proof.
  intros Hr Hg Hb. unfold rgb2xterm.
  destruct ((r =? g) && (g =? b)).
  - destruct (Z.ltb_spec r 8); [lia|]. destruct (Z.gtb_spec r 248); [lia|].
    pose proof (round_ratio_grey r ltac:(lia)). lia.
  - pose proof (round_ratio_cube r Hr). pose proof (round_ratio_cube g Hg).
    pose proof (round_ratio_cube b Hb). lia.
Qed.

Lemma land_255 (v : Z) : 0 <= Z.land v 255 <= 255.
Proof.
  replace (Z.land v 255) with (v mod 256).
  - pose proof (Z.mod_pos_bound v 256 ltac:(lia)). lia.
  - change 255 with (Z.ones 8). by rewrite Z.land_ones by lia.
Qed.

Lemma hex_char_plain (c : ascii) (d : Z) :
  hexval c = Some d ->
  0 <= d < 16 /\ is_space c = false /\ c <> "-"%char /\ c <> "+"%char
  /\ c <> "x"%char /\ c <> "X"%char.
Proof.
  destruct c as [[] [] [] [] [] [] [] []]; vm_compute; intros H;
    try discriminate H; injection H as <-; repeat split; try lia; discriminate.
Qed.

(** [parseInt] of a hexadecimal digit written twice. *)
Lemma parseInt16_double (c : ascii) (d : Z) :
  hexval c = Some d -> parseInt16 (String c (String c EmptyString)) = Some (17 * d).
Proof.
  intros Hc. destruct (hex_char_plain c d Hc) as (Hd & Hsp & Hm & Hp & Hx & HX).
  unfold parseInt16. cbn [skip_spaces]. rewrite Hsp.
  assert (Hskip : skip_0x (String c (String c EmptyString)) = String c (String c EmptyString)).
  { unfold skip_0x. destruct c as [[] [] [] [] [] [] [] []]; try reflexivity;
      exfalso; (by apply Hx) || (by apply HX). }
  assert (Hrun : hexrun (String c (String c EmptyString)) 0 false = Some (17 * d)).
  { cbn [hexrun]. rewrite Hc. f_equal. lia. }
  destruct c as [[] [] [] [] [] [] [] []];
    try (exfalso; (by apply Hm) || (by apply Hp));
    rewrite Hskip; exact Hrun.
Qed.

(** [hex2xterm] gives a colour index for every string but a malformed
    three-character one: whatever follows the [#], six digits or not, the
    answer is a number from 16 to 255 (text that is no number at all reads
    as black, 16); a three-character string gives one when its characters
    are hexadecimal digits. *)
Theorem hex2xterm_defined (s : string) :
  (String.length (remove_hash s) <> 3%nat
   \/ exists c0 c1 c2 d0 d1 d2,
        remove_hash s = String c0 (String c1 (String c2 EmptyString))
        /\ hexval c0 = Some d0 /\ hexval c1 = Some d1 /\ hexval c2 = Some d2) ->
  exists i, hex2xterm s = Some i /\ 16 <= i <= 255.
Proof.
  intros Hs. unfold hex2xterm, hex2rgb.
  destruct Hs as [Hlen|(c0 & c1 & c2 & d0 & d1 & d2 & -> & H0 & H1 & H2)].
  - set (col := remove_hash s) in *.
    assert (Hsix : forall d : Z, exists i,
               match (Some (Z.land (Z.shiftr d 16) 255), Some (Z.land (Z.shiftr d 8) 255),
                      Some (Z.land d 255)) with
               | (Some r, Some g, Some b) => Some (rgb2xterm r g b)
               | _ => None
               end = Some i /\ 16 <= i <= 255).
    { intros d. eexists. split; [reflexivity|]. apply rgb2xterm_range; apply land_255. }
    destruct col as [|a0 [|a1 [|a2 [|a3 rest]]]]; try apply Hsix.
    by simpl in Hlen.
  - rewrite (parseInt16_double c0 d0 H0), (parseInt16_double c1 d1 H1),
      (parseInt16_double c2 d2 H2).
    destruct (hex_char_plain c0 d0 H0) as [? _].
    destruct (hex_char_plain c1 d1 H1) as [? _].
    destruct (hex_char_plain c2 d2 H2) as [? _].
    eexists. split; [reflexivity|]. apply rgb2xterm_range; lia.
Qed.

Lemma hex2xterm_defined_witness :
  exists i, hex2xterm "not a colour" = Some i /\ 16 <= i <= 255.
Proof. apply (hex2xterm_defined "not a colour"). left. simpl. lia. Defined.

End ColourRange.

Section ScaleProperties.
Import Utils Renderer.
Local Open Scope R_scope.

Lemma pow2_add (a b : R) : pow2 (a + b) = pow2 a * pow2 b.
Proof. unfold pow2. apply Rpower_plus. Qed.

Lemma pow2_1 : pow2 1 = 2.
Proof. unfold pow2. apply Rpower_1. lra. Qed.

Lemma pow2_0 : pow2 0 = 1.
Proof. unfold pow2. apply Rpower_O. lra. Qed.

Lemma pow2_lt (a b : R) : a < b -> pow2 a < pow2 b.
Proof. intros. unfold pow2. apply Rpower_lt; lra. Qed.

Lemma pow2_le (a b : R) : a <= b -> pow2 a <= pow2 b.
Proof. intros. unfold pow2. apply Rle_Rpower; lra. Qed.

Lemma tileSize_world (zoom : R) :
  tileSizeAtZoom zoom * pow2 (baseZoom zoom) = 256 * pow2 zoom.
Proof.
  unfold tileSizeAtZoom, TILE_SIZE. rewrite Rmult_assoc, <- pow2_add.
  f_equal. f_equal. lra.
Qed.

(** Up to zoom 15 a tile is drawn 256 to 512 pixels wide; beyond, where
    the tiles of zoom 14 are stretched, up to 4096 at the highest zoom. *)
Theorem tileSizeAtZoom_range (zoom : R) :
  (0 <= zoom < 15 -> 256 <= tileSizeAtZoom zoom < 512)
  /\ (0 <= zoom <= 18 -> 256 <= tileSizeAtZoom zoom <= 4096).
Proof.
  split.
  - intros [Hz1 Hz2]. unfold tileSizeAtZoom, TILE_SIZE.
    pose proof (Zfloor_bound zoom) as [Hf1 Hf2].
    assert (Hb : zoom - 1 < baseZoom zoom <= zoom).
    { unfold baseZoom, baseZoom_max, Utils.floor, Rmin, Rmax.
      assert (IZR (Zfloor zoom) <= 14).
      { apply IZR_le. apply Z.lt_succ_r. apply lt_IZR. rewrite succ_IZR. lra. }
      destruct (Rle_dec 0 _); destruct (Rle_dec 14 _); lra. }
    pose proof (pow2_le 0 (zoom - baseZoom zoom) ltac:(lra)) as H0.
    pose proof (pow2_lt (zoom - baseZoom zoom) 1 ltac:(lra)) as H1.
    rewrite pow2_0 in H0. rewrite pow2_1 in H1. lra.
  - intros [Hz1 Hz2]. unfold tileSizeAtZoom, TILE_SIZE.
    pose proof (Zfloor_bound zoom) as [Hf1 Hf2].
    assert (Hb : zoom - 4 <= baseZoom zoom <= zoom).
    { unfold baseZoom, baseZoom_max, Utils.floor, Rmin, Rmax.
      destruct (Rle_dec 0 _); destruct (Rle_dec 14 _); lra. }
    pose proof (pow2_le 0 (zoom - baseZoom zoom) ltac:(lra)) as H0.
    pose proof (pow2_le (zoom - baseZoom zoom) 4 ltac:(lra)) as H1.
    rewrite pow2_0 in H0.
    assert (H4 : pow2 4 = 16).
    { replace 4 with (1 + 1 + 1 + 1) by lra. rewrite !pow2_add, pow2_1. lra. }
    rewrite H4 in H1. lra.
Qed.

End ScaleProperties.

(** ** The braille buffer: pixels, exports and colours *)

Section PixelProperties.
Import BrailleBuffer.

(** The cell and the bit of a pixel determine the pixel. *)
Lemma pixel_address_inj (b : t) (x y x' y' : Z) :
  wf b -> 0 <= x < width b -> 0 <= y < height b ->
  0 <= x' < width b -> 0 <= y' < height b ->
  cellIndex b x y = cellIndex b x' y' -> dotBit x y = dotBit x' y' ->
  x = x' /\ y = y'.
Proof.
  intros Hwf Hx Hy Hx' Hy' Hcell Hbit.
  unfold cellIndex in Hcell. rewrite !Z.shiftr_div_pow2 in Hcell by lia.
  change (2 ^ 1) with 2 in Hcell. change (2 ^ 2) with 4 in Hcell.
  rewrite (wf_width b Hwf) in Hx, Hx'.
  assert (Hq : 0 <= x / 2 < charWidth b)
    by (split; [apply Z.div_pos; lia | apply Z.div_lt_upper_bound; lia]).
  assert (Hq' : 0 <= x' / 2 < charWidth b)
    by (split; [apply Z.div_pos; lia | apply Z.div_lt_upper_bound; lia]).
  assert (Hrow : y / 4 = y' / 4) by nia.
  assert (Hcol : x / 2 = x' / 2) by nia.
  unfold dotBit in Hbit.
  pose proof (Z.mod_pos_bound y 4 ltac:(lia)). pose proof (Z.mod_pos_bound y' 4 ltac:(lia)).
  pose proof (Z.mod_pos_bound x 2 ltac:(lia)). pose proof (Z.mod_pos_bound x' 2 ltac:(lia)).
  pose proof (Z.div_mod x 2 ltac:(lia)). pose proof (Z.div_mod x' 2 ltac:(lia)).
  pose proof (Z.div_mod y 4 ltac:(lia)). pose proof (Z.div_mod y' 4 ltac:(lia)).
  destruct (Z.ltb_spec (y mod 4) 3); destruct (Z.ltb_spec (y' mod 4) 3); lia.
Qed.

Lemma lor_byte (p k : Z) : 0 <= p < 256 -> 0 <= k < 8 -> to_uint8 (Z.lor p (2 ^ k)) = Z.lor p (2 ^ k).
Proof.
  intros Hp Hk. unfold to_uint8. apply Z.mod_small. split.
  - apply Z.lor_nonneg. split; [lia|]. apply Z.pow_nonneg. lia.
  - change 256 with (2 ^ 8). destruct (Z.eq_dec (Z.lor p (2 ^ k)) 0) as [->|Hne]; [lia|].
    apply Z.log2_lt_pow2; [|].
    + assert (0 <= Z.lor p (2 ^ k)) by (apply Z.lor_nonneg; split; [lia|apply Z.pow_nonneg; lia]). lia.
    + rewrite Z.log2_lor by (try lia; apply Z.pow_nonneg; lia).
      rewrite Z.log2_pow2 by lia.
      assert (Z.log2 p < 8).
      { destruct (Z.eq_dec p 0) as [->|]; [simpl; lia|]. apply Z.log2_lt_pow2; lia. }
      lia.
Qed.

Lemma set_bit_testbit (p k n : Z) :
  0 <= k -> Z.testbit (Z.lor p (2 ^ k)) n = Z.testbit p n || (n =? k).
Proof.
  intros Hk. destruct (Z.ltb_spec n 0).
  - rewrite !Z.testbit_neg_r by lia. destruct (Z.eqb_spec n k); [lia|reflexivity].
  - rewrite Z.lor_spec, Z.pow2_bits_eqb by lia. by rewrite (Z.eqb_sym k n).
Qed.

(** The pixel bytes after [setPixel] and [unsetPixel] inside the buffer. *)
Lemma setPixel_pixels (b : t) (x y c : Z) :
  wf b -> 0 <= x < width b -> 0 <= y < height b ->
  exists p,
    ta_get (pixelBuffer b) (cellIndex b x y) = Some p
    /\ pixelBuffer (setPixel x y c b)
       = ta_set (pixelBuffer b) (cellIndex b x y) (Z.lor p (2 ^ dotBit x y))
    /\ 0 <= p < 256
    /\ charWidth (setPixel x y c b) = charWidth b.
Proof.
  intros Hwf Hx Hy. unfold setPixel. rewrite outside_false by assumption.
  rewrite dotMask_bit.
  pose proof (cellIndex_range b x y Hwf Hx Hy) as Hi.
  assert (Hlen : 0 <= cellIndex b x y < Z.of_nat (length (pixelBuffer b)))
    by (rewrite (wf_pixel b Hwf); lia).
  destruct (ta_get_in_range _ _ Hlen) as [p Hp].
  pose proof (ta_get_byte _ _ _ (wf_pixel_bytes b Hwf) Hp) as Hb.
  exists p. rewrite Hp. simpl. split; [reflexivity|]. split; [reflexivity|].
  split; [exact Hb | reflexivity].
Qed.

Lemma unsetPixel_pixels (b : t) (x y : Z) :
  wf b -> 0 <= x < width b -> 0 <= y < height b ->
  exists p,
    ta_get (pixelBuffer b) (cellIndex b x y) = Some p
    /\ pixelBuffer (unsetPixel x y b)
       = ta_set (pixelBuffer b) (cellIndex b x y) (Z.land p (Z.lnot (2 ^ dotBit x y)))
    /\ 0 <= p < 256
    /\ charWidth (unsetPixel x y b) = charWidth b.
Proof.
  intros Hwf Hx Hy. unfold unsetPixel. rewrite outside_false by assumption.
  rewrite dotMask_bit.
  pose proof (cellIndex_range b x y Hwf Hx Hy) as Hi.
  assert (Hlen : 0 <= cellIndex b x y < Z.of_nat (length (pixelBuffer b)))
    by (rewrite (wf_pixel b Hwf); lia).
  destruct (ta_get_in_range _ _ Hlen) as [p Hp].
  pose proof (ta_get_byte _ _ _ (wf_pixel_bytes b Hwf) Hp) as Hb.
  exists p. rewrite Hp. simpl. split; [reflexivity|]. split; [reflexivity|].
  split; [exact Hb | reflexivity].
Qed.

Lemma dotSet_setPixel (b : t) (x y c x' y' : Z) :
  wf b -> 0 <= x < width b -> 0 <= y < height b ->
  0 <= x' < width b -> 0 <= y' < height b ->
  dotSet (setPixel x y c b) x' y'
  = if decide (x' = x /\ y' = y) then true else dotSet b x' y'.
Proof.
  intros Hwf Hx Hy Hx' Hy'.
  destruct (setPixel_pixels b x y c Hwf Hx Hy) as (p & Hp & Hpix & Hbyte & Hcw).
  pose proof (cellIndex_range b x y Hwf Hx Hy) as Hi.
  assert (Hlen : 0 <= cellIndex b x y < Z.of_nat (length (pixelBuffer b)))
    by (rewrite (wf_pixel b Hwf); lia).
  pose proof (dotBit_range x y) as Hk.
  unfold dotSet.
  assert (Hci : cellIndex (setPixel x y c b) x' y' = cellIndex b x' y')
    by (unfold cellIndex; by rewrite Hcw).
  rewrite Hci, Hpix.
  destruct (Z.eq_dec (cellIndex b x' y') (cellIndex b x y)) as [Hsame|Hdiff].
  - rewrite Hsame, ta_get_set_eq by exact Hlen. cbn [from_option]; unfold Datatypes.id.
    rewrite lor_byte by assumption. rewrite set_bit_testbit by lia.
    rewrite Hp. cbn [from_option]; unfold Datatypes.id.
    destruct (Z.eqb_spec (dotBit x' y') (dotBit x y)) as [Hb|Hb].
    + destruct (pixel_address_inj b x' y' x y Hwf Hx' Hy' Hx Hy Hsame Hb) as [-> ->].
      rewrite decide_True by done. apply orb_true_r.
    + rewrite decide_False; [apply orb_false_r|]. intros [-> ->]. by apply Hb.
  - rewrite ta_get_set_ne by congruence.
    rewrite decide_False; [reflexivity|]. intros [-> ->]. by apply Hdiff.
Qed.

Lemma dotSet_unsetPixel (b : t) (x y x' y' : Z) :
  wf b -> 0 <= x < width b -> 0 <= y < height b ->
  0 <= x' < width b -> 0 <= y' < height b ->
  dotSet (unsetPixel x y b) x' y'
  = if decide (x' = x /\ y' = y) then false else dotSet b x' y'.
Proof.
  intros Hwf Hx Hy Hx' Hy'.
  destruct (unsetPixel_pixels b x y Hwf Hx Hy) as (p & Hp & Hpix & Hbyte & Hcw).
  pose proof (cellIndex_range b x y Hwf Hx Hy) as Hi.
  assert (Hlen : 0 <= cellIndex b x y < Z.of_nat (length (pixelBuffer b)))
    by (rewrite (wf_pixel b Hwf); lia).
  pose proof (dotBit_range x y) as Hk.
  unfold dotSet.
  assert (Hci : cellIndex (unsetPixel x y b) x' y' = cellIndex b x' y')
    by (unfold cellIndex; by rewrite Hcw).
  rewrite Hci, Hpix.
  destruct (Z.eq_dec (cellIndex b x' y') (cellIndex b x y)) as [Hsame|Hdiff].
  - rewrite Hsame, ta_get_set_eq by exact Hlen. cbn [from_option]; unfold Datatypes.id.
    rewrite land_byte by assumption. rewrite clear_bit_testbit by lia.
    rewrite Hp. cbn [from_option]; unfold Datatypes.id.
    destruct (Z.eqb_spec (dotBit x' y') (dotBit x y)) as [Hb|Hb].
    + destruct (pixel_address_inj b x' y' x y Hwf Hx' Hy' Hx Hy Hsame Hb) as [-> ->].
      rewrite decide_True by done. apply andb_false_r.
    + rewrite decide_False; [apply andb_true_r|]. intros [-> ->]. by apply Hb.
  - rewrite ta_get_set_ne by congruence.
    rewrite decide_False; [reflexivity|]. intros [-> ->]. by apply Hdiff.
Qed.

(** The size of a buffer never changes. *)
Lemma apply_dims (b : t) (o : op) :
  (width (apply b o), height (apply b o), charWidth (apply b o), charHeight (apply b o))
  = (width b, height b, charWidth b, charHeight b).
Proof.
  assert (Hloop : forall s x y c n i0 b0,
    (width (writeText_loop s x y c i0 n b0), height (writeText_loop s x y c i0 n b0),
     charWidth (writeText_loop s x y c i0 n b0), charHeight (writeText_loop s x y c i0 n b0))
    = (width b0, height b0, charWidth b0, charHeight b0)).
  { intros s x y c n. induction n as [|n IH]; intros i0 b0; [reflexivity|].
    cbn [writeText_loop]. rewrite IH. unfold setChar. by destruct (outside b0 _ _). }
  destruct o; cbn [apply]; try reflexivity.
  - unfold setPixel. destruct (outside b x y); [done|]. by destruct (dotMask x y).
  - unfold unsetPixel. destruct (outside b x y); [done|]. by destruct (dotMask x y).
  - unfold setBackground. by destruct (outside b x y).
  - unfold setChar. by destruct (outside b x y).
  - unfold writeText. apply Hloop.
Qed.

Lemma run_dims (ops : list op) (b : t) :
  (width (run ops b), height (run ops b), charWidth (run ops b), charHeight (run ops b))
  = (width b, height b, charWidth b, charHeight b).
Proof.
  revert b. induction ops as [|o ops IH]; intros b; [reflexivity|].
  unfold run in *. cbn [fold_left]. rewrite IH. apply apply_dims.
Qed.

End PixelProperties.

Section PixelClaims.
Import BrailleBuffer.

(** On a buffer built by the constructor and any calls, [setPixel] sets
    the dot of its pixel and [unsetPixel] clears it, and neither changes
    the dot of any other pixel: the dots are independent although eight
    of them share a byte. *)
Theorem pixels_independent (w h : Z) (b0 : t) (ops : list op) (x y c x' y' : Z) :
  new w h = Some b0 ->
  let b := run ops b0 in
  outside b x y = false -> outside b x' y' = false ->
  dotSet (setPixel x y c b) x' y'
    = (if decide (x' = x /\ y' = y) then true else dotSet b x' y')
  /\ dotSet (unsetPixel x y b) x' y'
    = (if decide (x' = x /\ y' = y) then false else dotSet b x' y').
Proof.
  intros Hnew b Hin Hin'.
  assert (Hwf : wf b) by (apply run_wf; by eapply new_wf).
  apply outside_inv in Hin as [Hx Hy]. apply outside_inv in Hin' as [Hx' Hy'].
  split; [by apply dotSet_setPixel | by apply dotSet_unsetPixel].
Qed.

Lemma pixels_independent_witness :
  exists b0, new 8 8 = Some b0
  /\ dotSet (setPixel 2 3 5 (run [SetPixel 3 3 1] b0)) 3 3 = true
  /\ dotSet (unsetPixel 2 3 (run [SetPixel 3 3 1] b0)) 3 3 = true.
Proof.
  eexists. split; [reflexivity|].
  pose proof (pixels_independent 8 8 _ [SetPixel 3 3 1] 2 3 5 3 3 eq_refl eq_refl eq_refl)
    as [Hs Hu].
  split; [exact Hs | exact Hu].
Defined.

End PixelClaims.

Section ExportGeometry.
Import BrailleBuffer.

Lemma arr_set_unit (a : list (option jsstr)) (i : Z) (g : jsstr) :
  length g = 1%nat ->
  Forall (fun o => forall g, o = Some g -> length g = 1%nat) a ->
  Forall (fun o => forall g, o = Some g -> length g = 1%nat) (arr_set a i (Some g)).
Proof.
  intros Hg Ha. unfold arr_set. destruct (i <? 0); [done|].
  destruct (_ <? _)%nat.
  - apply Forall_insert; [done|]. by intros ? [= <-].
  - rewrite !Forall_app. repeat split; [done| |].
    + apply Forall_replicate. discriminate.
    + constructor; [|constructor]. by intros ? [= <-].
Qed.

Lemma setChar_unit (ch : jsstr) (x y c : Z) (b : t) :
  length ch = 1%nat -> unit_glyphs b -> unit_glyphs (setChar ch x y c b).
Proof.
  intros Hch Hb. unfold setChar. destruct (outside b x y); [done|].
  unfold unit_glyphs. simpl. by apply arr_set_unit.
Qed.

Lemma writeText_loop_unit (s : jsstr) (x y c : Z) (n i0 : nat) (b : t) :
  (i0 + n <= length s)%nat -> unit_glyphs b -> unit_glyphs (writeText_loop s x y c i0 n b).
Proof.
  revert i0 b. induction n as [|n IH]; intros i0 b Hn Hb; simpl; [done|].
  apply IH; [lia|]. apply setChar_unit; [|done].
  unfold charAt. destruct (lookup_lt_is_Some_2 s i0) as [u ->]; [lia|]. reflexivity.
Qed.

Lemma apply_unit (b : t) (o : op) : unit_op o -> unit_glyphs b -> unit_glyphs (apply b o).
Proof.
  intros Ho Hb. destruct o; simpl in *.
  - unfold setPixel. destruct (outside b x y); [done|]. by destruct (dotMask x y).
  - unfold unsetPixel. destruct (outside b x y); [done|]. by destruct (dotMask x y).
  - unfold setBackground. by destruct (outside b x y).
  - by apply setChar_unit.
  - unfold writeText. apply writeText_loop_unit; [lia|done].
  - unfold unit_glyphs. simpl. apply Forall_replicate. discriminate.
  - done.
Qed.

Lemma run_unit (ops : list op) (b : t) :
  Forall unit_op ops -> unit_glyphs b -> unit_glyphs (run ops b).
Proof.
  intros Hops. revert b. induction Hops as [|o ops Ho _ IH]; intros b Hb; simpl; [done|].
  apply IH. by apply apply_unit.
Qed.

Lemma new_unit (w h : Z) (b : t) : new w h = Some b -> unit_glyphs b.
Proof.
  unfold new. destruct (_ <? 0); [discriminate|]. intros [= <-].
  unfold unit_glyphs. simpl. apply Forall_replicate. discriminate.
Qed.

Lemma arr_get_unit (b : t) (i : Z) (g : jsstr) :
  unit_glyphs b -> arr_get (charBuffer b) i = Some g -> length g = 1%nat.
Proof.
  intros Hc. unfold arr_get. destruct (i <? 0); [done|].
  destruct (charBuffer b !! Z.to_nat i) as [o|] eqn:E; simpl; [|done].
  intros ->. eapply Forall_lookup_1 in Hc; eauto.
Qed.

Lemma extraColumns_unit (g : jsstr) : length g = 1%nat -> extraColumns g = 0.
Proof. intros Hg. unfold extraColumns. rewrite Hg. reflexivity. Qed.

(** With glyphs of one unit each cell adds one unit to its row. *)
Lemma plain_cells_units (b : t) (cy : Z) (cols : list Z) (parts : list jsstr) :
  unit_glyphs b ->
  exists parts',
    fold_left (toPlainLines_cell b cy) cols (0, parts) = (0, parts ++ parts')
    /\ length (join parts') = length cols.
Proof.
  intros Hb. revert parts. induction cols as [|cx cols IH]; intros parts; cbn [fold_left].
  - exists []. by rewrite app_nil_r.
  - assert (Hstep : exists g, toPlainLines_cell b cy (0, parts) cx = (0, parts ++ [g])
                              /\ length g = 1%nat).
    { unfold toPlainLines_cell.
      destruct (arr_get (charBuffer b) (cy * charWidth b + cx)) as [g|] eqn:E.
      - pose proof (arr_get_unit b _ g Hb E) as Hg.
        rewrite (extraColumns_unit g Hg). exists g. by split.
      - eexists. split; reflexivity. }
    destruct Hstep as (g & -> & Hg).
    destruct (IH (parts ++ [g])) as (parts' & -> & Hlen).
    exists (g :: parts'). split; [by rewrite <- app_assoc|].
    unfold join in *. simpl. rewrite length_app, Hg, Hlen. reflexivity.
Qed.

Lemma colored_cells_units (b : t) (cy : Z) (cols : list Z) (row : list ColoredCell) :
  unit_glyphs b ->
  exists row',
    fold_left (toColoredCells_cell b cy) cols (0, row) = (0, row ++ row')
    /\ length row' = length cols.
Proof.
  intros Hb. revert row. induction cols as [|cx cols IH]; intros row; cbn [fold_left].
  - exists []. by rewrite app_nil_r.
  - assert (Hstep : exists cell, toColoredCells_cell b cy (0, row) cx = (0, row ++ [cell])).
    { unfold toColoredCells_cell.
      destruct (arr_get (charBuffer b) (cy * charWidth b + cx)) as [g|] eqn:E.
      - pose proof (arr_get_unit b _ g Hb E) as Hg.
        rewrite (extraColumns_unit g Hg). eexists. reflexivity.
      - eexists. reflexivity. }
    destruct Hstep as (cell & ->).
    destruct (IH (row ++ [cell])) as (row' & -> & Hlen).
    exists (cell :: row'). split; [by rewrite <- app_assoc|].
    simpl. by rewrite Hlen.
Qed.

(** [toLines] gives one line for each row of cells. *)
Lemma toLines_rows_length (b : t) (rws : list Z) (cc : option jsstr) (lines : list jsstr) :
  length (snd (fold_left (toLines_row b) rws (cc, lines))) = (length lines + length rws)%nat.
Proof.
  revert cc lines. induction rws as [|cy rws IH]; intros cc lines; cbn [fold_left].
  - simpl. lia.
  - unfold toLines_row at 2.
    destruct (fold_left (toLines_cell b cy) (columns b) (cc, 0, [])) as [[cc' skip] parts].
    rewrite IH, length_app. simpl. lia.
Qed.

Lemma columns_length (b : t) : length (columns b) = Z.to_nat (charWidth b).
Proof. unfold columns. by rewrite length_map, length_seq. Qed.

Lemma rows_length (b : t) : length (rows b) = Z.to_nat (charHeight b).
Proof. unfold rows. by rewrite length_map, length_seq. Qed.

End ExportGeometry.

Section GeometryClaims.
Import BrailleBuffer.

(** The exports have the shape of the cell grid: each gives one row for
    each row of cells, and, when every glyph written is a single UTF-16
    unit (as those of [writeText] are), each plain row has one unit and
    each coloured row one cell for each column. *)
Theorem exports_match_grid (w h : Z) (b0 : t) (ops : list op) :
  new w h = Some b0 -> Forall unit_op ops ->
  let b := run ops b0 in
  let columns := Z.to_nat (charWidth b0) in
  let rows := Z.to_nat (charHeight b0) in
  length (toLines b) = rows
  /\ length (toPlainLines b) = rows
  /\ length (toColoredCells b) = rows
  /\ Forall (fun row => length row = columns) (toPlainLines b)
  /\ Forall (fun row => length row = columns) (toColoredCells b).
Proof.
  intros Hnew Hops b cols rws. subst cols rws.
  assert (Hu : unit_glyphs b) by (apply run_unit; [done | by eapply new_unit]).
  pose proof (run_dims ops b0) as Hd. fold b in Hd.
  injection Hd as _ _ Hcw Hch. rewrite <- Hcw, <- Hch.
  split; [|split; [|split; [|split]]].
  - unfold toLines. rewrite toLines_rows_length. simpl. apply rows_length.
  - unfold toPlainLines. rewrite length_map. apply rows_length.
  - unfold toColoredCells. rewrite length_map. apply rows_length.
  - unfold toPlainLines. apply Forall_map. apply Forall_forall. intros cy _.
    unfold toPlainLines_row.
    destruct (plain_cells_units b cy (columns b) [] Hu) as (parts' & -> & Hlen).
    simpl. rewrite Hlen. apply columns_length.
  - unfold toColoredCells. apply Forall_map. apply Forall_forall. intros cy _.
    unfold toColoredCells_row.
    destruct (colored_cells_units b cy (columns b) [] Hu) as (row' & -> & Hlen).
    simpl. rewrite Hlen. apply columns_length.
Qed.

Lemma exports_match_grid_witness :
  exists b0, new 9 9 = Some b0
  /\ let b := run [WriteText [72; 105] 0 0 7 false; SetPixel 5 5 3] b0 in
     length (toPlainLines b) = 2%nat
     /\ Forall (fun row => length row = 4%nat) (toPlainLines b).
Proof.
  eexists. split; [reflexivity|].
  pose proof (exports_match_grid 9 9 _ [WriteText [72; 105] 0 0 7 false; SetPixel 5 5 3]
                eq_refl ltac:(repeat constructor)) as H.
  cbv zeta in H. destruct H as (_ & Hrows & _ & Hcols & _).
  split; [exact Hrows | exact Hcols].
Defined.

(** [clear] takes a buffer back to the state the constructor left it in,
    but for the global background, which it keeps. *)
Theorem clear_restores_new (w h : Z) (b0 : t) (ops : list op) :
  new w h = Some b0 ->
  clear (run ops b0) = with_globalBackground b0 (globalBackground (run ops b0)).
Proof.
  intros Hnew.
  assert (Hwf : wf (run ops b0)) by (apply run_wf; by eapply new_wf).
  pose proof (run_dims ops b0) as Hd. injection Hd as Hw Hh Hcw Hch.
  destruct Hwf as [_ _ Hp Hf Hg Hc _ _ _].
  unfold clear. rewrite Hp, Hf, Hg, Hc, Hw, Hh, Hcw, Hch.
  unfold new in Hnew. destruct (_ <? 0); [discriminate|]. injection Hnew as <-.
  reflexivity.
Qed.

Lemma clear_restores_new_witness :
  exists b0, new 8 8 = Some b0
  /\ clear (run [SetGlobalBackground 232; SetPixel 1 1 9; WriteText [65] 0 0 7 false] b0)
     = with_globalBackground b0 232.
Proof.
  eexists. split; [reflexivity|].
  apply (clear_restores_new 8 8 _
           [SetGlobalBackground 232; SetPixel 1 1 9; WriteText [65] 0 0 7 false] eq_refl).
Defined.

End GeometryClaims.

Section ColourState.
Import BrailleBuffer.

(** Every cell leaves its own colour sequence as the current one. *)
Lemma toLines_cell_colour (b : t) (cy cx : Z) (st : option jsstr * Z * list jsstr) :
  fst (fst (toLines_cell b cy st cx)) = Some (cellCode b cy cx).
Proof.
  destruct st as [[cc skip] parts]. unfold toLines_cell, cellCode. cbv zeta.
  set (code := termColor b _ _).
  destruct (bool_decide (cc = Some code)) eqn:E.
  - apply bool_decide_eq_true in E. subst cc.
    destruct (arr_get _ _); destruct (0 <? skip); reflexivity.
  - destruct (arr_get _ _); destruct (0 <? skip); reflexivity.
Qed.

Lemma toLines_cells_colour (b : t) (cy : Z) (cols : list Z) (cx : Z)
    (st : option jsstr * Z * list jsstr) :
  fst (fst (fold_left (toLines_cell b cy) (cols ++ [cx]) st)) = Some (cellCode b cy cx).
Proof. rewrite fold_left_app. cbn [fold_left]. apply toLines_cell_colour. Qed.

(** The cells of a row add to its parts and take none away. *)
Lemma toLines_cells_extend (b : t) (cy : Z) (cols : list Z) :
  forall cc skip parts,
    exists more,
      snd (fold_left (toLines_cell b cy) cols (cc, skip, parts)) = parts ++ more.
Proof.
  induction cols as [|cx cols IH]; intros cc skip parts; cbn [fold_left].
  - exists []. by rewrite app_nil_r.
  - assert (Hstep : exists cc' skip' more,
               toLines_cell b cy (cc, skip, parts) cx = (cc', skip', parts ++ more)).
    { unfold toLines_cell. cbv zeta.
      destruct (bool_decide _); destruct (arr_get _ _); destruct (0 <? skip);
        try (do 3 eexists; rewrite <- ?app_assoc; reflexivity);
        do 2 eexists; exists []; by rewrite app_nil_r. }
    destruct Hstep as (cc' & skip' & more & ->).
    destruct (IH cc' skip' (parts ++ more)) as (more' & ->).
    exists (more ++ more'). by rewrite app_assoc.
Qed.

Lemma columns_first (b : t) :
  0 < charWidth b -> exists rest, columns b = 0 :: rest.
Proof.
  intros Hw. unfold columns. destruct (Z.to_nat (charWidth b)) as [|n] eqn:E; [lia|].
  cbn [seq map]. eauto.
Qed.

Lemma columns_last (b : t) :
  0 < charWidth b -> exists front, columns b = front ++ [charWidth b - 1].
Proof.
  intros Hw. unfold columns. destruct (Z.to_nat (charWidth b)) as [|n] eqn:E; [lia|].
  rewrite seq_S, map_app. cbn [map Nat.add]. eexists. f_equal. f_equal. lia.
Qed.

Lemma toLines_row_unfold (b : t) (cc : option jsstr) (lines : list jsstr) (cy : Z) :
  toLines_row b (cc, lines) cy
  = (fst (fst (fold_left (toLines_cell b cy) (columns b) (cc, 0, []))),
     lines ++ [line_from b cc cy]).
Proof.
  unfold toLines_row, line_from.
  by destruct (fold_left (toLines_cell b cy) (columns b) (cc, 0, [])) as [[cc' skip] parts].
Qed.

Lemma toLines_rows_extend (b : t) (rws : list Z) :
  forall cc lines,
    exists more,
      snd (fold_left (toLines_row b) rws (cc, lines)) = lines ++ more
      /\ length more = length rws.
Proof.
  induction rws as [|cy rws IH]; intros cc lines; cbn [fold_left].
  - exists []. by rewrite app_nil_r.
  - rewrite toLines_row_unfold.
    destruct (IH (fst (fst (fold_left (toLines_cell b cy) (columns b) (cc, 0, []))))
                 (lines ++ [line_from b cc cy])) as (more & -> & Hlen).
    exists (line_from b cc cy :: more). rewrite <- app_assoc. split; [done|].
    simpl. by rewrite Hlen.
Qed.

(** The state of the row loop once the rows up to [cy] are done. *)
Lemma toLines_rows_upto (b : t) (cy : Z) (front : list Z) :
  0 < charWidth b ->
  forall cc lines,
    exists cc0 done,
      fold_left (toLines_row b) (front ++ [cy]) (cc, lines)
      = (Some (cellCode b cy (charWidth b - 1)), lines ++ done ++ [line_from b cc0 cy])
      /\ length done = length front.
Proof.
  intros Hw cc lines. rewrite fold_left_app. cbn [fold_left].
  destruct (fold_left (toLines_row b) front (cc, lines)) as [cc0 lines0] eqn:E.
  destruct (toLines_rows_extend b front cc lines) as (done & Hd & Hlen).
  rewrite E in Hd. simpl in Hd. subst lines0.
  rewrite toLines_row_unfold.
  destruct (columns_last b Hw) as [cfront ->].
  rewrite toLines_cells_colour.
  exists cc0, done. rewrite <- app_assoc. by split.
Qed.

Lemma rows_split (b : t) (cy : Z) :
  0 <= cy < charHeight b ->
  exists front back,
    rows b = front ++ [cy] ++ back /\ length front = Z.to_nat cy.
Proof.
  intros Hcy. unfold rows.
  replace (Z.to_nat (charHeight b)) with (Z.to_nat cy + S (Z.to_nat (charHeight b - cy - 1)))%nat by lia.
  rewrite seq_app, map_app. cbn [seq map Nat.add].
  exists (map Z.of_nat (seq 0 (Z.to_nat cy))),
         (map Z.of_nat (seq (S (Z.to_nat cy)) (Z.to_nat (charHeight b - cy - 1)))).
  split.
  - f_equal. cbn [app]. f_equal. lia.
  - by rewrite length_map, length_seq.
Qed.

End ColourState.

Section ColourClaims.
Import BrailleBuffer.

(** [toLines] carries the current colour from one row to the next, while
    it ends every line with the sequence that resets the colours: when
    the first cell of a row has the colours of the last cell of the row
    above, the line of that row starts with the cell's glyph, with no
    colour sequence before it. *)
Theorem colour_carried_over_rows (w h : Z) (b0 : t) (ops : list op) (cy : Z) :
  new w h = Some b0 ->
  let b := run ops b0 in
  0 <= cy -> cy + 1 < charHeight b -> 0 < charWidth b ->
  cellCode b cy (charWidth b - 1) = cellCode b (cy + 1) 0 ->
  (exists body, toLines b !! Z.to_nat cy = Some (body ++ termReset))
  /\ (exists rest,
        toLines b !! Z.to_nat (cy + 1) = Some (cellGlyph b (cy + 1) 0 ++ rest)).
Proof.
  intros Hnew b Hcy Hnext Hw Hsame.
  assert (Hwf : wf b) by (apply run_wf; by eapply new_wf).
  destruct (rows_split b cy ltac:(lia)) as (front & back & Hrows & Hfront).
  assert (Hback : exists back', back = (cy + 1) :: back').
  { unfold rows in Hrows.
    assert (Hnth : map Z.of_nat (seq 0 (Z.to_nat (charHeight b))) !! S (Z.to_nat cy)
                   = Some (cy + 1)).
    { rewrite list_lookup_fmap, lookup_seq_lt by lia. simpl. f_equal. lia. }
    rewrite Hrows in Hnth. rewrite lookup_app_r in Hnth by lia.
    rewrite Hfront in Hnth. replace (S (Z.to_nat cy) - Z.to_nat cy)%nat with 1%nat in Hnth by lia.
    simpl in Hnth. destruct back as [|c back']; [discriminate|].
    injection Hnth as ->. eauto. }
  destruct Hback as [back' ->].
  unfold toLines. rewrite Hrows.
  replace (front ++ [cy] ++ (cy + 1) :: back') with ((front ++ [cy]) ++ (cy + 1) :: back')
    by (by rewrite <- app_assoc).
  rewrite fold_left_app.
  destruct (toLines_rows_upto b cy front Hw None []) as (cc0 & done & -> & Hdone).
  cbn [fold_left app]. rewrite toLines_row_unfold.
  match goal with
  | |- context [fold_left (toLines_row b) back' (?c, ?l)] =>
      destruct (toLines_rows_extend b back' c l) as (more & -> & _)
  end.
  split.
  - exists (join (fold_left (toLines_cell b cy) (columns b) (cc0, 0, [])).2).
    rewrite <- app_assoc. cbn [app]. rewrite <- app_assoc. cbn [app].
    rewrite list_lookup_middle by lia.
    unfold line_from, join. rewrite concat_app. simpl. reflexivity.
  - destruct (columns_first b Hw) as [rest Hcols].
    assert (Hfirst : toLines_cell b (cy + 1) (Some (cellCode b cy (charWidth b - 1)), 0, []) 0
                     = (Some (cellCode b (cy + 1) 0),
                        0 + (match arr_get (charBuffer b) ((cy + 1) * charWidth b + 0) with
                             | Some g => extraColumns g | None => 0 end),
                        [cellGlyph b (cy + 1) 0])).
    { unfold toLines_cell, cellGlyph. cbv zeta. fold (cellCode b (cy + 1) 0).
      rewrite <- Hsame. rewrite bool_decide_eq_true_2 by reflexivity.
      destruct (arr_get _ _) as [g|]; [reflexivity|]. simpl.
      assert (Hidx : 0 <= (cy + 1) * charWidth b + 0 < Z.of_nat (length (pixelBuffer b))).
      { rewrite (wf_pixel b Hwf). nia. }
      destruct (ta_get_in_range _ _ Hidx) as [p ->]. reflexivity. }
    assert (Hline : exists rest',
               line_from b (Some (cellCode b cy (charWidth b - 1))) (cy + 1)
               = cellGlyph b (cy + 1) 0 ++ rest').
    { unfold line_from. rewrite Hcols. cbn [fold_left]. rewrite Hfirst.
      match goal with
      | |- context [fold_left (toLines_cell b (cy + 1)) rest (?c, ?k, ?p)] =>
          destruct (toLines_cells_extend b (cy + 1) rest c k p) as (more' & ->)
      end.
      exists (join (more' ++ [termReset])). unfold join. by rewrite <- app_assoc. }
    destruct Hline as [rest' Hline]. exists rest'. rewrite <- Hline.
    rewrite <- app_assoc. cbn [app].
    apply list_lookup_middle. rewrite length_app. simpl. lia.
Qed.

Lemma colour_carried_over_rows_witness :
  exists b0, new 8 8 = Some b0
  /\ let b := run [SetPixel 7 0 5; SetPixel 0 4 5] b0 in
     (exists body, toLines b !! Z.to_nat 0 = Some (body ++ termReset))
     /\ (exists rest, toLines b !! Z.to_nat (0 + 1) = Some (cellGlyph b (0 + 1) 0 ++ rest)).
Proof.
  eexists. split; [reflexivity|].
  apply (colour_carried_over_rows 8 8 _ [SetPixel 7 0 5; SetPixel 0 4 5] 0 eq_refl);
    try (simpl; lia); reflexivity.
Defined.

End ColourClaims.

(** ** The canvas: lines, polylines and polygons *)

Section Painting.
Import BrailleBuffer.

Lemma painted_within_refl (P : Z -> Z -> Prop) (b : t) : painted_within P b b.
Proof. unfold painted_within. repeat split; reflexivity. Qed.

Lemma painted_within_trans (P : Z -> Z -> Prop) (b1 b2 b3 : t) :
  painted_within P b1 b2 -> painted_within P b2 b3 -> painted_within P b1 b3.
Proof.
  intros (Hd1 & Hc1 & Hb1 & Hg1 & Hp1) (Hd2 & Hc2 & Hb2 & Hg2 & Hp2).
  unfold painted_within. split; [congruence|]. split; [congruence|].
  split; [congruence|]. split; [congruence|].
  intros x y Hin HP. rewrite Hp2, Hp1; try done.
  unfold outside in *. injection Hd1 as -> -> _ _. exact Hin.
Qed.

Lemma painted_within_weaken (P Q : Z -> Z -> Prop) (b b' : t) :
  (forall x y, P x y -> Q x y) -> painted_within P b b' -> painted_within Q b b'.
Proof.
  intros HPQ (Hd & Hc & Hb & Hg & Hp). unfold painted_within.
  repeat (split; [assumption|]). intros x y Hin HQ. apply Hp; [exact Hin|]. auto.
Qed.

(** [setPixel] at a pixel that satisfies [P]. *)
Lemma setPixel_painted (P : Z -> Z -> Prop) (x y c : Z) (b : t) :
  wf b -> P x y -> painted_within P b (setPixel x y c b).
Proof.
  intros Hwf HP. destruct (outside b x y) eqn:Hout.
  - unfold setPixel. rewrite Hout. apply painted_within_refl.
  - pose proof (outside_inv b x y Hout) as [Hx Hy].
    unfold painted_within. split; [|split; [|split; [|split]]].
    + unfold setPixel. rewrite Hout. by destruct (dotMask x y).
    + unfold setPixel. rewrite Hout. by destruct (dotMask x y).
    + unfold setPixel. rewrite Hout. by destruct (dotMask x y).
    + unfold setPixel. rewrite Hout. by destruct (dotMask x y).
    + intros x' y' Hin' HnP. apply outside_inv in Hin' as [Hx' Hy'].
      rewrite dotSet_setPixel by assumption.
      rewrite decide_False; [reflexivity|]. intros [-> ->]. by apply HnP.
Qed.

Lemma painted_within_wf (P : Z -> Z -> Prop) (x y c : Z) (b : t) :
  wf b -> wf (setPixel x y c b).
Proof. apply setPixel_wf. Qed.

End Painting.

Section LineProperties.
Import Canvas.

Lemma paint_wf (color : Z) (pts : list Point) (b : BrailleBuffer.t) :
  BrailleBuffer.wf b -> BrailleBuffer.wf (paint color pts b).
Proof.
  revert b. induction pts as [|p pts IH]; intros b Hwf; [exact Hwf|].
  unfold paint in *. cbn [fold_left]. apply IH. by apply setPixel_wf.
Qed.

Lemma paint_painted (P : Z -> Z -> Prop) (color : Z) (pts : list Point) (b : BrailleBuffer.t) :
  BrailleBuffer.wf b -> Forall (fun p => P (x p) (y p)) pts ->
  BrailleBuffer.painted_within P b (paint color pts b).
Proof.
  intros Hwf Hpts. revert b Hwf.
  induction Hpts as [|p pts Hp _ IH]; intros b Hwf; [apply painted_within_refl|].
  unfold paint in *. cbn [fold_left].
  eapply painted_within_trans; [by apply setPixel_painted|].
  apply IH. by apply setPixel_wf.
Qed.

(** The dots after a list of pixels is painted: those set before, and
    those of the list. *)
Lemma paint_dots (color : Z) (pts : list Point) (b : BrailleBuffer.t) (qx qy : Z) :
  BrailleBuffer.wf b -> BrailleBuffer.outside b qx qy = false ->
  BrailleBuffer.dotSet (paint color pts b) qx qy = true
  <-> BrailleBuffer.dotSet b qx qy = true \/ mkPoint qx qy ∈ pts.
Proof.
  intros Hwf Hin. revert b Hwf Hin.
  induction pts as [|p pts IH]; intros b Hwf Hin.
  - simpl. split; [by left|]. intros [?|Hel]; [done|]. by apply elem_of_nil in Hel.
  - unfold paint in *. cbn [fold_left].
    assert (Hin' : BrailleBuffer.outside (BrailleBuffer.setPixel (x p) (y p) color b) qx qy = false).
    { destruct (setPixel_painted (fun _ _ => True) (x p) (y p) color b Hwf I) as (Hd & _).
      unfold BrailleBuffer.outside in *. injection Hd as -> -> _ _. exact Hin. }
    rewrite IH by (try apply setPixel_wf; assumption).
    rewrite elem_of_cons.
    destruct (BrailleBuffer.outside b (x p) (y p)) eqn:Hout.
    + assert (Hsame : BrailleBuffer.setPixel (x p) (y p) color b = b)
        by (unfold BrailleBuffer.setPixel; by rewrite Hout).
      rewrite Hsame. split; [tauto|]. intros [?|[Heq|?]]; [tauto| |tauto].
      exfalso. subst p. cbn [x y] in Hout. congruence.
    + apply outside_inv in Hout as [Hx Hy]. pose proof (outside_inv _ _ _ Hin) as [Hqx Hqy].
      rewrite dotSet_setPixel by assumption.
      destruct (decide (qx = x p /\ qy = y p)) as [[-> ->]|Hne].
      * split; [intros _; right; left; by destruct p | intros _; by left].
      * split; [tauto|]. intros [?|[Heq|?]]; [tauto| |tauto].
        exfalso. apply Hne. by subst p.
Qed.

(** [_bresenhamLine] paints the pixels that [_bresenhamPoints] lists. *)
Lemma bresenhamLine_loop_points (color : Z) (x1 y1 dx dy sx sy : Z) :
  forall (fuel : nat) (x0 y0 err : Z) (b : BrailleBuffer.t),
    bresenhamLine_loop fuel x0 y0 x1 y1 dx dy sx sy err color b
    = (fun pts => paint color pts b) <$> bresenham_loop fuel x0 y0 x1 y1 dx dy sx sy err.
Proof.
  induction fuel as [|fuel IH]; intros x0 y0 err b; [reflexivity|].
  cbn [bresenhamLine_loop bresenham_loop].
  destruct ((x0 =? x1) && (y0 =? y1)); [reflexivity|]. cbv zeta.
  destruct (2 * err >? - dy); destruct (2 * err <? dx); rewrite IH;
    by destruct (bresenham_loop fuel _ _ x1 y1 dx dy sx sy _).
Qed.

Lemma bresenhamLine_points (x0 y0 x1 y1 color : Z) (b : BrailleBuffer.t) :
  bresenhamLine x0 y0 x1 y1 color b
  = (fun pts => paint color pts b) <$> bresenhamPoints x0 y0 x1 y1.
Proof. unfold bresenhamLine, bresenhamPoints. apply bresenhamLine_loop_points. Qed.

End LineProperties.
Section EdgeWalk.
Import Canvas.

Lemma bresenham_loop_S (fuel : nat) (x y bx by_ dx dy sx sy err : Z) :
  bresenham_loop (S fuel) x y bx by_ dx dy sx sy err
  = if (x =? bx) && (y =? by_) then Some [mkPoint x y]
    else
      let e2 := 2 * err in
      let '(err1, x1) := if e2 >? - dy then (err - dy, x + sx) else (err, x) in
      let '(err2, y1) := if e2 <? dx then (err1 + dx, y + sy) else (err1, y) in
      match bresenham_loop fuel x1 y1 bx by_ dx dy sx sy err2 with
      | Some r => Some (mkPoint x y :: r)
      | None => None
      end.
Proof. reflexivity. Qed.

Lemma walk_from_end (bx by_ dx dy sx sy : Z) :
  0 <= dx -> 0 <= dy ->
  walk_from bx by_ dx dy sx sy 0 0 0 [mkPoint (bx - sx * 0) (by_ - sy * 0)].
Proof.
  intros Hdx Hdy. unfold walk_from. rewrite !Z.mul_0_r, !Z.sub_0_r.
  split; [reflexivity|]. split; [reflexivity|]. split; [reflexivity|].
  split; [exact I|].
  constructor; [|constructor]. exists 0, 0. simpl. lia.
Qed.

Lemma walk_from_cons (bx by_ dx dy sx sy rx ry rx' ry' n : Z) (pts : list Point) :
  (sx = 1 \/ sx = -1) -> (sy = 1 \/ sy = -1) ->
  0 <= rx <= dx -> 0 <= ry <= dy -> 0 <= n ->
  0 <= rx - rx' <= 1 -> 0 <= ry - ry' <= 1 -> (rx, ry) <> (rx', ry') ->
  walk_from bx by_ dx dy sx sy rx' ry' n pts ->
  walk_from bx by_ dx dy sx sy rx ry (n + 1)
            (mkPoint (bx - sx * rx) (by_ - sy * ry) :: pts).
Proof.
  intros Hsx Hsy Hrx Hry Hn Hdx Hdy Hne (Hlen & Hhead & Hlast & Hconn & Hbox).
  destruct pts as [|q rest]; [discriminate Hhead|].
  injection Hhead as ->.
  unfold walk_from. split; [|split; [|split; [|split]]].
  - cbn [length] in *. rewrite Hlen. lia.
  - reflexivity.
  - rewrite last_cons_cons. exact Hlast.
  - cbn [connected]. split; [|exact Hconn].
    unfold adjacent. cbn [x y].
    assert (rx <> rx' \/ ry <> ry') by (destruct (Z.eq_dec rx rx'); [right; congruence | by left]).
    destruct Hsx as [-> | ->]; destruct Hsy as [-> | ->]; lia.
  - constructor; [|exact Hbox]. exists rx, ry. cbn [x y]. lia.
Qed.

(** The walk along a line that is at least as wide as it is high moves
    one column at every step. *)
Lemma bresenham_loop_wide (bx by_ dx dy sx sy : Z) :
  0 < dx -> 0 <= dy <= dx -> (sx = 1 \/ sx = -1) -> (sy = 1 \/ sy = -1) ->
  forall (fuel : nat) (rx ry : Z),
    0 <= rx <= dx -> 0 <= ry <= dy ->
    - dy < 2 * (dx - dy + rx * dy - ry * dx) < 3 * dx - 2 * dy ->
    rx < Z.of_nat fuel ->
    exists pts,
      bresenham_loop fuel (bx - sx * rx) (by_ - sy * ry) bx by_ dx dy sx sy
                     (dx - dy + rx * dy - ry * dx) = Some pts
      /\ walk_from bx by_ dx dy sx sy rx ry rx pts.
Proof.
  intros Hdx Hdy Hsx Hsy.
  induction fuel as [|fuel IH]; intros rx ry Hrx Hry Hinv Hfuel; [lia|].
  rewrite bresenham_loop_S.
  destruct ((bx - sx * rx =? bx) && (by_ - sy * ry =? by_)) eqn:Hend.
  - apply andb_prop in Hend as [Hex Hey]. apply Z.eqb_eq in Hex, Hey.
    assert (rx = 0) as -> by (destruct Hsx as [-> | ->]; lia).
    assert (ry = 0) as -> by (destruct Hsy as [-> | ->]; lia).
    eexists. split; [reflexivity|]. apply walk_from_end; lia.
  - assert (Hleft : 0 < rx + ry).
    { destruct (Z.eqb_spec (bx - sx * rx) bx); destruct (Z.eqb_spec (by_ - sy * ry) by_);
        try discriminate; nia. }
    set (err := dx - dy + rx * dy - ry * dx) in *. cbv zeta.
    destruct (Z.gtb_spec (2 * err) (- dy)) as [Hx|Hx]; [|lia].
    assert (Hrx1 : 1 <= rx) by (subst err; nia).
    destruct (Z.ltb_spec (2 * err) dx) as [Hy|Hy].
    + assert (Hry1 : 1 <= ry) by (subst err; nia).
      destruct (IH (rx - 1) (ry - 1)) as (pts & Hpts & Hwalk); [lia|lia| |lia|].
      { subst err. lia. }
      replace (bx - sx * rx + sx) with (bx - sx * (rx - 1)) by lia.
      replace (by_ - sy * ry + sy) with (by_ - sy * (ry - 1)) by lia.
      replace (err - dy + dx) with (dx - dy + (rx - 1) * dy - (ry - 1) * dx)
        by (subst err; lia).
      rewrite Hpts. eexists. split; [reflexivity|].
      assert (Hw : walk_from bx by_ dx dy sx sy rx ry (rx - 1 + 1)
                             (mkPoint (bx - sx * rx) (by_ - sy * ry) :: pts)).
      { apply walk_from_cons with (rx' := rx - 1) (ry' := ry - 1); try assumption; try lia.
        intros [= ? ?]. lia. }
      by replace (rx - 1 + 1) with rx in Hw by lia.
    + destruct (IH (rx - 1) ry) as (pts & Hpts & Hwalk); [lia|lia| |lia|].
      { subst err. lia. }
      replace (bx - sx * rx + sx) with (bx - sx * (rx - 1)) by lia.
      replace (err - dy) with (dx - dy + (rx - 1) * dy - ry * dx) by (subst err; lia).
      rewrite Hpts. eexists. split; [reflexivity|].
      assert (Hw : walk_from bx by_ dx dy sx sy rx ry (rx - 1 + 1)
                             (mkPoint (bx - sx * rx) (by_ - sy * ry) :: pts)).
      { apply walk_from_cons with (rx' := rx - 1) (ry' := ry); try assumption; try lia.
        intros [= ?]. lia. }
      by replace (rx - 1 + 1) with rx in Hw by lia.
Qed.

(** And along one that is at least as high as it is wide, one row. *)
Lemma bresenham_loop_tall (bx by_ dx dy sx sy : Z) :
  0 < dy -> 0 <= dx <= dy -> (sx = 1 \/ sx = -1) -> (sy = 1 \/ sy = -1) ->
  forall (fuel : nat) (rx ry : Z),
    0 <= rx <= dx -> 0 <= ry <= dy ->
    2 * dx - 3 * dy < 2 * (dx - dy + rx * dy - ry * dx) < dx ->
    ry < Z.of_nat fuel ->
    exists pts,
      bresenham_loop fuel (bx - sx * rx) (by_ - sy * ry) bx by_ dx dy sx sy
                     (dx - dy + rx * dy - ry * dx) = Some pts
      /\ walk_from bx by_ dx dy sx sy rx ry ry pts.
Proof.
  intros Hdy Hdx Hsx Hsy.
  induction fuel as [|fuel IH]; intros rx ry Hrx Hry Hinv Hfuel; [lia|].
  rewrite bresenham_loop_S.
  destruct ((bx - sx * rx =? bx) && (by_ - sy * ry =? by_)) eqn:Hend.
  - apply andb_prop in Hend as [Hex Hey]. apply Z.eqb_eq in Hex, Hey.
    assert (rx = 0) as -> by (destruct Hsx as [-> | ->]; lia).
    assert (ry = 0) as -> by (destruct Hsy as [-> | ->]; lia).
    eexists. split; [reflexivity|]. apply walk_from_end; lia.
  - assert (Hleft : 0 < rx + ry).
    { destruct (Z.eqb_spec (bx - sx * rx) bx); destruct (Z.eqb_spec (by_ - sy * ry) by_);
        try discriminate; nia. }
    set (err := dx - dy + rx * dy - ry * dx) in *. cbv zeta.
    destruct (Z.ltb_spec (2 * err) dx) as [Hy|Hy]; [|lia].
    assert (Hry1 : 1 <= ry) by (subst err; nia).
    destruct (Z.gtb_spec (2 * err) (- dy)) as [Hx|Hx].
    + assert (Hrx1 : 1 <= rx) by (subst err; nia).
      destruct (IH (rx - 1) (ry - 1)) as (pts & Hpts & Hwalk); [lia|lia| |lia|].
      { subst err. lia. }
      replace (bx - sx * rx + sx) with (bx - sx * (rx - 1)) by lia.
      replace (by_ - sy * ry + sy) with (by_ - sy * (ry - 1)) by lia.
      replace (err - dy + dx) with (dx - dy + (rx - 1) * dy - (ry - 1) * dx)
        by (subst err; lia).
      rewrite Hpts. eexists. split; [reflexivity|].
      assert (Hw : walk_from bx by_ dx dy sx sy rx ry (ry - 1 + 1)
                             (mkPoint (bx - sx * rx) (by_ - sy * ry) :: pts)).
      { apply walk_from_cons with (rx' := rx - 1) (ry' := ry - 1); try assumption; try lia.
        intros [= ? ?]. lia. }
      by replace (ry - 1 + 1) with ry in Hw by lia.
    + destruct (IH rx (ry - 1)) as (pts & Hpts & Hwalk); [lia|lia| |lia|].
      { subst err. lia. }
      replace (by_ - sy * ry + sy) with (by_ - sy * (ry - 1)) by lia.
      replace (err + dx) with (dx - dy + rx * dy - (ry - 1) * dx) by (subst err; lia).
      rewrite Hpts. eexists. split; [reflexivity|].
      assert (Hw : walk_from bx by_ dx dy sx sy rx ry (ry - 1 + 1)
                             (mkPoint (bx - sx * rx) (by_ - sy * ry) :: pts)).
      { apply walk_from_cons with (rx' := rx) (ry' := ry - 1); try assumption; try lia.
        intros [= ?]. lia. }
      by replace (ry - 1 + 1) with ry in Hw by lia.
Qed.

Lemma bresenhamPoints_walk_from (ax ay bx by_ : Z) :
  let dx := Z.abs (bx - ax) in
  let dy := Z.abs (by_ - ay) in
  let sx := if ax <? bx then 1 else -1 in
  let sy := if ay <? by_ then 1 else -1 in
  exists pts,
    bresenhamPoints ax ay bx by_ = Some pts
    /\ walk_from bx by_ dx dy sx sy dx dy (Z.max dx dy) pts.
Proof.
  intros dx dy sx sy. unfold bresenhamPoints. fold dx dy sx sy.
  assert (Hx : ax = bx - sx * dx) by (subst sx dx; destruct (Z.ltb_spec ax bx); lia).
  assert (Hy : ay = by_ - sy * dy) by (subst sy dy; destruct (Z.ltb_spec ay by_); lia).
  assert (Hsx : sx = 1 \/ sx = -1) by (subst sx; destruct (ax <? bx); auto).
  assert (Hsy : sy = 1 \/ sy = -1) by (subst sy; destruct (ay <? by_); auto).
  assert (Hdx : 0 <= dx) by (subst dx; lia). assert (Hdy : 0 <= dy) by (subst dy; lia).
  cut (exists pts,
          bresenham_loop (Z.to_nat (dx + dy + 1)) (bx - sx * dx) (by_ - sy * dy)
                         bx by_ dx dy sx sy (dx - dy + dx * dy - dy * dx) = Some pts
          /\ walk_from bx by_ dx dy sx sy dx dy (Z.max dx dy) pts).
  { rewrite <- Hx, <- Hy. by replace (dx - dy + dx * dy - dy * dx) with (dx - dy) by lia. }
  clear Hx Hy.
  destruct (Z.le_gt_cases dy dx) as [Hwide|Htall].
  - destruct (Z.eq_dec dx 0) as [Hz|Hnz].
    + assert (Hz' : dy = 0) by lia. clearbody dx dy sx sy. subst dx dy.
      change (Z.to_nat (0 + 0 + 1)) with 1%nat. rewrite bresenham_loop_S.
      rewrite !Z.mul_0_r, !Z.sub_0_r, !Z.eqb_refl. cbn [andb].
      eexists. split; [reflexivity|].
      pose proof (walk_from_end bx by_ 0 0 sx sy ltac:(lia) ltac:(lia)) as Hw.
      by rewrite !Z.mul_0_r, !Z.sub_0_r in Hw.
    + rewrite Z.max_l by lia.
      apply bresenham_loop_wide; try assumption; try lia.
  - rewrite Z.max_r by lia.
    apply bresenham_loop_tall; try assumption; try lia.
Qed.

End EdgeWalk.

Section EdgeWalkClaims.
Import Canvas.

(** [_bresenhamPoints] walks from the first pixel to the second: it
    returns, whatever the two pixels; the list starts at the first and ends
    at the second; each pixel touches the next; none lies outside the box
    the two span; and there is one pixel for each step along the longer
    side of that box, and one more. *)
Theorem bresenhamPoints_walk (ax ay bx by_ : Z) :
  exists pts,
    bresenhamPoints ax ay bx by_ = Some pts
    /\ head pts = Some (mkPoint ax ay)
    /\ last pts = Some (mkPoint bx by_)
    /\ length pts = S (Z.to_nat (Z.max (Z.abs (bx - ax)) (Z.abs (by_ - ay))))
    /\ connected pts
    /\ Forall (in_box (mkPoint (Z.min ax bx) (Z.min ay by_))
                      (mkPoint (Z.max ax bx) (Z.max ay by_))) pts.
Proof.
  destruct (bresenhamPoints_walk_from ax ay bx by_)
    as (pts & Hpts & Hlen & Hhead & Hlast & Hconn & Hbox).
  exists pts. split; [exact Hpts|].
  split.
  { rewrite Hhead. f_equal. f_equal; destruct (Z.ltb_spec ax bx); destruct (Z.ltb_spec ay by_); lia. }
  split; [exact Hlast|]. split; [exact Hlen|]. split; [exact Hconn|].
  eapply Forall_impl; [exact Hbox|].
  intros p (qx & qy & Hqx & Hqy & Hpx & Hpy). unfold in_box. cbn [x y].
  rewrite Hpx, Hpy.
  destruct (Z.ltb_spec ax bx); destruct (Z.ltb_spec ay by_); lia.
Qed.

End EdgeWalkClaims.

Section PolylineProperties.
Import Canvas.
Local Open Scope Z_scope.

Lemma outside_painted (P : Z -> Z -> Prop) (b b' : BrailleBuffer.t) (qx qy : Z) :
  BrailleBuffer.painted_within P b b' ->
  BrailleBuffer.outside b' qx qy = BrailleBuffer.outside b qx qy.
Proof.
  intros (Hd & _). unfold BrailleBuffer.outside. by injection Hd as -> -> _ _.
Qed.

Lemma line_narrow (x0 y0 x1 y1 color : Z) (lineWidth : R) (fuel : nat) (b : BrailleBuffer.t) :
  (lineWidth <= 1)%R ->
  exists pts,
    bresenhamPoints x0 y0 x1 y1 = Some pts
    /\ line_ x0 y0 x1 y1 color lineWidth fuel b = Some (paint color pts b).
Proof.
  intros Hw. destruct (bresenhamPoints_returns x0 y0 x1 y1) as [pts Hpts].
  exists pts. split; [exact Hpts|]. unfold line_.
  destruct (Rle_dec lineWidth 1); [|done].
  by rewrite bresenhamLine_points, Hpts.
Qed.

Lemma on_polyline_cons (p : Point) (rest : list Point) (q : Point) :
  on_polyline (p :: rest) q
  <-> (exists p' pts, head rest = Some p'
                      /\ bresenhamPoints (x p) (y p) (x p') (y p') = Some pts /\ q ∈ pts)
      \/ on_polyline rest q.
Proof.
  unfold on_polyline. split.
  - intros (i & a & a' & pts & Ha & Ha' & Hpts & Hq). destruct i as [|i].
    + left. injection Ha as <-. exists a', pts. split; [|done].
      destruct rest; [discriminate|]. simpl in *. congruence.
    + right. exists i, a, a', pts. by repeat split.
  - intros [(p' & pts & Hh & Hpts & Hq)|(i & a & a' & pts & Ha & Ha' & Hpts & Hq)].
    + exists 0%nat, p, p', pts. repeat split; try done.
      destruct rest; [discriminate|]. simpl in *. congruence.
    + exists (S i), a, a', pts. by repeat split.
Qed.

Lemma polyline_from_dots (color : Z) (lineWidth : R) (fuel : nat) :
  (lineWidth <= 1)%R ->
  forall (points : list Point) (prev : Point) (b : BrailleBuffer.t),
    BrailleBuffer.wf b ->
    exists b',
      polyline_from prev points color lineWidth fuel b = Some b'
      /\ BrailleBuffer.wf b'
      /\ BrailleBuffer.painted_within (fun _ _ => True) b b'
      /\ forall qx qy, BrailleBuffer.outside b qx qy = false ->
           (BrailleBuffer.dotSet b' qx qy = true
            <-> BrailleBuffer.dotSet b qx qy = true
                \/ on_polyline (prev :: points) (mkPoint qx qy)).
Proof.
  intros Hw. induction points as [|p rest IH]; intros prev b Hwf.
  - exists b. split; [reflexivity|]. split; [exact Hwf|].
    split; [apply painted_within_refl|]. intros qx qy _. split; [by left|].
    intros [?|Hon]; [done|]. apply on_polyline_cons in Hon as [(p' & ? & Hh & _)|Hon].
    + discriminate Hh.
    + destruct Hon as (i & ? & ? & ? & Hi & _). by destruct i.
  - cbn [polyline_from].
    destruct (line_narrow (x prev) (y prev) (x p) (y p) color lineWidth fuel b Hw)
      as (pts & Hpts & ->).
    assert (Hwf1 : BrailleBuffer.wf (paint color pts b)) by (by apply paint_wf).
    assert (Hp1 : BrailleBuffer.painted_within (fun _ _ => True) b (paint color pts b)).
    { apply paint_painted; [exact Hwf|]. by apply Forall_forall. }
    destruct (IH p (paint color pts b) Hwf1) as (b' & Hb' & Hwf' & Hp' & Hdots).
    exists b'. split; [exact Hb'|]. split; [exact Hwf'|].
    split; [by eapply painted_within_trans|].
    intros qx qy Hin.
    rewrite Hdots by (by rewrite (outside_painted _ _ _ _ _ Hp1)).
    rewrite paint_dots by assumption.
    rewrite (on_polyline_cons prev (p :: rest)). cbn [head].
    split.
    + intros [[?|Hq]|Hon]; [by left| |by right; right].
      right. left. by exists p, pts.
    + intros [?|[(p' & pts' & [= <-] & Hpts' & Hq)|Hon]]; [by left; left| |by right].
      left. right. congruence.
Qed.

End PolylineProperties.

Section PolylineClaims.
Import Canvas.
Local Open Scope Z_scope.

(** A polyline of width 1 or less always returns.  It leaves the glyphs
    and the backgrounds alone, and the dots it leaves set are those set
    before and those on the walks, as [_bresenhamPoints] lists them,
    between each point and the next; so a list of fewer than two points
    paints nothing. *)
Theorem polyline_paints_walks (w h : Z) (b0 : BrailleBuffer.t)
    (ops : list BrailleBuffer.op) (cw ch : Z) (points : list Point)
    (color : Z) (lineWidth : R) (fuel : nat) :
  BrailleBuffer.new w h = Some b0 -> (lineWidth <= 1)%R ->
  let c := mk cw ch (BrailleBuffer.run ops b0) in
  exists c',
    polyline points color lineWidth fuel c = Some c'
    /\ BrailleBuffer.charBuffer (buffer c') = BrailleBuffer.charBuffer (buffer c)
    /\ BrailleBuffer.backgroundBuffer (buffer c') = BrailleBuffer.backgroundBuffer (buffer c)
    /\ forall qx qy, BrailleBuffer.outside (buffer c) qx qy = false ->
         (BrailleBuffer.dotSet (buffer c') qx qy = true
          <-> BrailleBuffer.dotSet (buffer c) qx qy = true
              \/ on_polyline points (mkPoint qx qy)).
Proof.
  intros Hnew Hw c.
  assert (Hwf : BrailleBuffer.wf (buffer c)) by (apply run_wf; by eapply new_wf).
  unfold polyline. destruct points as [|p rest].
  - exists c. split; [reflexivity|]. split; [reflexivity|]. split; [reflexivity|].
    intros qx qy _. split; [by left|].
    intros [?|(i & ? & ? & ? & Hi & _)]; [done|]. by destruct i.
  - destruct (polyline_from_dots color lineWidth fuel Hw rest p (buffer c) Hwf)
      as (b' & -> & _ & (_ & Hc & Hb & _) & Hdots).
    eexists. split; [reflexivity|]. cbn [buffer with_buffer].
    split; [exact Hc|]. split; [exact Hb|]. exact Hdots.
Qed.

Lemma polyline_paints_walks_witness :
  exists b0 c',
    BrailleBuffer.new 8 8 = Some b0
    /\ polyline [mkPoint 0 0; mkPoint 3 1; mkPoint 3 5] 46 1 0 (mk 8 8 b0) = Some c'
    /\ (BrailleBuffer.dotSet (buffer c') 3 4 = true
        <-> BrailleBuffer.dotSet b0 3 4 = true
            \/ on_polyline [mkPoint 0 0; mkPoint 3 1; mkPoint 3 5] (mkPoint 3 4)).
Proof.
  eexists.
  destruct (polyline_paints_walks 8 8 _ [] 8 8 [mkPoint 0 0; mkPoint 3 1; mkPoint 3 5] 46 1 0
              eq_refl ltac:(lra)) as (c' & Hc' & _ & _ & Hdots).
  exists c'. split; [reflexivity|]. split; [exact Hc'|].
  apply (Hdots 3 4). reflexivity.
Defined.

End PolylineClaims.

Section FillProperties.
Import Canvas.
Local Open Scope Z_scope.

Lemma bresenhamPoints_in_box (lo hi : Point) (ax ay bx by_ : Z) (pts : list Point) :
  in_box lo hi (mkPoint ax ay) -> in_box lo hi (mkPoint bx by_) ->
  bresenhamPoints ax ay bx by_ = Some pts -> Forall (in_box lo hi) pts.
Proof.
  intros Ha Hb Hpts.
  destruct (bresenhamPoints_walk_from ax ay bx by_) as (pts' & Hpts' & _ & _ & _ & _ & Hbox).
  rewrite Hpts in Hpts'. injection Hpts' as <-.
  eapply Forall_impl; [exact Hbox|].
  intros p (qx & qy & Hqx & Hqy & Hpx & Hpy).
  unfold in_box in *. cbn [x y] in *. rewrite Hpx, Hpy.
  destruct (Z.ltb_spec ax bx); destruct (Z.ltb_spec ay by_); lia.
Qed.

Lemma insert_sorted_Forall (P : Point -> Prop) (p : Point) (l : list Point) :
  P p -> Forall P l -> Forall P (insert_sorted p l).
Proof.
  intros Hp Hl. induction Hl as [|q l Hq Hl IH]; simpl.
  - by constructor.
  - destruct (point_leb p q); repeat constructor; assumption.
Qed.

Lemma sort_points_Forall (P : Point -> Prop) (l : list Point) :
  Forall P l -> Forall P (sort_points l).
Proof.
  intros Hl. unfold sort_points. induction Hl as [|p l Hp _ IH]; simpl; [constructor|].
  by apply insert_sorted_Forall.
Qed.

Lemma fill_row_painted (lo hi : Point) (color row left : Z) (n : nat) (b : BrailleBuffer.t) :
  BrailleBuffer.wf b ->
  (forall k, (k < n)%nat -> in_box lo hi (mkPoint (left + Z.of_nat k) row)) ->
  let b' := fold_left (fun b k => BrailleBuffer.setPixel (left + Z.of_nat k) row color b)
                      (seq 0 n) b in
  BrailleBuffer.wf b'
  /\ BrailleBuffer.painted_within (fun x y => in_box lo hi (mkPoint x y)) b b'.
Proof.
  intros Hwf Hbox. cbv zeta. induction n as [|n IH].
  - split; [exact Hwf | apply painted_within_refl].
  - rewrite seq_S, fold_left_app. cbn [fold_left Nat.add].
    destruct IH as [Hwf' Hp]; [intros k Hk; apply Hbox; lia|].
    split; [by apply setPixel_wf|].
    eapply painted_within_trans; [exact Hp|].
    apply setPixel_painted; [exact Hwf'|]. apply Hbox. lia.
Qed.

Lemma fill_loop_painted (lo hi : Point) (cw color : Z) (pts : list Point) :
  Forall (in_box lo hi) pts ->
  forall b, BrailleBuffer.wf b ->
    BrailleBuffer.wf (fill_loop cw color pts b)
    /\ BrailleBuffer.painted_within (fun x y => in_box lo hi (mkPoint x y)) b
                                    (fill_loop cw color pts b).
Proof.
  intros Hpts. induction Hpts as [|point rest Hpoint Hrest IH]; intros b Hwf.
  - split; [exact Hwf | apply painted_within_refl].
  - cbn [fill_loop]. destruct rest as [|next rest'].
    + split; [by apply setPixel_wf|]. apply setPixel_painted; [exact Hwf|].
      by destruct point.
    + apply Forall_cons in Hrest as Hnext. destruct Hnext as [Hnext _].
      destruct (Z.eqb_spec (y point) (y next)) as [Hrow|Hrow].
      * destruct (fill_row_painted lo hi color (y point) (Z.max 0 (x point))
                    (Z.to_nat (Z.min (cw - 1) (x next) - Z.max 0 (x point) + 1)) b Hwf)
          as [Hwf1 Hp1].
        { intros k Hk. unfold in_box in *. cbn [x y]. lia. }
        destruct (IH _ Hwf1) as [Hwf2 Hp2].
        split; [exact Hwf2|]. by eapply painted_within_trans.
      * assert (Hwf1 : BrailleBuffer.wf (BrailleBuffer.setPixel (x point) (y point) color b))
          by (by apply setPixel_wf).
        destruct (IH _ Hwf1) as [Hwf2 Hp2].
        split; [exact Hwf2|]. eapply painted_within_trans; [|exact Hp2].
        apply setPixel_painted; [exact Hwf|]. by destruct point.
Qed.

Lemma filledTriangle_painted (lo hi : Point) (pa pb pc : Z * Z) (color : Z) (c : t) :
  BrailleBuffer.wf (buffer c) ->
  in_box lo hi (mkPoint (fst pa) (snd pa)) -> in_box lo hi (mkPoint (fst pb) (snd pb)) ->
  in_box lo hi (mkPoint (fst pc) (snd pc)) ->
  exists c',
    filledTriangle pa pb pc color c = Returns c'
    /\ width c' = width c /\ height c' = height c
    /\ BrailleBuffer.wf (buffer c')
    /\ BrailleBuffer.painted_within (fun x y => in_box lo hi (mkPoint x y))
                                    (buffer c) (buffer c').
Proof.
  intros Hwf Ha Hb Hc. unfold filledTriangle.
  destruct (bresenhamPoints_returns (fst pb) (snd pb) (fst pc) (snd pc)) as [ea Hea].
  destruct (bresenhamPoints_returns (fst pa) (snd pa) (fst pc) (snd pc)) as [eb Heb].
  destruct (bresenhamPoints_returns (fst pa) (snd pa) (fst pb) (snd pb)) as [ec Hec].
  rewrite Hea, Heb, Hec.
  pose proof (bresenhamPoints_in_box lo hi _ _ _ _ _ Hb Hc Hea) as Hba.
  pose proof (bresenhamPoints_in_box lo hi _ _ _ _ _ Ha Hc Heb) as Hbb.
  pose proof (bresenhamPoints_in_box lo hi _ _ _ _ _ Ha Hb Hec) as Hbc.
  set (allPoints := sort_points _).
  assert (Hall : Forall (in_box lo hi) allPoints).
  { subst allPoints. apply sort_points_Forall. apply Forall_forall.
    intros p Hp. apply list_elem_of_filter in Hp as [_ Hp].
    rewrite !elem_of_app in Hp. rewrite Forall_forall in Hba, Hbb, Hbc.
    destruct Hp as [?|[?|?]]; auto. }
  destruct (fill_loop_painted lo hi (width c) color allPoints Hall (buffer c) Hwf) as [Hwf' Hp].
  eexists. split; [reflexivity|]. cbn [buffer with_buffer width height].
  split; [reflexivity|]. split; [reflexivity|]. split; [exact Hwf' | exact Hp].
Qed.

Lemma flat_pairs_lookup (ps : list Point) (i : nat) :
  flat_map (fun p => [x p; y p]) ps !! (2 * i)%nat = x <$> ps !! i
  /\ flat_map (fun p => [x p; y p]) ps !! S (2 * i) = y <$> ps !! i.
Proof.
  revert i. induction ps as [|p ps IH]; intros i; [done|].
  change (flat_map (fun p => [x p; y p]) (p :: ps))
    with (x p :: y p :: flat_map (fun p => [x p; y p]) ps).
  destruct i as [|i]; [done|].
  replace (2 * S i)%nat with (S (S (2 * i))) by lia.
  change ((p :: ps) !! S i) with (ps !! i).
  change ((x p :: y p :: flat_map (fun p => [x p; y p]) ps) !! S (S (2 * i)))
    with (flat_map (fun p => [x p; y p]) ps !! (2 * i)%nat).
  change ((x p :: y p :: flat_map (fun p => [x p; y p]) ps) !! S (S (S (2 * i))))
    with (flat_map (fun p => [x p; y p]) ps !! S (2 * i)).
  apply IH.
Qed.

(** The pair a valid index picks from the coordinates of a list of
    points is one of the points. *)
Lemma extractVertex_point (ps : list Point) (idx : Z) (v : Z * Z) :
  extractVertex (flat_map (fun p => [x p; y p]) ps) idx = Some v ->
  mkPoint (fst v) (snd v) ∈ ps.
Proof.
  unfold extractVertex, ta_get.
  destruct (Z.ltb_spec (idx * 2) 0) as [|Hlo]; [done|].
  destruct (Z.ltb_spec (idx * 2 + 1) 0) as [|_]; [by destruct (_ !! _)|].
  replace (Z.to_nat (idx * 2)) with (2 * Z.to_nat idx)%nat by lia.
  replace (Z.to_nat (idx * 2 + 1)) with (S (2 * Z.to_nat idx))%nat by lia.
  destruct (flat_pairs_lookup ps (Z.to_nat idx)) as [-> ->].
  destruct (ps !! Z.to_nat idx) as [p|] eqn:Hp; [|done].
  simpl. intros [= <-]. simpl.
  apply list_elem_of_lookup_2 in Hp. by destruct p.
Qed.

Lemma draw_triangles_painted (lo hi : Point) (ps : list Point) (color : Z) :
  Forall (in_box lo hi) ps ->
  forall (n : nat) (triangles : list Z) (fuel : nat) (c : t),
    length triangles = (3 * n)%nat -> (n <= fuel)%nat ->
    Forall (fun i => 0 <= i /\ 2 * i + 1 < Z.of_nat (length (flat_map (fun p => [x p; y p]) ps)))
           triangles ->
    BrailleBuffer.wf (buffer c) ->
    exists c',
      draw_triangles fuel (flat_map (fun p => [x p; y p]) ps) triangles color c = Returns c'
      /\ BrailleBuffer.painted_within (fun x y => in_box lo hi (mkPoint x y))
                                      (buffer c) (buffer c').
Proof.
  intros Hps. induction n as [|n IH]; intros triangles fuel c Hlen Hfuel Hidx Hwf.
  - destruct triangles; [|discriminate]. exists c.
    split; [by destruct fuel | apply painted_within_refl].
  - destruct triangles as [|i0 [|i1 [|i2 rest]]]; try (simpl in Hlen; lia).
    destruct fuel as [|fuel]; [lia|]. cbn [draw_triangles nth skipn].
    apply Forall_cons in Hidx as [H0 Hidx]. apply Forall_cons in Hidx as [H1 Hidx].
    apply Forall_cons in Hidx as [H2 Hidx].
    destruct (extractVertex_valid _ i0 H0) as [pa Ha].
    destruct (extractVertex_valid _ i1 H1) as [pb Hb].
    destruct (extractVertex_valid _ i2 H2) as [pc Hc].
    rewrite Ha, Hb, Hc.
    pose proof (extractVertex_point ps i0 pa Ha) as Hina.
    pose proof (extractVertex_point ps i1 pb Hb) as Hinb.
    pose proof (extractVertex_point ps i2 pc Hc) as Hinc.
    rewrite Forall_forall in Hps.
    destruct (filledTriangle_painted lo hi pa pb pc color c Hwf
                (Hps _ Hina) (Hps _ Hinb) (Hps _ Hinc))
      as (c1 & -> & _ & _ & Hwf1 & Hp1).
    cbn [obind].
    destruct (IH rest fuel c1) as (c' & Hc' & Hp'); [simpl in Hlen; lia | lia | exact Hidx | exact Hwf1 |].
    exists c'. split; [exact Hc'|]. by eapply painted_within_trans.
Qed.

Lemma collect_rings_points (P : Point -> Prop) (rings : list (list Point)) :
  Forall (Forall P) rings ->
  forall (ps : list Point) (holes vertices holes' : list Z),
    Forall P ps ->
    collect_rings rings (flat_map (fun p => [x p; y p]) ps) holes = Some (vertices, holes') ->
    exists ps', vertices = flat_map (fun p => [x p; y p]) ps' /\ Forall P ps'.
Proof.
  intros Hrings. induction Hrings as [|ring rest Hring _ IH];
    intros ps holes vertices holes' Hps; cbn [collect_rings].
  - intros [= <- <-]. by exists ps.
  - destruct (negb _).
    + destruct (_ <? 3)%nat.
      * by apply IH.
      * rewrite <- flat_map_app. apply IH. by apply Forall_app.
    + destruct (_ <? 3)%nat; [done|].
      rewrite <- flat_map_app. apply IH. by apply Forall_app.
Qed.

End FillProperties.

Section FillClaims.
Import Canvas.
Local Open Scope Z_scope.
Context `{Triangulator}.

(** [polygon] paints inside the box of its points only.  Whatever
    triangles earcut answers with, the call returns; the glyphs, the
    backgrounds and the size of the buffer are as before; and no dot
    changes at a pixel outside the smallest upright box that holds every
    point of every ring. *)
Theorem polygon_stays_in_box (w h : Z) (b0 : BrailleBuffer.t)
    (ops : list BrailleBuffer.op) (cw ch : Z) (rings : list (list Point))
    (color : Z) (lo hi : Point) :
  BrailleBuffer.new w h = Some b0 ->
  Forall (Forall (in_box lo hi)) rings ->
  let c := mk cw ch (BrailleBuffer.run ops b0) in
  exists ok c',
    polygon rings color c = Returns (ok, c')
    /\ BrailleBuffer.painted_within (fun x y => in_box lo hi (mkPoint x y))
                                    (buffer c) (buffer c').
Proof.
  intros Hnew Hrings c.
  assert (Hwf : BrailleBuffer.wf (buffer c)) by (apply run_wf; by eapply new_wf).
  unfold polygon.
  destruct (collect_rings rings [] []) as [[vertices holes]|] eqn:Hcol;
    [|exists false, c; split; [reflexivity | apply painted_within_refl]].
  destruct (collect_rings_points (in_box lo hi) rings Hrings [] [] vertices holes
              ltac:(constructor) Hcol) as (ps & -> & Hps).
  destruct (earcut _ _) as [triangles|] eqn:Hcut;
    [|exists false, c; split; [reflexivity | apply painted_within_refl]].
  destruct (earcut_indices _ _ _ Hcut) as [Hmod Hidx].
  assert (Hlen : length triangles = (3 * (length triangles / 3))%nat).
  { pose proof (Nat.div_mod_eq (length triangles) 3). lia. }
  destruct (draw_triangles_painted lo hi ps color Hps (length triangles / 3) triangles
              (length triangles) c Hlen) as (c' & -> & Hp); [|exact Hidx|exact Hwf|].
  { pose proof (Nat.div_mod_eq (length triangles) 3). lia. }
  exists true, c'. split; [reflexivity | exact Hp].
Qed.

End FillClaims.

Lemma polygon_stays_in_box_witness :
  exists b0 ok c',
    BrailleBuffer.new 8 8 = Some b0
    /\ @Canvas.polygon Canvas.single_triangle
         [[Canvas.mkPoint 1 1; Canvas.mkPoint 5 1; Canvas.mkPoint 3 4]] 46
         (Canvas.mk 8 8 b0) = Returns (ok, c')
    /\ BrailleBuffer.painted_within
         (fun x y => Canvas.in_box (Canvas.mkPoint 1 1) (Canvas.mkPoint 5 4) (Canvas.mkPoint x y))
         b0 (Canvas.buffer c').
Proof.
  eexists.
  destruct (@polygon_stays_in_box Canvas.single_triangle 8 8 _ [] 8 8
              [[Canvas.mkPoint 1 1; Canvas.mkPoint 5 1; Canvas.mkPoint 3 4]] 46
              (Canvas.mkPoint 1 1) (Canvas.mkPoint 5 4) eq_refl)
    as (ok & c' & Hpoly & Hp).
  { repeat constructor; simpl; lia. }
  exists ok, c'. split; [reflexivity|]. split; [exact Hpoly | exact Hp].
Defined.

(** ** The tile parser *)

Section ParserProperties.
Import TileParser.

Lemma bounds_from (ps : list Canvas.Point) (a b c d : Z) :
  a <= b -> c <= d ->
  exists a' b' c' d',
    fold_left bounds_step ps (Fin a, Fin b, Fin c, Fin d) = (Fin a', Fin b', Fin c', Fin d')
    /\ a' <= a /\ b <= b' /\ c' <= c /\ d <= d'
    /\ forall p, p ∈ ps -> a' <= Canvas.x p <= b' /\ c' <= Canvas.y p <= d'.
Proof.
  revert a b c d. induction ps as [|p ps IH]; intros a b c d Hab Hcd.
  - exists a, b, c, d. split; [done|]. repeat split; try lia; by apply elem_of_nil in H.
  - cbn [fold_left bounds_step ext_ltb ext_gtb].
    set (a1 := if Canvas.x p <? a then Canvas.x p else a).
    set (b1 := if Canvas.x p >? b then Canvas.x p else b).
    set (c1 := if Canvas.y p <? c then Canvas.y p else c).
    set (d1 := if Canvas.y p >? d then Canvas.y p else d).
    assert (Ha : a1 <= a /\ a1 <= Canvas.x p) by (subst a1; destruct (Z.ltb_spec (Canvas.x p) a); lia).
    assert (Hb : b <= b1 /\ Canvas.x p <= b1) by (subst b1; destruct (Z.gtb_spec (Canvas.x p) b); lia).
    assert (Hc : c1 <= c /\ c1 <= Canvas.y p) by (subst c1; destruct (Z.ltb_spec (Canvas.y p) c); lia).
    assert (Hd : d <= d1 /\ Canvas.y p <= d1) by (subst d1; destruct (Z.gtb_spec (Canvas.y p) d); lia).
    replace (if Canvas.x p <? a then Fin (Canvas.x p) else Fin a) with (Fin a1)
      by (subst a1; by destruct (Canvas.x p <? a)).
    replace (if Canvas.x p >? b then Fin (Canvas.x p) else Fin b) with (Fin b1)
      by (subst b1; by destruct (Canvas.x p >? b)).
    replace (if Canvas.y p <? c then Fin (Canvas.y p) else Fin c) with (Fin c1)
      by (subst c1; by destruct (Canvas.y p <? c)).
    replace (if Canvas.y p >? d then Fin (Canvas.y p) else Fin d) with (Fin d1)
      by (subst d1; by destruct (Canvas.y p >? d)).
    clearbody a1 b1 c1 d1.
    destruct (IH a1 b1 c1 d1 ltac:(lia) ltac:(lia))
      as (a' & b' & c' & d' & -> & Ha' & Hb' & Hc' & Hd' & Hall).
    exists a', b', c', d'. split; [done|]. repeat split; try lia;
      apply elem_of_cons in H as [->|Hin]; try lia; by apply Hall.
Qed.

Lemma bounds_spec (ps : list Canvas.Point) :
  match fold_left bounds_step ps (PosInf, NegInf, PosInf, NegInf) with
  | (lx, hx, ly, hy) =>
      (forall p, p ∈ ps -> ext_within lx hx (Canvas.x p) /\ ext_within ly hy (Canvas.y p))
      /\ (ps = [] -> lx = PosInf /\ hx = NegInf /\ ly = PosInf /\ hy = NegInf)
  end.
Proof.
  destruct ps as [|q ps].
  - simpl. split; [|done]. intros p Hp. by apply elem_of_nil in Hp.
  - cbn [fold_left bounds_step ext_ltb ext_gtb].
    destruct (bounds_from ps (Canvas.x q) (Canvas.x q) (Canvas.y q) (Canvas.y q)
                ltac:(lia) ltac:(lia))
      as (a' & b' & c' & d' & -> & Ha' & Hb' & Hc' & Hd' & Hall).
    split; [|done]. intros p Hp. cbn [ext_within].
    apply elem_of_cons in Hp as [->|Hin]; [lia|]. by apply Hall.
Qed.

Lemma addBoundaries_spec (deep : bool) (data f : TileFeature) :
  addBoundaries deep data = Some f ->
  layer f = layer data /\ style f = style data /\ label f = label data
  /\ sort f = sort data /\ points f = points data /\ fcolor f = fcolor data
  /\ (if deep then exists rings, points data = Rings rings
      else exists ps, points data = Points ps)
  /\ bounded f.
Proof.
  unfold addBoundaries.
  set (pts := match points data with
              | Rings rings => if deep then head rings else None
              | Points ps => if deep then None else Some ps
              end).
  destruct pts as [ps|] eqn:Hpts; [|done].
  pose proof (bounds_spec ps) as Hb.
  destruct (fold_left bounds_step ps _) as [[[lx hx] ly] hy].
  intros [= <-]. cbn [layer style label sort points fcolor].
  do 6 (split; [reflexivity|]).
  assert (Hw : (if deep then exists rings, points data = Rings rings
                else exists ps0, points data = Points ps0)
               /\ walked (mkFeature (layer data) (style data) (label data) (sort data)
                            (points data) (fcolor data) lx hx ly hy) = ps).
  { unfold walked. cbn [points]. subst pts.
    destruct (points data) as [rings|ps0], deep; try done.
    - split; [by eexists|]. by rewrite Hpts.
    - split; [by eexists|]. by injection Hpts. }
  destruct Hw as [Hshape Hw]. split; [exact Hshape|].
  unfold bounded. rewrite Hw. exact Hb.
Qed.

Lemma mapM_Forall {A B : Type} (g : A -> option B) (P : B -> Prop) (l : list A) (k : list B) :
  (forall a b, a ∈ l -> g a = Some b -> P b) -> mapM g l = Some k -> Forall P k.
Proof.
  revert k. induction l as [|a l IH]; intros k Hg Hm.
  - injection Hm as <-. constructor.
  - cbn in Hm. destruct (g a) as [b|] eqn:Hb; [|done]. cbn in Hm.
    destruct (mapM g l) as [k'|] eqn:Hk; [|done]. injection Hm as <-.
    constructor.
    + eapply Hg; [left|exact Hb].
    + apply IH; [|done]. intros a' b' Hin. apply Hg. by right.
Qed.

Lemma featureNodes_styled (name language : string) (styles : list CompiledStyle)
    (feature : VTFeature) (nodes : list TileFeature) :
  featureNodes name language styles feature = Some nodes ->
  Forall (styled name styles) nodes.
Proof.
  unfold featureNodes, matchStyle.
  set (props := <["$type" := _]> _).
  destruct (find _ styles) as [st|] eqn:Hfind; [|intros [= <-]; constructor].
  apply find_some in Hfind as [Hin _]. apply list_elem_of_In in Hin.
  assert (Hnode : forall deep geo lbl f,
             (type st <> symbol -> lbl = None) ->
             (deep = true <-> type st = fill) ->
             addBoundaries deep
               (mkFeature name st lbl
                  (js_or (props !! "localrank") (js_or (props !! "scalerank") (Some (PNum 0))))
                  geo (color st) (Fin 0) (Fin 0) (Fin 0) (Fin 0)) = Some f ->
             styled name styles f).
  { intros deep geo lbl f Hlbl Hdeep Hadd.
    apply addBoundaries_spec in Hadd
      as (Hl & Hs & Hlb & _ & Hp & Hc & Hshape & Hb).
    cbn [layer style label points fcolor] in *.
    unfold styled. rewrite Hs, Hl, Hc, Hp, Hlb.
    split; [exact Hin|]. split; [done|]. split; [done|]. split; [|by split].
    destruct deep.
    - destruct Hshape as [rings ->]. by apply Hdeep.
    - destruct Hshape as [ps ->]. intros Hf. by apply Hdeep in Hf. }
  destruct (type st) eqn:Hty.
  - destruct (addBoundaries true _) as [f|] eqn:Hadd; [|done]. intros [= <-].
    constructor; [|constructor].
    refine (Hnode true _ _ _ _ _ Hadd); [done|by split].
  - intros Hm. eapply mapM_Forall; [|exact Hm]. intros geom f _ Hadd.
    refine (Hnode false _ _ _ _ _ Hadd); [done|split; discriminate].
  - intros Hm. eapply mapM_Forall; [|exact Hm]. intros geom f _ Hadd.
    refine (Hnode false _ _ _ _ _ Hadd); [done|split; discriminate].
  - intros Hm. eapply mapM_Forall; [|exact Hm]. intros geom f _ Hadd.
    refine (Hnode false _ _ _ _ _ Hadd); [done|split; discriminate].
Qed.

Lemma parseLayers_styled (byLayer : gmap string (list CompiledStyle)) (language : string)
    (entries : list (string * VTLayer)) (acc result : gmap string ParsedLayer) :
  (forall name lyr, acc !! name = Some lyr ->
     exists styles, byLayer !! name = Some styles /\ styles <> []
                    /\ Forall (styled name styles) (tree lyr)) ->
  fold_left (parseLayer byLayer language) entries (Some acc) = Some result ->
  forall name lyr, result !! name = Some lyr ->
    exists styles, byLayer !! name = Some styles /\ styles <> []
                   /\ Forall (styled name styles) (tree lyr).
Proof.
  revert acc. induction entries as [|[ename vlayer] entries IH]; intros acc Hacc Hfold.
  - injection Hfold as <-. exact Hacc.
  - cbn [fold_left] in Hfold. unfold parseLayer at 2 in Hfold.
    destruct (byLayer !! ename) as [[|st styles]|] eqn:Hst; [by eapply IH| |by eapply IH].
    destruct (mapM _ (vt_features vlayer)) as [nodes|] eqn:Hm.
    + eapply IH; [|exact Hfold]. intros name lyr Hlook.
      destruct (decide (name = ename)) as [->|Hne].
      * rewrite lookup_insert_eq in Hlook. injection Hlook as <-.
        exists (st :: styles). split; [done|]. split; [done|]. cbn [tree].
        apply Forall_concat. eapply mapM_Forall; [|exact Hm].
        intros feature k _. apply featureNodes_styled.
      * rewrite lookup_insert_ne in Hlook by done. by apply Hacc.
    + exfalso. clear -Hfold. induction entries as [|e es IHe]; [done|]. by apply IHe.
Qed.

End ParserProperties.

Section ParserClaims.
Import TileParser.
Context `{TileCodec}.

(** What a parsed tile holds.  Every layer of it is a source layer the
    style table has styles for, and every feature in it carries the
    layer's name, one of that layer's styles and the colour of that style;
    it has rings exactly when the style is a fill, and a label only when
    the style is a symbol.  Its bounding box contains every point that
    was walked (the first ring of a polygon); a feature with no point to
    walk keeps the infinities the search started from. *)
Theorem parseTile_features (buffer : list Z) (byLayer : gmap string (list CompiledStyle))
    (language : string) (tile : ParsedTile) (name : string) (lyr : ParsedLayer)
    (f : TileFeature) :
  parseTile buffer byLayer language = Returns tile ->
  layers tile !! name = Some lyr ->
  f ∈ tree lyr ->
  (exists styles, byLayer !! name = Some styles /\ style f ∈ styles)
  /\ layer f = name
  /\ fcolor f = color (style f)
  /\ match points f with
     | Rings _ => type (style f) = fill
     | Points _ => type (style f) <> fill
     end
  /\ (type (style f) <> symbol -> label f = None)
  /\ (forall p, p ∈ walked f ->
        ext_within (minX f) (maxX f) (Canvas.x p)
        /\ ext_within (minY f) (maxY f) (Canvas.y p))
  /\ (walked f = [] ->
      minX f = PosInf /\ maxX f = NegInf /\ minY f = PosInf /\ maxY f = NegInf).
Proof.
  unfold parseTile. intros Hparse Hlayer Hin.
  destruct (if isGzipped buffer then _ else _) as [data|]; [|done].
  destruct (decodeVectorTile data) as [entries|]; [|done].
  destruct (fold_left _ entries _) as [result|] eqn:Hfold; [|done].
  injection Hparse as <-. cbn [layers] in Hlayer.
  destruct (parseLayers_styled byLayer language entries ∅ result) with (name := name) (lyr := lyr)
    as (styles & Hst & _ & Hall); [|done|done|].
  { intros n l Hl. by rewrite lookup_empty in Hl. }
  rewrite Forall_forall in Hall. destruct (Hall f Hin) as (Hs & Hl & Hc & Hp & Hlb & Hb & Hempty).
  split; [by exists styles|]. by repeat (split; [done|]).
Qed.

End ParserClaims.

Lemma parseTile_features_witness :
  exists tile lyr f,
    @TileParser.parseTile TileParser.sample_codec [1] TileParser.sample_styles "en"
      = Returns tile
    /\ TileParser.layers tile !! "road"%string = Some lyr
    /\ TileParser.tree lyr = [f]
    /\ TileParser.fcolor f = 250
    /\ TileParser.ext_within (TileParser.minX f) (TileParser.maxX f) 30
    /\ TileParser.ext_within (TileParser.minY f) (TileParser.maxY f) 20.
Proof.
  set (f := TileParser.mkFeature "road" TileParser.sample_style None
              (Some (TileParser.PNum 0))
              (TileParser.Points [Canvas.mkPoint 10 40; Canvas.mkPoint 30 20])
              250 (TileParser.Fin 10) (TileParser.Fin 30)
              (TileParser.Fin 20) (TileParser.Fin 40)).
  set (lyr := TileParser.mkLayer 4096 [f]).
  set (tile := TileParser.mkTile {["road"%string := lyr]}).
  assert (Hparse : @TileParser.parseTile TileParser.sample_codec [1]
                     TileParser.sample_styles "en" = Returns tile) by reflexivity.
  assert (Hlayer : TileParser.layers tile !! "road"%string = Some lyr) by reflexivity.
  assert (Hin : f ∈ TileParser.tree lyr) by (subst lyr; cbn; left).
  destruct (@parseTile_features TileParser.sample_codec _ _ _ _ _ _ _ Hparse Hlayer Hin)
    as (_ & _ & Hc & _ & _ & Hb & _).
  destruct (Hb (Canvas.mkPoint 30 20)) as [Hx Hy]; [subst f; cbn; right; left|].
  exists tile, lyr, f. by repeat (split; [done|]).
Defined.

(** ** The tile source: keys and the cache without overlap *)

Section TileKeys.
Import TileParser TileSource.

Lemma span_digits_uint (d : Decimal.uint) (rest : string) :
  (match rest with String c _ => is_digit c = false | EmptyString => True end) ->
  span_digits (DecimalString.NilEmpty.string_of_uint d +:+ rest)
  = (DecimalString.NilEmpty.string_of_uint d, rest).
Proof.
  intros Hrest. induction d; simpl;
    try (rewrite IHd; reflexivity).
  destruct rest as [|c r]; [reflexivity|]. simpl. by rewrite Hrest.
Qed.

Lemma string_of_uint_head (d : Decimal.uint) :
  d <> Nil ->
  exists c r, DecimalString.NilEmpty.string_of_uint d = String c r /\ is_digit c = true.
Proof. intros Hd. destruct d; try done; simpl; eauto. Qed.

Lemma to_uint_nonnil (p : positive) : Pos.to_uint p <> Nil.
Proof. apply Unsigned.to_uint_nonnil. Qed.

Lemma num_cases (n : Z) :
  exists d, d <> Nil
    /\ (num n = DecimalString.NilEmpty.string_of_uint d
        \/ num n = String "-"%char (DecimalString.NilEmpty.string_of_uint d)).
Proof.
  unfold num. destruct n as [|p|p]; simpl.
  - exists (D0 Nil). split; [done|]. by left.
  - exists (Pos.to_uint p). split; [apply to_uint_nonnil|]. left.
    pose proof (to_uint_nonnil p). by destruct (Pos.to_uint p).
  - exists (Pos.to_uint p). split; [apply to_uint_nonnil|]. right.
    pose proof (to_uint_nonnil p). by destruct (Pos.to_uint p).
Qed.

(** The text of a number can be read back off the head of a string in
    which a dash, or nothing, follows it. *)
Lemma span_num_num (n : Z) (rest : string) :
  (match rest with String c _ => is_digit c = false | EmptyString => True end) ->
  span_num (num n +:+ rest) = (num n, rest).
Proof.
  intros Hrest. destruct (num_cases n) as (d & Hd & [-> | ->]).
  - destruct (string_of_uint_head d Hd) as (c & r & Hcr & Hc).
    unfold span_num.
    assert (Hnot : c <> "-"%char) by (intros ->; discriminate Hc).
    rewrite <- (span_digits_uint d rest Hrest). rewrite Hcr. simpl.
    destruct c as [[] [] [] [] [] [] [] []]; try reflexivity. by exfalso.
  - unfold span_num. simpl. by rewrite (span_digits_uint d rest Hrest).
Qed.

Lemma num_inj (n m : Z) : num n = num m -> n = m.
Proof.
  unfold num. intros Heq. apply DecimalZ.to_int_inj.
  assert (Hno : forall k, Z.to_int k <> Pos Nil /\ Z.to_int k <> Neg Nil).
  { intros [|p|p]; simpl; split; try discriminate;
      pose proof (to_uint_nonnil p); congruence. }
  destruct (Hno n) as [Hn1 Hn2]. destruct (Hno m) as [Hm1 Hm2].
  pose proof (DecimalString.NilZero.isi (Z.to_int n) Hn1 Hn2) as Hi.
  pose proof (DecimalString.NilZero.isi (Z.to_int m) Hm1 Hm2) as Hj.
  rewrite Heq in Hi. congruence.
Qed.

End TileKeys.

Section TileKeyClaims.
Import TileParser TileSource.

(** Two tile addresses have the same cache key only if they are the same
    address, for all integers, negative ones included: the dashes between
    the numbers cannot be taken for signs. *)
Theorem tileKey_injective (z x y z' x' y' : Z) :
  tileKey z x y = tileKey z' x' y' <-> z = z' /\ x = x' /\ y = y'.
Proof.
  split; [|by intros (-> & -> & ->)].
  unfold tileKey. intros Hkey.
  assert (Hdash : forall s : string,
             match ("-" +:+ s)%string with
             | String c _ => is_digit c = false
             | EmptyString => True
             end) by (intros s; reflexivity).
  pose proof (f_equal span_num Hkey) as Hz.
  rewrite !span_num_num in Hz by apply Hdash.
  injection Hz as Hz Hrest.
  change (num x +:+ "-" +:+ num y = num x' +:+ "-" +:+ num y') in Hrest.
  pose proof (f_equal span_num Hrest) as Hx.
  rewrite !span_num_num in Hx by apply Hdash.
  injection Hx as Hx Hy.
  change (num y = num y') in Hy.
  split; [by apply num_inj|]. split; by apply num_inj.
Qed.

End TileKeyClaims.

Section SequentialCache.
Import TileParser TileSource.

Lemma cacheSet_seq (key : string) (tile : ParsedTile) (ts : t) :
  seq_inv ts -> key <> EmptyString -> cache ts !! key = None ->
  exists ts',
    cacheSet key tile ts = Returns ts'
    /\ seq_inv ts'
    /\ cacheSize ts' = cacheSize ts
    /\ (1 <= cacheSize ts -> cache ts' !! key = Some tile)
    /\ (cacheSize ts = 0 -> cache ts' = ∅ /\ cacheOrder ts' = []).
Proof.
  intros (Hinv & Hnd & Hdom) Hkey Hmiss.
  destruct (cacheSet_spec key tile ts Hinv Hkey)
    as (ts' & ev & Hset & Hsplit & Hcache & Hlen & Hsz & Hinv').
  exists ts'. split; [exact Hset|].
  assert (Hfresh : key ∉ cacheOrder ts).
  { intros Hin. apply Hdom in Hin as [v Hv]. congruence. }
  assert (Hnd' : NoDup (ev ++ cacheOrder ts')).
  { rewrite <- Hsplit. apply NoDup_app. split; [exact Hnd|]. split.
    - intros k Hk Hk'. apply list_elem_of_singleton in Hk'. by subst k.
    - apply NoDup_singleton. }
  apply NoDup_app in Hnd' as (Hnd_ev & Hdisj & Hnd_q).
  split; [|split; [exact Hsz|split]].
  - split; [exact Hinv'|]. split; [exact Hnd_q|].
    intros k Hk. rewrite Hcache, lookup_delete_all.
    rewrite decide_False by (intros Hev; by apply (Hdisj k)).
    assert (Hin : k ∈ cacheOrder ts ++ [key]) by (rewrite Hsplit, elem_of_app; by right).
    apply elem_of_app in Hin as [Hin|Hin].
    + rewrite lookup_insert_ne; [by apply Hdom|]. intros ->. by apply Hfresh.
    + apply list_elem_of_singleton in Hin. subst k. rewrite lookup_insert_eq. eauto.
  - intros Hcap.
    assert (Hlast : key ∈ cacheOrder ts').
    { destruct (cacheOrder ts') as [|q qs] eqn:Eq.
      - cbn [length] in Hlen. lia.
      - assert (Hl : last (ev ++ q :: qs) = Some key) by (rewrite <- Hsplit; apply last_snoc).
        rewrite last_app_cons in Hl. apply last_Some in Hl as [l' ->].
        rewrite elem_of_app. right. by apply list_elem_of_singleton. }
    rewrite Hcache, lookup_delete_all.
    rewrite decide_False by (intros Hev; by apply (Hdisj key)).
    apply lookup_insert_eq.
  - intros Hzero.
    assert (Hq : cacheOrder ts' = []).
    { apply nil_length_inv. rewrite Hlen, Hzero. simpl. lia. }
    split; [|exact Hq]. apply map_empty. intros k.
    destruct (cache ts' !! k) as [v|] eqn:Ev; [|done].
    destruct Hinv' as (_ & _ & Hdom' & _).
    assert (Hin : k ∈ cacheOrder ts') by (apply Hdom'; eauto).
    rewrite Hq in Hin. by apply elem_of_nil in Hin.
Qed.

Context `{TileCodec}.

Lemma getTile_seq (net : Network) (z x y : Z) (ts : t) :
  seq_inv ts ->
  seq_inv (snd (getTile net z x y ts))
  /\ cacheSize (snd (getTile net z x y ts)) = cacheSize ts
  /\ (forall tile, fst (getTile net z x y ts) = Returns tile -> 1 <= cacheSize ts ->
        cache (snd (getTile net z x y ts)) !! tileKey z x y = Some tile)
  /\ (cacheSize ts = 0 -> cache ts = ∅ -> cache (snd (getTile net z x y ts)) = ∅).
Proof.
  intros Hinv. unfold getTile.
  destruct (cache ts !! tileKey z x y) as [cached|] eqn:Hhit.
  { cbn [fst snd]. split; [exact Hinv|]. split; [reflexivity|]. split; [|done].
    by intros tile [= <-] _. }
  destruct (fetchBuffer net z x y ts) as [buffer| |];
    [|by (cbn [fst snd]; split; [exact Hinv|]; split; [reflexivity|]; split)..].
  destruct (parseTile buffer (byLayer ts) (language ts)) as [parsed| |];
    [|by (cbn [fst snd]; split; [exact Hinv|]; split; [reflexivity|]; split)..].
  destruct (cacheSet_seq (tileKey z x y) parsed ts Hinv (tileKey_nonempty z x y) Hhit)
    as (ts' & -> & Hinv' & Hsz & Hcached & Hzero).
  cbn [fst snd]. split; [exact Hinv'|]. split; [exact Hsz|]. split.
  - intros tile [= <-]. exact Hcached.
  - intros Hcap _. by apply Hzero.
Qed.

Lemma run_seq (evs : list event) (ts : t) :
  Forall is_call evs -> seq_inv ts ->
  seq_inv (run evs ts) /\ cacheSize (run evs ts) = cacheSize ts
  /\ (cacheSize ts = 0 -> cache ts = ∅ -> cache (run evs ts) = ∅).
Proof.
  intros Hevs. revert ts. induction Hevs as [|ev evs Hev _ IH]; intros ts Hinv; [done|].
  destruct ev as [net z x y|]; [|done].
  destruct (getTile_seq net z x y ts Hinv) as (Hinv' & Hsz & _ & Hzero).
  destruct (IH _ Hinv') as (Hinv'' & Hsz' & Hzero').
  unfold run in *. cbn [fold_left step].
  split; [exact Hinv''|]. split; [congruence|].
  intros Hcap Hempty. apply Hzero'; [congruence|]. by apply Hzero.
Qed.

Lemma new_seq openDb styles src size lang (ts : t) :
  new openDb styles src size lang = Returns ts ->
  0 <= default 32 size ->
  seq_inv ts /\ cacheSize ts = default 32 size /\ cache ts = ∅.
Proof.
  intros Hnew Hsize.
  destruct (new_inv _ _ _ _ _ _ Hnew Hsize) as [Hinv Hsz].
  assert (Hq : cacheOrder ts = [] /\ cache ts = ∅).
  { unfold new in Hnew. destruct (startsWith src "http").
    - by injection Hnew as <-.
    - destruct (endsWith src ".mbtiles"); [|done]. destruct (openDb src); [|done].
      by injection Hnew as <-. }
  destruct Hq as [Hq Hc]. split; [|by split]. split; [exact Hinv|].
  rewrite Hq. split; [apply NoDup_nil_2|]. intros k Hk. by apply elem_of_nil in Hk.
Qed.

End SequentialCache.

Section SequentialCacheClaims.
Import TileParser TileSource.
Context `{TileCodec}.

(** When calls do not overlap (as in MBTiles mode, where [getTile] never
    waits), the queue holds the cached keys, each once.  With room for at
    least one tile, a tile that [getTile] has just returned is in the
    cache under its key, so asking again at once gives the same tile
    without reading or decoding anything; with room for none the cache
    stays empty. *)
Theorem sequential_cache openDb styles src capacity lang (ts0 : t)
    (evs : list event) :
  new openDb styles src capacity lang = Returns ts0 ->
  0 <= default 32 capacity ->
  Forall is_call evs ->
  let ts := run evs ts0 in
  NoDup (cacheOrder ts)
  /\ (forall k, k ∈ cacheOrder ts <-> is_Some (cache ts !! k))
  /\ (default 32 capacity = 0 -> cache ts = ∅)
  /\ (1 <= default 32 capacity ->
      forall net z x y tile ts',
        getTile net z x y ts = (Returns tile, ts') ->
        cache ts' !! tileKey z x y = Some tile
        /\ forall (other : TileCodec) net',
             @getTile other net' z x y ts' = (Returns tile, ts')).
Proof.
  intros Hnew Hcap Hevs ts.
  destruct (new_seq _ _ _ _ _ _ Hnew Hcap) as (Hinv0 & Hsz0 & Hempty0).
  destruct (run_seq evs ts0 Hevs Hinv0) as (Hinv & Hsz & Hzero). fold ts in Hinv, Hsz, Hzero.
  destruct Hinv as (Hcinv & Hnd & Hdom).
  split; [exact Hnd|]. split; [|split].
  - intros k. split; [apply Hdom|]. destruct Hcinv as (_ & _ & Hsub & _). apply Hsub.
  - intros Hz. apply Hzero; [congruence | exact Hempty0].
  - intros Hone net z x y tile ts' Hget.
    destruct (getTile_seq net z x y ts (conj Hcinv (conj Hnd Hdom))) as (_ & _ & Hcached & _).
    rewrite Hget in Hcached. cbn [fst snd] in Hcached.
    assert (Hin : cache ts' !! tileKey z x y = Some tile)
      by (apply Hcached; [reflexivity | congruence]).
    split; [exact Hin|]. intros other net'. unfold getTile. by rewrite Hin.
Qed.

End SequentialCacheClaims.

Lemma sequential_cache_witness :
  exists ts0,
    TileSource.new (fun _ => None) ∅ "http://tiles/" (Some 2) None = Returns ts0
    /\ let ts := @TileSource.run TileSource.strict_codec
                   [TileSource.Call (fun _ => Some []) 0 0 0;
                    TileSource.Call (fun _ => Some []) 1 0 0;
                    TileSource.Call (fun _ => Some []) 1 1 0] ts0 in
       NoDup (TileSource.cacheOrder ts)
       /\ exists tile ts',
            @TileSource.getTile TileSource.strict_codec (fun _ => Some []) 3 1 2 ts
            = (Returns tile, ts')
            /\ TileSource.cache ts' !! TileSource.tileKey 3 1 2 = Some tile.
Proof.
  eexists. split; [reflexivity|].
  pose proof (@sequential_cache TileSource.strict_codec (fun _ => None) ∅
                "http://tiles/" (Some 2) None _
                [TileSource.Call (fun _ => Some []) 0 0 0;
                 TileSource.Call (fun _ => Some []) 1 0 0;
                 TileSource.Call (fun _ => Some []) 1 1 0]
                eq_refl ltac:(simpl; lia) ltac:(repeat constructor)) as Hs.
  cbv zeta in *. destruct Hs as (Hnd & _ & _ & Hs).
  split; [exact Hnd|].
  specialize (Hs ltac:(simpl; lia) (fun _ => Some []) 3 1 2).
  destruct (@TileSource.getTile TileSource.strict_codec (fun _ => Some []) 3 1 2 _)
    as [[tile| |] ts'] eqn:Hget; [|vm_compute in Hget; discriminate..].
  exists tile, ts'. split; [reflexivity|]. by destruct (Hs tile ts' eq_refl).
Defined.

(** ** The label index: no overlap *)

Section LabelIndex.
Import LabelBuffer.

Lemma intersects_sym (a b : LabelEntry) : intersects a b = intersects b a.
Proof.
  unfold intersects.
  destruct (Z.leb_spec (minX b) (maxX a)), (Z.leb_spec (minY b) (maxY a)),
    (Z.geb_spec (maxX b) (minX a)), (Z.geb_spec (maxY b) (minY a)),
    (Z.leb_spec (minX a) (maxX b)), (Z.leb_spec (minY a) (maxY b)),
    (Z.geb_spec (maxX a) (minX b)), (Z.geb_spec (maxY a) (minY b)); simpl; try reflexivity; lia.
Qed.

(** Two boxes that hold the same point meet. *)
Lemma intersects_common (x y : Z) (a b : LabelEntry) :
  intersects (mkEntry x y x y []) a = true ->
  intersects (mkEntry x y x y []) b = true ->
  intersects a b = true.
Proof.
  unfold intersects. cbn [minX minY maxX maxY]. intros Ha Hb.
  repeat (apply andb_prop in Ha as [Ha ?]). repeat (apply andb_prop in Hb as [Hb ?]).
  repeat (apply andb_true_intro; split); lia.
Qed.

Lemma apart_snoc (l : list LabelEntry) (e : LabelEntry) :
  apart l -> existsb (intersects e) l = false -> apart (l ++ [e]).
Proof.
  intros Hl He i j a b Hij Ha Hb.
  destruct (decide (j < length l)%nat) as [Hj|Hj].
  - rewrite lookup_app_l in Ha by lia. rewrite lookup_app_l in Hb by lia.
    by apply (Hl i j).
  - assert (Hlen : (j < length (l ++ [e]))%nat) by (apply lookup_lt_is_Some; eauto).
    rewrite length_app in Hlen. cbn [length] in Hlen.
    assert (j = length l) as -> by lia.
    rewrite list_lookup_middle in Hb by done. injection Hb as <-.
    rewrite lookup_app_l in Ha by lia.
    rewrite intersects_sym. destruct (intersects e a) eqn:Hea; [|done].
    assert (Hex : existsb (intersects e) l = true).
    { apply existsb_exists. exists a. split; [|done].
      apply list_elem_of_In. by eapply list_elem_of_lookup_2. }
    congruence.
Qed.

Lemma apply_apart (lb : t) (o : op) :
  apart (tree lb) ->
  apart (tree (apply lb o)) /\ defaultMargin (apply lb o) = defaultMargin lb.
Proof.
  intros Hlb. destruct o as [|s x y margin]; cbn [apply].
  - split; [|done]. intros i j a b _ Ha. cbn [clear tree] in Ha. by rewrite lookup_nil in Ha.
  - unfold writeIfPossible. destruct (hasSpace _ _ _ _ _) eqn:Hs; [|done].
    cbn [snd tree defaultMargin]. split; [|done]. apply apart_snoc; [done|].
    unfold hasSpace in Hs. apply negb_true_iff in Hs.
    rewrite <- Hs. clear. induction (tree lb) as [|a l IH]; [done|].
    cbn [existsb]. by rewrite IH.
Qed.

Lemma run_apart (ops : list op) (lb : t) :
  apart (tree lb) ->
  apart (tree (run ops lb)) /\ defaultMargin (run ops lb) = defaultMargin lb.
Proof.
  revert lb. induction ops as [|o ops IH]; intros lb Hlb; [done|].
  destruct (apply_apart lb o Hlb) as [Ha Hm].
  destruct (IH _ Ha) as [Ha' Hm']. unfold run in *. cbn [fold_left].
  split; [done|congruence].
Qed.

Lemma apart_tail (e : LabelEntry) (l : list LabelEntry) : apart (e :: l) -> apart l.
Proof. intros H i j a b Hij Ha Hb. apply (H (S i) (S j)); [lia|done|done]. Qed.

Lemma featuresAt_one (x y : Z) (l : list LabelEntry) :
  apart l ->
  (length (filter (fun e => intersects (mkEntry x y x y []) e = true) l) <= 1)%nat.
Proof.
  induction l as [|e l IH]; intros Hl; [simpl; lia|].
  rewrite filter_cons. destruct (decide (intersects (mkEntry x y x y []) e = true)) as [He|He].
  - assert (Hnone : filter (fun e => intersects (mkEntry x y x y []) e = true) l = []).
    { destruct (filter _ l) as [|b k] eqn:E; [done|].
      assert (Hb : b ∈ filter (fun e => intersects (mkEntry x y x y []) e = true) l)
        by (rewrite E; left).
      apply list_elem_of_filter in Hb as [Hpb Hin].
      apply list_elem_of_lookup_1 in Hin as [j Hj].
      pose proof (Hl 0%nat (S j) e b ltac:(lia) eq_refl Hj) as Hfar.
      pose proof (intersects_common x y e b He Hpb). congruence. }
    rewrite Hnone. simpl. lia.
  - apply IH. by eapply apart_tail.
Qed.

End LabelIndex.

Section LabelClaims.
Import LabelBuffer.

(** Whatever is written to a label index, and whenever it is cleared, the
    labels it holds never overlap: no two of their padded boxes meet.  So
    a point of the screen lies in the box of at most one label, and
    [featuresAt] returns at most one entry; the margin given to the
    constructor stays. *)
Theorem labels_never_overlap (margin : option Z) (ops : list op) :
  let lb := run ops (new margin) in
  (forall (i j : nat) (a b : LabelEntry),
      i <> j -> tree lb !! i = Some a -> tree lb !! j = Some b ->
      intersects a b = false)
  /\ (forall x y, (length (featuresAt x y lb) <= 1)%nat)
  /\ defaultMargin lb = default 5 margin.
Proof.
  cbv zeta.
  destruct (run_apart ops (new margin)) as [Ha Hm].
  { intros i j a b _ Hi. cbn [new tree] in Hi. by rewrite lookup_nil in Hi. }
  split; [|split; [|exact Hm]].
  - intros i j a b Hij Hi Hj.
    destruct (decide (i < j)%nat) as [Hlt|Hge].
    + by apply (Ha i j).
    + rewrite intersects_sym. apply (Ha j i); [lia|done|done].
  - intros x y. by apply featuresAt_one.
Qed.

End LabelClaims.

(** ** The renderer: tiles, frames and the screen *)

Section TileGrid.
Import Utils Renderer.
Local Open Scope R_scope.

Lemma baseZoom_int (zoom : R) :
  exists k : Z, (0 <= k <= 14)%Z /\ baseZoom zoom = IZR k.
Proof.
  unfold baseZoom, baseZoom_max, floor.
  destruct (Z_lt_le_dec (Zfloor zoom) 0) as [Hneg|Hpos].
  - exists 0%Z. split; [lia|]. apply IZR_lt in Hneg.
    rewrite Rmax_left by lra. rewrite Rmin_right by lra. reflexivity.
  - apply IZR_le in Hpos as Hpos'. rewrite Rmax_right by lra.
    destruct (Z_le_gt_dec (Zfloor zoom) 14) as [Hle|Hgt].
    + exists (Zfloor zoom). split; [lia|]. apply IZR_le in Hle. by rewrite Rmin_right by lra.
    + exists 14%Z. split; [lia|]. assert (14 < Zfloor zoom)%Z as Hlt by lia.
      apply IZR_lt in Hlt. by rewrite Rmin_left by lra.
Qed.

Lemma pow2_IZR (k : Z) : (0 <= k)%Z -> pow2 (IZR k) = IZR (2 ^ k).
Proof.
  intros Hk. unfold pow2. rewrite <- (Z2Nat.id k Hk) at 1.
  rewrite <- INR_IZR_INZ, Rpower_pow by lra.
  rewrite <- (Z2Nat.id k Hk) at 2. rewrite <- pow_IZR. reflexivity.
Qed.




End TileGrid.

Section TileGridClaims.
Import Utils Renderer.
Local Open Scope R_scope.


End TileGridClaims.

Section FrameProperties.
Import Renderer.
Context `{TileParser.TileCodec}.



End FrameProperties.

Section FrameClaims.
Import Renderer.
Context `{TileParser.TileCodec} `{FramePainter}.


End FrameClaims.


Section ScreenProperties.
Import Utils Renderer.

Lemma scale_step_spec (r : t) (tile : VisibleTile) (scale : R)
    (lastX lastY : Z) (result : list Canvas.Point) (point : Canvas.Point) :
  exists lastX' lastY' out,
    scale_step r tile scale (lastX, lastY, result) point = (lastX', lastY', result ++ out)
    /\ (out = [] \/ out = [toPixel tile scale point] /\ padded r (toPixel tile scale point)).
Proof.
  unfold scale_step.
  set (px := Zfloor (fst (position tile) + IZR (Canvas.x point) / scale)).
  set (py := Zfloor (snd (position tile) + IZR (Canvas.y point) / scale)).
  destruct ((px =? lastX) && (py =? lastY)).
  { exists lastX, lastY, []. rewrite app_nil_r. by split; [|left]. }
  destruct (Z.ltb_spec px (- TILE_PADDING)); cbn [orb].
  { exists px, py, []. rewrite app_nil_r. by split; [|left]. }
  destruct (Z.gtb_spec px (width r + TILE_PADDING)); cbn [orb].
  { exists px, py, []. rewrite app_nil_r. by split; [|left]. }
  destruct (Z.ltb_spec py (- TILE_PADDING)); cbn [orb].
  { exists px, py, []. rewrite app_nil_r. by split; [|left]. }
  destruct (Z.gtb_spec py (height r + TILE_PADDING)).
  { exists px, py, []. rewrite app_nil_r. by split; [|left]. }
  exists px, py, [Canvas.mkPoint px py]. split; [done|]. right. split; [done|].
  unfold padded, toPixel. cbn [Canvas.x Canvas.y]. fold px py. lia.
Qed.

Lemma scale_loop_spec (r : t) (tile : VisibleTile) (scale : R) (points : list Canvas.Point)
    (lastX lastY : Z) (result : list Canvas.Point) :
  exists lastX' lastY' out,
    fold_left (scale_step r tile scale) points (lastX, lastY, result)
      = (lastX', lastY', result ++ out)
    /\ sublist out (map (toPixel tile scale) points)
    /\ Forall (padded r) out.
Proof.
  revert lastX lastY result.
  induction points as [|p points IH]; intros lastX lastY result; cbn [fold_left map].
  - exists lastX, lastY, []. rewrite app_nil_r. by repeat split.
  - destruct (scale_step_spec r tile scale lastX lastY result p)
      as (lx & ly & out1 & -> & Hout1).
    destruct (IH lx ly (result ++ out1)) as (lx' & ly' & out & -> & Hsub & Hall).
    exists lx', ly', (out1 ++ out). rewrite app_assoc. split; [done|].
    destruct Hout1 as [->|[-> Hpad]]; cbn [app].
    + split; [by apply sublist_cons|done].
    + split; [by apply sublist_skip|by constructor].
Qed.

Lemma Zfloor_half (w : Z) : Zfloor (IZR w / 2)%R = (w / 2)%Z.
Proof.
  apply Zfloor_eq.
  pose proof (Z.div_mod w 2 ltac:(lia)) as Hdm.
  pose proof (Z.mod_pos_bound w 2 ltac:(lia)) as [Hm1 Hm2].
  assert (Hw : IZR w = (2 * IZR (w / 2) + IZR (w mod 2))%R).
  { rewrite Hdm at 1. rewrite plus_IZR, mult_IZR. reflexivity. }
  apply IZR_le in Hm1. assert (Hm3 : (w mod 2 <= 1)%Z) by lia. apply IZR_le in Hm3.
  rewrite Hw. lra.
Qed.

Lemma normalize_fixed (ll : LatLon) : lon_ok ll -> lat_ok ll -> normalize ll = ll.
Proof.
  intros [Hl1 Hl2] [Ha1 Ha2]. unfold normalize, clamp.
  destruct ll as [la lo]. cbn [lat lon] in *.
  destruct (Rlt_dec lo (-180)); [lra|]. destruct (Rgt_dec lo 180); [lra|].
  destruct (Rle_dec la (-85.0511)); [f_equal; lra|].
  destruct (Rge_dec la 85.0511); [f_equal; lra|]. reflexivity.
Qed.

Lemma llToScreen_self (r : t) :
  (0 <= width r)%Z -> (0 <= height r)%Z ->
  llToScreen (center (state r)) r = Some (Canvas.mkPoint (width r / 2) (height r / 2)).
Proof.
  intros Hw Hh. unfold llToScreen.
  rewrite !Rminus_diag, !Rmult_0_l, !Rplus_0_r, !Zfloor_half.
  pose proof (Z.div_pos (width r) 2 Hw ltac:(lia)).
  pose proof (Z.div_pos (height r) 2 Hh ltac:(lia)).
  pose proof (Z.div_le_upper_bound (width r) 2 (width r) ltac:(lia) ltac:(lia)).
  pose proof (Z.div_le_upper_bound (height r) 2 (height r) ltac:(lia) ltac:(lia)).
  destruct (Z.ltb_spec (width r / 2) (-20)); [lia|].
  destruct (Z.gtb_spec (width r / 2) (width r + 20)); [lia|].
  destruct (Z.ltb_spec (height r / 2) (-20)); [lia|].
  destruct (Z.gtb_spec (height r / 2) (height r + 20)); [lia|]. reflexivity.
Qed.

End ScreenProperties.

Section ScreenClaims.
Import Utils Renderer.

(** [_scalePoints] returns pixels of the points it was given, in their
    order and no more of them: every pixel returned lies in the viewport
    or within 64 pixels of it.  The loop starts from (-1, -1) as the last
    pixel seen, so a first point that lands on that pixel is dropped
    although it is inside the padding. *)
Theorem scalePoints_padded (r : t) (tile : VisibleTile) (points : list Canvas.Point)
    (scale : R) :
  let out := scalePoints r tile points scale in
  sublist out (map (toPixel tile scale) points)
  /\ Forall (fun q => -64 <= Canvas.x q <= width r + 64
                      /\ -64 <= Canvas.y q <= height r + 64) out
  /\ (forall p, toPixel tile scale p = Canvas.mkPoint (-1) (-1) ->
        scalePoints r tile (p :: points) scale = out).
Proof.
  cbv zeta. unfold scalePoints.
  destruct (scale_loop_spec r tile scale points (-1) (-1) [])
    as (lx & ly & out & Hloop & Hsub & Hall).
  rewrite Hloop. cbn [snd app]. split; [exact Hsub|]. split; [exact Hall|].
  intros p Hp. cbn [fold_left]. unfold scale_step at 2.
  unfold toPixel in Hp. injection Hp as -> ->. cbn [Z.eqb Pos.eqb andb].
  by rewrite Hloop.
Qed.

(** Centring the view on a place puts that place at the middle of the
    screen: after [centerOn] a position within the Mercator bounds is at
    pixel [(width / 2, height / 2)], rounded down, and after
    [centerOnGps] the GPS marker is drawn there. *)
Theorem centred_place_on_screen (ll : LatLon) (r : t) :
  lon_ok ll -> lat_ok ll -> 0 <= width r -> 0 <= height r ->
  llToScreen ll (centerOn ll r) = Some (Canvas.mkPoint (width r / 2) (height r / 2))
  /\ (gpsPosition r = Some ll ->
      drawGpsMarker (centerOnGps r)
      = Canvas.marker (width r / 2) (height r / 2) XTERM_gpsMarker 4 (canvas r)).
Proof.
  intros Hlon Hlat Hw Hh.
  assert (Hself : llToScreen ll (centerOn ll r)
                  = Some (Canvas.mkPoint (width r / 2) (height r / 2))).
  { pose proof (llToScreen_self (centerOn ll r) Hw Hh) as Hs.
    unfold centerOn in *. cbn [state center with_state width height] in Hs.
    by rewrite normalize_fixed in * by done. }
  split; [exact Hself|]. intros Hgps.
  unfold centerOnGps, drawGpsMarker. rewrite Hgps.
  change (gpsPosition (centerOn ll r)) with (gpsPosition r). rewrite Hgps, Hself.
  reflexivity.
Qed.

End ScreenClaims.

Lemma centred_place_on_screen_witness :
  Renderer.llToScreen (Utils.mkLatLon 51.5 (-0.12))
    (Renderer.centerOn (Utils.mkLatLon 51.5 (-0.12)) Renderer.sample_renderer)
  = Some (Canvas.mkPoint 4 4).
Proof.
  apply (centred_place_on_screen (Utils.mkLatLon 51.5 (-0.12)) Renderer.sample_renderer).
  - unfold Renderer.lon_ok. simpl. lra.
  - unfold Renderer.lat_ok. simpl. lra.
  - simpl. lia.
  - simpl. lia.
Defined.

(** ** The Mercator conversions on rounded arithmetic *)

Section RealAnalysis.
Local Open Scope R_scope.

(** A function whose derivative is bounded by [M] between two points
    moves by at most [M] times their distance. *)
Lemma lipschitz (f f' : R -> R) (M a b : R) :
  (forall c, Rmin a b <= c <= Rmax a b ->
     derivable_pt_lim f c (f' c) /\ Rabs (f' c) <= M) ->
  Rabs (f b - f a) <= M * Rabs (b - a).
Proof.
  intros Hd.
  assert (Hlt : forall p q, p < q ->
            (forall c, p <= c <= q -> derivable_pt_lim f c (f' c) /\ Rabs (f' c) <= M) ->
            Rabs (f q - f p) <= M * (q - p)).
  { intros p q Hpq Hc.
    destruct (MVT_cor2 f f' p q Hpq (fun c Hcc => proj1 (Hc c Hcc))) as (c & Heq & Hin).
    rewrite Heq, Rabs_mult, (Rabs_pos_eq (q - p)) by lra.
    apply Rmult_le_compat_r; [lra|]. apply Hc. lra. }
  destruct (Rtotal_order a b) as [Hab|[Hab|Hab]].
  - rewrite (Rabs_pos_eq (b - a)) by lra. apply Hlt; [exact Hab|].
    intros c Hc. apply Hd. rewrite Rmin_left, Rmax_right by lra. exact Hc.
  - subst b. replace (f a - f a) with 0 by lra. rewrite Rminus_diag, !Rabs_R0. lra.
  - rewrite (Rabs_minus_sym (f b)), (Rabs_minus_sym b).
    rewrite (Rabs_pos_eq (a - b)) by lra. apply Hlt; [exact Hab|].
    intros c Hc. apply Hd. rewrite Rmin_right, Rmax_left by lra. exact Hc.
Qed.

Lemma cos_lipschitz (a b : R) : Rabs (cos b - cos a) <= Rabs (b - a).
Proof.
  rewrite <- (Rmult_1_l (Rabs (b - a))).
  apply (lipschitz cos (fun c => - sin c)). intros c _. split.
  - apply derivable_pt_lim_cos.
  - rewrite Rabs_Ropp. apply Rabs_le. pose proof (SIN_bound c). lra.
Qed.

Lemma sin_lipschitz (a b : R) : Rabs (sin b - sin a) <= Rabs (b - a).
Proof.
  rewrite <- (Rmult_1_l (Rabs (b - a))).
  apply (lipschitz sin cos). intros c _. split.
  - apply derivable_pt_lim_sin.
  - apply Rabs_le. pose proof (COS_bound c). lra.
Qed.

Lemma atan_lipschitz (a b : R) : Rabs (atan b - atan a) <= Rabs (b - a).
Proof.
  rewrite <- (Rmult_1_l (Rabs (b - a))).
  apply (lipschitz atan (fun c => / (1 + c ^ 2))). intros c _. split.
  - apply derivable_pt_lim_atan.
  - assert (H : 1 <= 1 + c ^ 2) by (pose proof (pow2_ge_0 c); lra).
    rewrite Rabs_pos_eq by (apply Rlt_le, Rinv_0_lt_compat; lra).
    rewrite <- Rinv_1. apply Rinv_le_contravar; lra.
Qed.

Lemma exp_lipschitz (a b m : R) :
  a <= m -> b <= m -> Rabs (exp b - exp a) <= exp m * Rabs (b - a).
Proof.
  intros Ha Hb. apply (lipschitz exp exp). intros c Hc. split.
  - apply derivable_pt_lim_exp.
  - rewrite Rabs_pos_eq by (apply Rlt_le, exp_pos).
    assert (c <= m).
    { destruct Hc as [_ Hc]. unfold Rmax in Hc. destruct (Rle_dec a b); lra. }
    destruct (Req_dec c m) as [->|Hne]; [lra|]. apply Rlt_le, exp_increasing. lra.
Qed.

Lemma ln_lipschitz (a b m : R) :
  0 < m -> m <= a -> m <= b -> Rabs (ln b - ln a) <= / m * Rabs (b - a).
Proof.
  intros Hm Ha Hb. apply (lipschitz ln (fun c => / c)). intros c Hc.
  assert (m <= c).
  { destruct Hc as [Hc _]. unfold Rmin in Hc. destruct (Rle_dec a b); lra. }
  split.
  - apply derivable_pt_lim_ln. lra.
  - rewrite Rabs_pos_eq by (apply Rlt_le, Rinv_0_lt_compat; lra).
    apply Rinv_le_contravar; lra.
Qed.

(** The tangent between two angles where the cosine is at least [c0]. *)
Lemma tan_lipschitz (a b c0 : R) :
  0 < c0 -> c0 <= cos a -> c0 <= cos b ->
  Rabs (tan b - tan a) <= / (c0 * c0) * Rabs (b - a).
Proof.
  intros Hc Ha Hb.
  assert (Heq : tan b - tan a = sin (b - a) * / (cos a * cos b)).
  { unfold tan. rewrite sin_minus. field. split; lra. }
  rewrite Heq, Rabs_mult, Rmult_comm.
  assert (Hs : Rabs (sin (b - a)) <= Rabs (b - a)).
  { pose proof (sin_lipschitz 0 (b - a)) as H. rewrite sin_0, !Rminus_0_r in H. exact H. }
  assert (Hp : c0 * c0 <= cos a * cos b) by nra.
  assert (Hi : Rabs (/ (cos a * cos b)) <= / (c0 * c0)).
  { rewrite Rabs_pos_eq by (apply Rlt_le, Rinv_0_lt_compat; nra).
    apply Rinv_le_contravar; nra. }
  apply Rmult_le_compat; try apply Rabs_pos; assumption.
Qed.

End RealAnalysis.

Section Numerics.
Local Open Scope R_scope.

Lemma cos_1_4845 : 0.0856 <= cos 1.4845.
Proof.
  pose proof (pre_cos_bound 1.4845 1 ltac:(lra) ltac:(lra)) as [Hlo _].
  eapply Rle_trans; [|exact Hlo].
  unfold cos_approx, cos_term. cbn [sum_f_R0 Nat.mul Nat.add].
  rewrite !INR_IZR_INZ.
  change (Z.of_nat (fact 0)) with 1%Z. change (Z.of_nat (fact 2)) with 2%Z.
  change (Z.of_nat (fact 4)) with 24%Z. change (Z.of_nat (fact 6)) with 720%Z.
  cbn [pow]. lra.
Qed.

(** The cosine on the angles of the Mercator latitudes. *)
Lemma cos_floor (a : R) : Rabs a <= 1.4845 -> 0.0856 <= cos a.
Proof.
  intros Ha. pose proof PI2_3_2 as Hpi. pose proof cos_1_4845 as Hc.
  assert (Hpos : forall b, 0 <= b <= 1.4845 -> 0.0856 <= cos b).
  { intros b Hb. eapply Rle_trans; [exact Hc|]. apply cos_decr_1; lra. }
  destruct (Rle_dec 0 a) as [Hp|Hn].
  - apply Hpos. rewrite Rabs_pos_eq in Ha by lra. lra.
  - rewrite <- cos_neg. apply Hpos. rewrite Rabs_left in Ha by lra. lra.
Qed.

Lemma exp_half : 1.5 <= exp (/ 2).
Proof. pose proof (exp_ineq1_le (/ 2)). lra. Qed.

Lemma exp_4 : 25 <= exp 4.
Proof.
  pose proof exp_half as H.
  assert (H1 : exp 1 = exp (/2) * exp (/2)) by (rewrite <- exp_plus; f_equal; lra).
  assert (H2 : exp 2 = exp 1 * exp 1) by (rewrite <- exp_plus; f_equal; lra).
  assert (H4 : exp 4 = exp 2 * exp 2) by (rewrite <- exp_plus; f_equal; lra).
  assert (2.25 <= exp 1) by nra. assert (5.0625 <= exp 2) by nra. nra.
Qed.

End Numerics.

Section MercatorExact.
Import Utils.
Local Open Scope R_scope.

Lemma ln_le_exp (v b : R) : 0 < v -> v <= exp b -> ln v <= b.
Proof.
  intros Hv Hb. destruct (Rle_dec (ln v) b) as [|Hn]; [assumption|].
  assert (Hlt : exp b < exp (ln v)) by (apply exp_increasing; lra).
  rewrite exp_ln in Hlt by assumption. lra.
Qed.

Lemma ln_ge_exp (v b : R) : 0 < v -> exp b <= v -> b <= ln v.
Proof.
  intros Hv Hb. destruct (Rle_dec b (ln v)) as [|Hn]; [assumption|].
  assert (Hlt : exp (ln v) < exp b) by (apply exp_increasing; lra).
  rewrite exp_ln in Hlt by assumption. lra.
Qed.

(** Tangent and secant where the cosine is at least 0.0855. *)
Lemma tan_sec_bounds (a : R) :
  0.0855 <= cos a ->
  - 11.7 <= tan a <= 11.7 /\ 0 < / cos a <= 11.7
  /\ 0.0427 <= tan a + 1 / cos a <= 23.4
  /\ 0.0427 <= 1 / cos a - tan a <= 23.4
  /\ (tan a + 1 / cos a) * (1 / cos a - tan a) = 1.
Proof.
  intros Hc. pose proof (sin2_cos2 a) as Hsc. unfold Rsqr in Hsc.
  pose proof (SIN_bound a) as [Hs1 Hs2].
  set (s := sin a) in *. set (c := cos a) in *.
  assert (Hi : 0 < / c) by (apply Rinv_0_lt_compat; lra).
  assert (Hci : c * / c = 1) by (field; lra).
  assert (Hi2 : / c <= 11.7) by nra.
  assert (Ht : tan a = s * / c) by reflexivity.
  assert (Hone : 1 / c = / c) by lra.
  rewrite Ht, Hone.
  assert (Hp : c * c / 2 <= 1 + s) by nra.
  assert (Hm : c * c / 2 <= 1 - s) by nra.
  split; [split; nra|]. split; [lra|].
  split; [split; nra|]. split; [split; nra|].
  replace ((s * / c + / c) * (/ c - s * / c)) with ((1 - s * s) * (/ c * / c)) by ring.
  replace (1 - s * s) with (c * c) by lra. nra.
Qed.

(** The exact quantities of the Mercator projection at a latitude within
    the bounds of the map, and a little beyond. *)
Lemma mercator_exact (lat : R) :
  -85.0512 <= lat <= 85.0512 ->
  let alpha := lat * Math_PI / 180 in
  let W := tan alpha + 1 / cos alpha in
  - 1.48443 <= alpha <= 1.48443
  /\ 0.0856 <= cos alpha
  /\ 0.0427 <= W <= 23.4
  /\ - 4 <= ln W <= 4.
Proof.
  intros Hlat alpha W.
  assert (Ha : - 1.48443 <= alpha <= 1.48443) by (subst alpha; unfold Math_PI; lra).
  assert (Hc : 0.0856 <= cos alpha) by (apply cos_floor, Rabs_le; lra).
  destruct (tan_sec_bounds alpha ltac:(lra)) as (_ & _ & HW & _).
  fold W in HW. split; [exact Ha|]. split; [exact Hc|]. split; [exact HW|].
  pose proof exp_4 as He. split.
  - apply ln_ge_exp; [lra|].
    replace (exp (-4)) with (/ exp 4) by (rewrite <- exp_Ropp; f_equal; lra).
    assert (/ exp 4 <= / 25) by (apply Rinv_le_contravar; lra). lra.
  - apply ln_le_exp; lra.
Qed.

End MercatorExact.

Section RoundedArithmetic.
Import Utils.
Local Open Scope R_scope.
Context `{Rounded.Arith} (Hacc : Rounded.accurate).

Lemma abs_inv (v e : R) : Rabs v <= e -> - e <= v <= e.
Proof. unfold Rabs. destruct (Rcase_abs v); lra. Qed.

Lemma div_int (v e p : R) : 0 < p -> - (e * p) <= v <= e * p -> - e <= v / p <= e.
Proof.
  intros Hp [H1 H2]. pose proof (Rinv_0_lt_compat p Hp) as Hi.
  assert (Hpi : p * / p = 1) by (field; lra).
  unfold Rdiv. split; nra.
Qed.

Lemma eta_le_u : Rounded.eta <= Rounded.u.
Proof. unfold Rounded.eta, Rounded.u. lra. Qed.

(** The error of one rounding, for a result of size at most [B]. *)
Lemma rnd_int (v B : R) :
  - B <= v <= B -> 1 <= B -> B <= 1e300 ->
  - (2 * B * Rounded.u) <= Rounded.rnd v - v <= 2 * B * Rounded.u.
Proof.
  intros Hv HB1 HB2. pose proof eta_le_u as He.
  assert (Habs : Rabs v <= B) by (apply Rabs_le; lra).
  pose proof (Rounded.rnd_ok Hacc v ltac:(lra)) as Hr. unfold Rounded.rounds in Hr.
  assert (Hu : 0 < Rounded.u) by (unfold Rounded.u; lra).
  apply abs_inv. eapply Rle_trans; [exact Hr|]. nra.
Qed.

(** The error of one library call, for a value of size at most [B]. *)
Lemma lib_int (approx exact B : R) :
  Rounded.within_ulp approx exact -> - B <= exact <= B -> 1 <= B ->
  - (3 * B * Rounded.u) <= approx - exact <= 3 * B * Rounded.u.
Proof.
  intros Hw Hv HB1. pose proof eta_le_u as He. unfold Rounded.within_ulp in Hw.
  assert (Habs : Rabs exact <= B) by (apply Rabs_le; lra).
  assert (Hu : 0 < Rounded.u) by (unfold Rounded.u; lra).
  apply abs_inv. eapply Rle_trans; [exact Hw|]. nra.
Qed.

(** [Math.pow(2, z)] for a zoom from 0 to 30. *)
Lemma pow2_int (zoom : Z) :
  (0 <= zoom <= 30)%Z ->
  0.999 <= Rounded.Math_pow2 (IZR zoom) <= 1100000000.
Proof.
  intros Hz.
  assert (Hz' : 0 <= IZR zoom <= 30) by (split; apply IZR_le; lia).
  pose proof (Rounded.pow2_ok Hacc (IZR zoom) ltac:(lra)) as Hw.
  assert (H1 : 1 <= pow2 (IZR zoom)) by (apply pow2_ge_1; lra).
  assert (H2 : pow2 (IZR zoom) <= 1073741824).
  { replace 1073741824 with (pow2 (IZR 30)) by (rewrite pow2_IZR by lia; reflexivity).
    apply pow2_le. lra. }
  pose proof (lib_int _ _ 1073741824 Hw ltac:(lra) ltac:(lra)) as Hl.
  unfold Rounded.within_ulp in Hw. apply abs_inv in Hw.
  rewrite (Rabs_pos_eq (pow2 (IZR zoom))) in Hw by lra.
  unfold Rounded.u, Rounded.eta in *. lra.
Qed.

End RoundedArithmetic.

Section MercatorForward.
Import Utils.
Local Open Scope R_scope.
Context `{Rounded.Arith} (Hacc : Rounded.accurate).

Lemma mul_int (v e w B : R) :
  - e <= v <= e -> 0 <= w <= B -> - (e * B) <= v * w <= e * B.
Proof. intros Hv Hw. split; nra. Qed.

Lemma scale_int (v B p : R) :
  - B <= v <= B -> 0 <= p -> - (B * p) <= v * p <= B * p.
Proof. intros Hv Hp. split; nra. Qed.

(** The tile row of a latitude, as a fraction of the grid: the computed
    row over the computed grid size is within 9400 roundings of the
    exact fraction. *)
Lemma ll2tile_y_error (lon lat : R) (zoom : Z) :
  -85.0512 <= lat <= 85.0512 -> (0 <= zoom <= 30)%Z ->
  let alpha := lat * Math_PI / 180 in
  let hx := (1 - ln (tan alpha + 1 / cos alpha) / Math_PI) / 2 in
  - (9400 * Rounded.u)
  <= y (Rounded.ll2tile lon lat (IZR zoom)) / Rounded.Math_pow2 (IZR zoom) - hx
  <= 9400 * Rounded.u.
Proof.
  intros Hlat Hzoom alpha hx.
  destruct (mercator_exact lat Hlat) as (Halpha & Hcos & HW & HLam).
  fold alpha in Halpha, Hcos, HW, HLam.
  pose proof (pow2_int Hacc zoom Hzoom) as Hp.
  unfold Rounded.ll2tile. cbn [y]. unfold Math_PI in *.
  set (p := Rounded.Math_pow2 (IZR zoom)) in *.
  set (t1 := Rounded.rnd (lat * (884279719003555 / 281474976710656))).
  set (a := Rounded.rnd (t1 / 180)).
  set (T := Rounded.Math_tan a).
  set (C := Rounded.Math_cos a).
  set (s := Rounded.rnd (1 / C)).
  set (w := Rounded.rnd (T + s)).
  set (L := Rounded.Math_log w).
  set (d := Rounded.rnd (L / (884279719003555 / 281474976710656))).
  set (e1 := Rounded.rnd (1 - d)).
  set (h := Rounded.rnd (e1 / 2)).
  set (W := tan alpha + 1 / cos alpha) in *.
  assert (Hu : Rounded.u = / 9007199254740992) by reflexivity.
  (* the angle *)
  assert (HLP : - 268 <= lat * (884279719003555 / 281474976710656) <= 268) by lra.
  pose proof (rnd_int Hacc _ 268 HLP ltac:(lra) ltac:(lra)) as H1. fold t1 in H1.
  pose proof (rnd_int Hacc (t1 / 180) 2 ltac:(lra) ltac:(lra) ltac:(lra)) as H2.
  fold a in H2.
  assert (Ha : - (7 * Rounded.u) <= a - alpha <= 7 * Rounded.u) by (subst alpha; lra).
  assert (Hca : 0.0856 <= cos a) by (apply cos_floor, Rabs_le; lra).
  (* the tangent *)
  destruct (tan_sec_bounds a ltac:(lra)) as (Hta & _).
  pose proof (lib_int _ _ 12 (Rounded.tan_ok Hacc a ltac:(lra)) ltac:(lra) ltac:(lra)) as H3.
  fold T in H3.
  pose proof (tan_lipschitz alpha a 0.0856 ltac:(lra) Hcos Hca) as H3'.
  assert (Habs : Rabs (a - alpha) <= 7 * Rounded.u) by (apply Rabs_le; lra).
  apply abs_inv in H3'.
  assert (HT : - (1000 * Rounded.u) <= T - tan alpha <= 1000 * Rounded.u) by lra.
  (* the secant *)
  pose proof (COS_bound a) as [Hcb1 Hcb2].
  pose proof (lib_int _ _ 1 (Rounded.cos_ok Hacc a) ltac:(lra) ltac:(lra)) as H4.
  fold C in H4.
  pose proof (cos_lipschitz alpha a) as H4'. apply abs_inv in H4'.
  assert (HC : - (10 * Rounded.u) <= C - cos alpha <= 10 * Rounded.u) by lra.
  assert (HC0 : 0.0855 <= C) by lra.
  destruct (tan_sec_bounds alpha ltac:(lra)) as (Htal & Hical & _).
  assert (HiC : 0 < / C <= 11.7).
  { split; [apply Rinv_0_lt_compat; lra|].
    assert (/ C <= / 0.0855) by (apply Rinv_le_contravar; lra). lra. }
  pose proof (rnd_int Hacc (1 / C) 12 ltac:(lra) ltac:(lra) ltac:(lra)) as H5.
  fold s in H5.
  assert (Hsec : 1 / C - 1 / cos alpha = (cos alpha - C) * / C * / cos alpha)
    by (field; lra).
  pose proof (mul_int (cos alpha - C) (10 * Rounded.u) (/ C) 11.7 ltac:(lra) ltac:(lra))
    as H5'.
  pose proof (mul_int ((cos alpha - C) * / C) (10 * Rounded.u * 11.7) (/ cos alpha) 11.7
                H5' ltac:(lra)) as H5''.
  assert (Hs : - (1400 * Rounded.u) <= s - 1 / cos alpha <= 1400 * Rounded.u) by lra.
  (* their sum and its logarithm *)
  pose proof (rnd_int Hacc (T + s) 24 ltac:(lra) ltac:(lra) ltac:(lra)) as H6.
  fold w in H6.
  assert (Hw : - (2500 * Rounded.u) <= w - W <= 2500 * Rounded.u) by (subst W; lra).
  assert (Hw0 : 0.0426 <= w <= 23.5) by lra.
  pose proof exp_4 as He4.
  assert (Hlnw : - 4 <= ln w <= 4).
  { split.
    - apply ln_ge_exp; [lra|].
      replace (exp (-4)) with (/ exp 4) by (rewrite <- exp_Ropp; f_equal; lra).
      assert (/ exp 4 <= / 25) by (apply Rinv_le_contravar; lra). lra.
    - apply ln_le_exp; lra. }
  pose proof (lib_int _ _ 4 (Rounded.log_ok Hacc w ltac:(lra)) Hlnw ltac:(lra)) as H7.
  fold L in H7.
  pose proof (ln_lipschitz W w 0.0426 ltac:(lra) ltac:(lra) ltac:(lra)) as H7'.
  assert (Habw : Rabs (w - W) <= 2500 * Rounded.u) by (apply Rabs_le; lra).
  apply abs_inv in H7'.
  assert (HL : - (58800 * Rounded.u) <= L - ln W <= 58800 * Rounded.u) by lra.
  (* the fraction *)
  pose proof (rnd_int Hacc (L / (884279719003555 / 281474976710656)) 2 ltac:(lra) ltac:(lra) ltac:(lra)) as H8.
  fold d in H8.
  pose proof (rnd_int Hacc (1 - d) 3 ltac:(lra) ltac:(lra) ltac:(lra)) as H9.
  fold e1 in H9.
  pose proof (rnd_int Hacc (e1 / 2) 2 ltac:(lra) ltac:(lra) ltac:(lra)) as H10.
  fold h in H10.
  assert (Hh : - (9390 * Rounded.u) <= h - hx <= 9390 * Rounded.u) by (subst hx; lra).
  assert (Hhx : - 1.14 <= hx <= 1.14) by (subst hx; lra).
  (* the row *)
  pose proof (scale_int h 2 p ltac:(lra) ltac:(lra)) as Hhp.
  pose proof (rnd_int Hacc (h * p) (2 * p) Hhp ltac:(lra) ltac:(lra)) as H11.
  assert (Hq : Rounded.rnd (h * p) / p - h = (Rounded.rnd (h * p) - h * p) / p)
    by (field; lra).
  pose proof (div_int (Rounded.rnd (h * p) - h * p) (4 * Rounded.u) p ltac:(lra)
                ltac:(lra)) as H11'.
  lra.
Qed.

End MercatorForward.

Section MercatorBackward.
Import Utils.
Local Open Scope R_scope.
Context `{Rounded.Arith} (Hacc : Rounded.accurate).

Lemma prod_int (a A b B : R) :
  - A <= a <= A -> - B <= b <= B -> - (A * B) <= a * b <= A * B.
Proof. intros Ha Hb. split; nra. Qed.

Lemma exp_small (t : R) : 0 <= t <= / 2 -> exp t <= 1 + 2 * t.
Proof.
  intros Ht. pose proof (exp_ineq1_le (- t)) as Hlo.
  pose proof (exp_pos t) as Hp. pose proof (exp_pos (- t)) as Hn.
  assert (Hone : exp t * exp (- t) = 1) by (rewrite <- exp_plus, Rplus_opp_r; apply exp_0).
  nra.
Qed.

(** From a row fraction within 9500 roundings of the exact one,
    [tile2ll] returns the latitude to within 1e-8 degrees. *)
Lemma tile2ll_lat_error (xv yv lat : R) (zoom : Z) :
  -85.0512 <= lat <= 85.0512 -> (0 <= zoom <= 30)%Z ->
  let alpha := lat * Math_PI / 180 in
  let hx := (1 - ln (tan alpha + 1 / cos alpha) / Math_PI) / 2 in
  - (9500 * Rounded.u) <= yv / Rounded.Math_pow2 (IZR zoom) - hx <= 9500 * Rounded.u ->
  - 1e-8 <= Utils.lat (Rounded.tile2ll xv yv (IZR zoom)) - lat <= 1e-8.
Proof.
  intros Hlat Hzoom alpha hx Hy.
  destruct (mercator_exact lat Hlat) as (Halpha & Hcos & HW & HLam).
  fold alpha in Halpha, Hcos, HW, HLam.
  pose proof (pow2_int Hacc zoom Hzoom) as Hp.
  unfold Rounded.tile2ll, Rounded.rad2deg. cbn [Utils.lat]. unfold Math_PI in *.
  set (p := Rounded.Math_pow2 (IZR zoom)) in *.
  set (m1 := Rounded.rnd (2 * (884279719003555 / 281474976710656))).
  set (m2 := Rounded.rnd (m1 * yv)).
  set (m3 := Rounded.rnd (m2 / p)).
  set (N := Rounded.rnd (884279719003555 / 281474976710656 - m3)).
  set (E1 := Rounded.Math_exp N).
  set (E2 := Rounded.Math_exp (- N)).
  set (D := Rounded.rnd (E1 - E2)).
  set (S := Rounded.rnd (0.5 * D)).
  set (A := Rounded.Math_atan S).
  set (W := tan alpha + 1 / cos alpha) in *.
  assert (Hu : Rounded.u = / 9007199254740992) by reflexivity.
  assert (Hhx : - 1.14 <= hx <= 1.14) by (subst hx; lra).
  set (r := yv / p) in *.
  assert (Hr : - 1.2 <= r <= 1.2) by lra.
  assert (Hyv : yv = r * p) by (subst r; field; lra).
  (* the angle of the row *)
  pose proof (rnd_int Hacc (2 * (884279719003555 / 281474976710656)) 7
                ltac:(lra) ltac:(lra) ltac:(lra)) as H12. fold m1 in H12.
  pose proof (prod_int m1 6.3 r 1.2 ltac:(lra) ltac:(lra)) as Hm1r.
  pose proof (scale_int (m1 * r) 8 p ltac:(lra) ltac:(lra)) as Hm1y.
  replace (m1 * r * p) with (m1 * yv) in Hm1y by (rewrite Hyv; ring).
  pose proof (rnd_int Hacc (m1 * yv) (8 * p) Hm1y ltac:(lra) ltac:(lra)) as H13.
  fold m2 in H13.
  pose proof (div_int (m2 - m1 * yv) (16 * Rounded.u) p ltac:(lra) ltac:(lra)) as H13'.
  assert (Hq : (m2 - m1 * yv) / p = m2 / p - m1 * r) by (subst r; field; lra).
  rewrite Hq in H13'.
  pose proof (rnd_int Hacc (m2 / p) 9 ltac:(lra) ltac:(lra) ltac:(lra)) as H14.
  fold m3 in H14.
  pose proof (prod_int (m1 - 2 * (884279719003555 / 281474976710656)) (14 * Rounded.u)
                r 1.2 ltac:(lra) ltac:(lra)) as Hq1.
  assert (Hm3 : - (59750 * Rounded.u)
                <= m3 - 2 * (884279719003555 / 281474976710656) * hx
                <= 59750 * Rounded.u) by lra.
  pose proof (rnd_int Hacc (884279719003555 / 281474976710656 - m3) 11
                ltac:(lra) ltac:(lra) ltac:(lra)) as H15. fold N in H15.
  assert (HN : - (59800 * Rounded.u) <= N - ln W <= 59800 * Rounded.u) by (subst hx; lra).
  (* the hyperbolic sine *)
  destruct (tan_sec_bounds alpha ltac:(lra)) as (Htal & _ & _ & HV & HWV).
  fold W in HWV.
  assert (HexpW : exp (ln W) = W) by (apply exp_ln; lra).
  assert (HexpV : exp (- ln W) = 1 / cos alpha - tan alpha).
  { rewrite exp_Ropp, HexpW. apply Rmult_eq_reg_l with W; [|lra].
    rewrite Rinv_r by lra. lra. }
  pose proof (exp_small 1e-9 ltac:(lra)) as Hsmall.
  assert (Hm : exp (ln W + 1e-9) <= 23.5).
  { rewrite exp_plus, HexpW. pose proof (exp_pos 1e-9). nra. }
  assert (Hm' : exp (- ln W + 1e-9) <= 23.5).
  { rewrite exp_plus, HexpV. pose proof (exp_pos 1e-9). nra. }
  pose proof (exp_lipschitz (ln W) N (ln W + 1e-9) ltac:(lra) ltac:(lra)) as H16.
  pose proof (exp_lipschitz (- ln W) (- N) (- ln W + 1e-9) ltac:(lra) ltac:(lra)) as H17.
  assert (HabsN : Rabs (N - ln W) <= 59800 * Rounded.u) by (apply Rabs_le; lra).
  assert (HabsN' : Rabs (- N - - ln W) <= 59800 * Rounded.u) by (apply Rabs_le; lra).
  pose proof (Rabs_pos (N - ln W)) as Hpos1. pose proof (Rabs_pos (- N - - ln W)) as Hpos2.
  pose proof (exp_pos (ln W + 1e-9)) as Hep1. pose proof (exp_pos (- ln W + 1e-9)) as Hep2.
  assert (H16' : Rabs (exp N - exp (ln W)) <= 23.5 * (59800 * Rounded.u)).
  { eapply Rle_trans; [exact H16|]. apply Rmult_le_compat; lra. }
  assert (H17' : Rabs (exp (- N) - exp (- ln W)) <= 23.5 * (59800 * Rounded.u)).
  { eapply Rle_trans; [exact H17|]. apply Rmult_le_compat; lra. }
  apply abs_inv in H16', H17'. rewrite HexpW in H16'. rewrite HexpV in H17'.
  pose proof (exp_pos N) as HeN. pose proof (exp_pos (- N)) as HeN'.
  pose proof (lib_int _ _ 24 (Rounded.exp_ok Hacc N ltac:(lra)) ltac:(lra) ltac:(lra)) as H16''.
  pose proof (lib_int _ _ 24 (Rounded.exp_ok Hacc (- N) ltac:(lra)) ltac:(lra) ltac:(lra))
    as H17''.
  fold E1 in H16''. fold E2 in H17''.
  pose proof (rnd_int Hacc (E1 - E2) 48 ltac:(lra) ltac:(lra) ltac:(lra)) as H18.
  fold D in H18.
  pose proof (rnd_int Hacc (0.5 * D) 24 ltac:(lra) ltac:(lra) ltac:(lra)) as H19.
  fold S in H19.
  assert (HS : - (1405600 * Rounded.u) <= S - tan alpha <= 1405600 * Rounded.u)
    by (subst W; lra).
  (* the angle and the latitude *)
  pose proof (atan_bound S) as Hab. pose proof PI_4 as Hpi4. pose proof PI2_3_2 as Hpi.
  pose proof (lib_int _ _ 2 (Rounded.atan_ok Hacc S) ltac:(lra) ltac:(lra)) as H20.
  fold A in H20.
  pose proof (atan_lipschitz (tan alpha) S) as H20'.
  rewrite atan_tan in H20' by lra.
  assert (HabsS : Rabs (S - tan alpha) <= 1405600 * Rounded.u) by (apply Rabs_le; lra).
  apply abs_inv in H20'.
  assert (HA : - (1405610 * Rounded.u) <= A - alpha <= 1405610 * Rounded.u) by lra.
  unfold Rounded.RAD2DEG.
  pose proof (rnd_int Hacc (A * (1007958012753983 / 17592186044416)) 86
                ltac:(lra) ltac:(lra) ltac:(lra)) as H21.
  subst alpha. lra.
Qed.

(** The tile column of a longitude, as a fraction of the grid. *)
Lemma ll2tile_x_error (lon lat : R) (zoom : Z) :
  -180 <= lon <= 180 -> (0 <= zoom <= 30)%Z ->
  - (10 * Rounded.u)
  <= x (Rounded.ll2tile lon lat (IZR zoom)) / Rounded.Math_pow2 (IZR zoom)
     - (lon + 180) / 360
  <= 10 * Rounded.u.
Proof.
  intros Hlon Hzoom. pose proof (pow2_int Hacc zoom Hzoom) as Hp.
  unfold Rounded.ll2tile. cbn [x].
  set (p := Rounded.Math_pow2 (IZR zoom)) in *.
  set (l1 := Rounded.rnd (lon + 180)).
  set (l2 := Rounded.rnd (l1 / 360)).
  assert (Hu : Rounded.u = / 9007199254740992) by reflexivity.
  pose proof (rnd_int Hacc (lon + 180) 360 ltac:(lra) ltac:(lra) ltac:(lra)) as H1.
  fold l1 in H1.
  pose proof (rnd_int Hacc (l1 / 360) 2 ltac:(lra) ltac:(lra) ltac:(lra)) as H2.
  fold l2 in H2.
  pose proof (scale_int l2 2 p ltac:(lra) ltac:(lra)) as Hlp.
  pose proof (rnd_int Hacc (l2 * p) (2 * p) Hlp ltac:(lra) ltac:(lra)) as H3.
  assert (Hq : Rounded.rnd (l2 * p) / p - l2 = (Rounded.rnd (l2 * p) - l2 * p) / p)
    by (field; lra).
  pose proof (div_int (Rounded.rnd (l2 * p) - l2 * p) (4 * Rounded.u) p ltac:(lra)
                ltac:(lra)) as H3'.
  lra.
Qed.

(** From a column fraction within [e] of [q], [tile2ll] returns the
    longitude [360 q - 180] to within [360 e] and 2600 roundings. *)
Lemma tile2ll_lon_error (xv yv q e : R) (zoom : Z) :
  (0 <= zoom <= 30)%Z -> 0 <= q <= 1 -> 0 <= e <= / 1000 ->
  - e <= xv / Rounded.Math_pow2 (IZR zoom) - q <= e ->
  - (360 * e + 2600 * Rounded.u)
  <= Utils.lon (Rounded.tile2ll xv yv (IZR zoom)) - (q * 360 - 180)
  <= 360 * e + 2600 * Rounded.u.
Proof.
  intros Hzoom Hq He Hx. pose proof (pow2_int Hacc zoom Hzoom) as Hp.
  unfold Rounded.tile2ll. cbn [Utils.lon].
  set (p := Rounded.Math_pow2 (IZR zoom)) in *.
  set (r1 := Rounded.rnd (xv / p)).
  set (r2 := Rounded.rnd (r1 * 360)).
  assert (Hu : Rounded.u = / 9007199254740992) by reflexivity.
  pose proof (rnd_int Hacc (xv / p) 2 ltac:(lra) ltac:(lra) ltac:(lra)) as H1.
  fold r1 in H1.
  pose proof (rnd_int Hacc (r1 * 360) 362 ltac:(lra) ltac:(lra) ltac:(lra)) as H2.
  fold r2 in H2.
  pose proof (rnd_int Hacc (r2 - 180) 182 ltac:(lra) ltac:(lra) ltac:(lra)) as H3.
  lra.
Qed.

End MercatorBackward.

Section MercatorClaims.
Import Utils.
Local Open Scope R_scope.
Context `{Rounded.Arith}.

(** C8.  The round trip on binary64.  With every operation rounded to
    the nearest double and every [Math] function within one unit in the
    last place, for every longitude in [-180, 180], every latitude
    strictly inside the Mercator bounds and every integer zoom from 0 to
    30, [tile2ll] of the tile coordinates that [ll2tile] returns gives the
    longitude back to within 1e-12 degrees and the latitude to within 1e-8
    degrees. *)
Theorem mercator_roundtrip (lon lat : R) (zoom : Z) :
  Rounded.accurate ->
  -180 <= lon <= 180 -> -85.0511 < lat < 85.0511 -> (0 <= zoom <= 30)%Z ->
  let tile := Rounded.ll2tile lon lat (IZR zoom) in
  let back := Rounded.tile2ll (x tile) (y tile) (IZR zoom) in
  Rabs (Utils.lon back - lon) <= 1e-12 /\ Rabs (Utils.lat back - lat) <= 1e-8.
Proof.
  intros Hacc Hlon Hlat Hzoom tile back. subst back. split.
  - pose proof (ll2tile_x_error Hacc lon lat zoom Hlon Hzoom) as Hx. fold tile in Hx.
    assert (Hu : Rounded.u = / 9007199254740992) by reflexivity.
    pose proof (tile2ll_lon_error Hacc (x tile) (y tile) ((lon + 180) / 360)
                  (10 * Rounded.u) zoom Hzoom ltac:(lra) ltac:(lra) Hx) as Hb.
    apply Rabs_le. lra.
  - pose proof (ll2tile_y_error Hacc lon lat zoom ltac:(lra) Hzoom) as Hy.
    cbv zeta in Hy. fold tile in Hy.
    assert (Hu : Rounded.u = / 9007199254740992) by reflexivity.
    pose proof (tile2ll_lat_error Hacc (x tile) (y tile) lat zoom ltac:(lra) Hzoom
                  ltac:(cbv zeta; lra)) as Hl.
    apply Rabs_le. lra.
Qed.

End MercatorClaims.

Section CorrectRounding.
Import Utils.
Local Open Scope R_scope.

Lemma nearest_even_error (m : R) :
  - / 2 <= IZR (Rounded.nearest_even m) - m <= / 2.
Proof.
  unfold Rounded.nearest_even. pose proof (Zfloor_bound m) as [Hlo Hhi].
  destruct (Rlt_dec _ _) as [H1|H1]; [lra|].
  destruct (Rlt_dec _ _) as [H2|H2]; [rewrite plus_IZR; lra|].
  destruct (Z.even _); [lra|]. rewrite plus_IZR. lra.
Qed.

Lemma pow2_neg_52 : pow2 (-52) = / 4503599627370496.
Proof.
  unfold pow2. replace (-52) with (- (52)) by lra. rewrite Rpower_Ropp.
  f_equal. change (Rpower 2 52) with (pow2 (IZR 52)). rewrite pow2_IZR by lia. reflexivity.
Qed.

(** [round53] is within half a unit in the last place. *)
Lemma round53_error (v : R) : Rabs (Rounded.round53 v - v) <= Rounded.u * Rabs v.
Proof.
  unfold Rounded.round53. destruct (Req_dec_T v 0) as [->|Hv].
  { rewrite Rminus_diag, Rabs_R0. lra. }
  set (e := Zfloor (ln (Rabs v) / ln 2)).
  set (m := v * pow2 (IZR (52 - e))).
  pose proof (nearest_even_error m) as Hn.
  pose proof (pow2_pos (IZR (52 - e))) as Hs. pose proof (pow2_pos (IZR (e - 52))) as Hs'.
  assert (Hss : pow2 (IZR (52 - e)) * pow2 (IZR (e - 52)) = 1).
  { rewrite <- pow2_add, <- plus_IZR. replace (52 - e + (e - 52))%Z with 0%Z by lia.
    apply pow2_0. }
  assert (Heq : IZR (Rounded.nearest_even m) * pow2 (IZR (e - 52)) - v
                = (IZR (Rounded.nearest_even m) - m) * pow2 (IZR (e - 52))).
  { subst m. rewrite Rmult_minus_distr_r, Rmult_assoc, Hss. lra. }
  rewrite Heq, Rabs_mult, (Rabs_pos_eq (pow2 _)) by lra.
  assert (Hhalf : Rabs (IZR (Rounded.nearest_even m) - m) <= / 2) by (apply Rabs_le; lra).
  assert (Hpos : 0 < Rabs v) by (apply Rabs_pos_lt; exact Hv).
  assert (Hln2 : 0 < ln 2) by (pose proof ln_lt_2; lra).
  assert (Hle : IZR e * ln 2 <= ln (Rabs v)).
  { pose proof (Zfloor_bound (ln (Rabs v) / ln 2)) as [Hf _]. fold e in Hf.
    apply (Rmult_le_compat_r (ln 2)) in Hf; [|lra].
    unfold Rdiv in Hf. rewrite Rmult_assoc, Rinv_l, Rmult_1_r in Hf by lra. exact Hf. }
  assert (He : pow2 (IZR e) <= Rabs v).
  { unfold pow2, Rpower. eapply Rle_trans; [|right; apply (exp_ln (Rabs v) Hpos)].
    destruct Hle as [Hlt|Heq']; [apply Rlt_le, exp_increasing; exact Hlt | rewrite Heq'; lra]. }
  assert (Hsplit : pow2 (IZR (e - 52)) = pow2 (IZR e) * / 4503599627370496).
  { rewrite minus_IZR. unfold Rminus. rewrite pow2_add.
    f_equal. rewrite <- pow2_neg_52. reflexivity. }
  rewrite Hsplit. pose proof (pow2_pos (IZR e)) as Hpe. pose proof (Rabs_pos (IZR (Rounded.nearest_even m) - m)).
  unfold Rounded.u.
  assert (Hstep : Rabs (IZR (Rounded.nearest_even m) - m) * (pow2 (IZR e) * / 4503599627370496)
                  <= / 2 * (pow2 (IZR e) * / 4503599627370496)).
  { apply Rmult_le_compat_r; [|exact Hhalf]. nra. }
  lra.
Qed.

Lemma round53_rounds (v : R) : Rounded.rounds (Rounded.round53 v) v.
Proof.
  unfold Rounded.rounds. pose proof (round53_error v). unfold Rounded.eta. lra.
Qed.

Lemma round53_within_ulp (v : R) : Rounded.within_ulp (Rounded.round53 v) v.
Proof.
  unfold Rounded.within_ulp. pose proof (round53_error v). pose proof (Rabs_pos v).
  unfold Rounded.eta, Rounded.u in *. lra.
Qed.

(** Correct rounding is accurate in the sense assumed of the runtime. *)
Lemma correctly_rounded_accurate : @Rounded.accurate Rounded.correctly_rounded.
Proof.
  split; intros; cbn; first [apply round53_rounds | apply round53_within_ulp].
Qed.

End CorrectRounding.

Lemma mercator_roundtrip_witness :
  let tile := @Rounded.ll2tile Rounded.correctly_rounded (-6.2603) 53.3498 12 in
  let back := @Rounded.tile2ll Rounded.correctly_rounded (Utils.x tile) (Utils.y tile) 12 in
  (Rabs (Utils.lon back - -6.2603) <= 1e-12 /\ Rabs (Utils.lat back - 53.3498) <= 1e-8)%R.
Proof.
  apply (@mercator_roundtrip Rounded.correctly_rounded (-6.2603) 53.3498 12).
  - exact correctly_rounded_accurate.
  - lra.
  - lra.
  - lia.
Defined.

(** ** Panning on rounded arithmetic *)

Section PanRounded.
Import Utils.
Local Open Scope R_scope.
Context `{Rounded.Arith} (Hacc : Rounded.accurate).

Lemma ln2_bounds : 0 < ln 2 <= 1.
Proof.
  pose proof ln_lt_2. split; [lra|]. apply ln_le_exp; [lra|].
  pose proof (exp_ineq1_le 1). lra.
Qed.

(** Two to a small power is near one. *)
Lemma pow2_near (d e : R) :
  - e <= d <= e -> e <= / 2 -> 1 - e <= pow2 d <= 1 + 2 * e.
Proof.
  intros Hd He. unfold pow2, Rpower. pose proof ln2_bounds as [Hl0 Hl1].
  pose proof (exp_ineq1_le (d * ln 2)) as Hlo.
  destruct (Rle_dec 0 d) as [Hp|Hn].
  - pose proof (exp_small (d * ln 2) ltac:(nra)) as Hhi. split; nra.
  - assert (Hle : exp (d * ln 2) <= exp 0).
    { destruct (Req_dec (d * ln 2) 0) as [->|Hne]; [lra|].
      apply Rlt_le, exp_increasing. nra. }
    rewrite exp_0 in Hle. split; nra.
Qed.

(** The tile size on rounded arithmetic against the exact one. *)
Lemma tileSize_error (zoom : R) :
  0 <= zoom <= 18 ->
  256 <= Utils.tileSizeAtZoom zoom <= 4096
  /\ - (87400 * Rounded.u)
     <= Rounded.tileSizeAtZoom zoom - Utils.tileSizeAtZoom zoom
     <= 87400 * Rounded.u.
Proof.
  intros Hz. unfold Rounded.tileSizeAtZoom, Utils.tileSizeAtZoom, TILE_SIZE.
  assert (Hu : Rounded.u = / 9007199254740992) by reflexivity.
  assert (Hb : 0 <= zoom - baseZoom zoom <= 4).
  { pose proof (Zfloor_bound zoom) as [Hf1 Hf2].
    unfold baseZoom, baseZoom_max, Utils.floor, Rmin, Rmax.
    destruct (Rle_dec 0 _); destruct (Rle_dec 14 _); lra. }
  set (frac := zoom - baseZoom zoom) in *.
  pose proof (rnd_int Hacc frac 4 ltac:(lra) ltac:(lra) ltac:(lra)) as H1.
  set (f' := Rounded.rnd frac) in *.
  pose proof (pow2_le 0 frac ltac:(lra)) as Hlo. pose proof (pow2_le frac 4 ltac:(lra)) as Hhi.
  rewrite pow2_0 in Hlo.
  assert (H4 : pow2 4 = 16).
  { replace 4 with (1 + 1 + 1 + 1) by lra. rewrite !pow2_add, pow2_1. lra. }
  rewrite H4 in Hhi.
  pose proof (pow2_near (f' - frac) (8 * Rounded.u) ltac:(lra) ltac:(lra)) as Hnear.
  assert (Hsplit : pow2 f' = pow2 frac * pow2 (f' - frac)).
  { rewrite <- pow2_add. f_equal. lra. }
  assert (Hpf : - (256 * Rounded.u) <= pow2 f' - pow2 frac <= 256 * Rounded.u).
  { rewrite Hsplit. set (g := pow2 (f' - frac)) in *. set (P := pow2 frac) in *.
    clear -Hlo Hhi Hnear Hu. split; nra. }
  pose proof (lib_int _ _ 17 (Rounded.pow2_ok Hacc f' ltac:(lra)) ltac:(lra) ltac:(lra))
    as H2.
  set (Mp := Rounded.Math_pow2 f') in *.
  pose proof (rnd_int Hacc (256 * Mp) 4352 ltac:(lra) ltac:(lra) ltac:(lra)) as H3.
  split; lra.
Qed.

(** A ratio of two numbers close to one another. *)
Lemma ratio_int (a b e : R) :
  0 < b -> - (e * b) <= a - b <= e * b -> 0 <= e <= / 2 ->
  - (2 * e) <= b / a - 1 <= 2 * e.
Proof.
  intros Hb Hab He.
  assert (Ha : b / 2 <= a) by nra.
  assert (Hq : b / a - 1 = (b - a) / a) by (field; lra).
  rewrite Hq. apply div_int; [lra|]. split; nra.
Qed.

(** A pan along the row, before [normalize]: the longitude and latitude
    that [tile2ll] returns. *)
Lemma pan_row_raw (dx lon lat zoom : R) :
  0 <= zoom <= 18 -> -85.0512 <= lat <= 85.0512 -> -180 <= lon <= 180 ->
  -180 <= lon + dx * 360 / (256 * pow2 zoom) <= 180 ->
  let z := baseZoom zoom in
  let c := Rounded.ll2tile lon lat z in
  let ts := Rounded.tileSizeAtZoom zoom in
  let raw := Rounded.tile2ll (Rounded.rnd (x c + Rounded.rnd (dx / ts)))
                             (Rounded.rnd (y c + Rounded.rnd (0 / ts))) z in
  (- (3 / 100000000000) <= Utils.lon raw - (lon + dx * 360 / (256 * pow2 zoom))
   <= 3 / 100000000000)
  /\ (- (1 / 100000000) <= Utils.lat raw - lat <= 1 / 100000000).
Proof.
  intros Hzoom Hlat Hlon Hshift.
  destruct (baseZoom_int zoom) as (k & Hk & Hbz). rewrite Hbz. cbv zeta.
  assert (Hk30 : (0 <= k <= 30)%Z) by lia.
  assert (Hu : Rounded.u = / 9007199254740992) by reflexivity.
  pose proof (pow2_int Hacc k Hk30) as Hp.
  destruct (tileSize_error zoom Hzoom) as [Htsx Hts].
  pose proof (tileSize_world zoom) as Hworld. rewrite Hbz in Hworld.
  pose proof (ll2tile_x_error Hacc lon lat k Hlon Hk30) as Hx.
  pose proof (ll2tile_y_error Hacc lon lat k Hlat Hk30) as Hy. cbv zeta in Hy.
  set (c := Rounded.ll2tile lon lat (IZR k)) in *.
  set (p := Rounded.Math_pow2 (IZR k)) in *.
  set (px := pow2 (IZR k)) in *.
  set (ts := Rounded.tileSizeAtZoom zoom) in *.
  set (tsx := Utils.tileSizeAtZoom zoom) in *.
  assert (Hpx : 1 <= px) by (apply pow2_ge_1, IZR_le; lia).
  set (sf := dx / (tsx * px)).
  assert (Hsf : dx * 360 / (256 * pow2 zoom) = sf * 360).
  { subst sf. rewrite <- Hworld. field. split; lra. }
  rewrite Hsf in *.
  set (q0 := (lon + 180) / 360) in *.
  assert (Hq0 : 0 <= q0 <= 1) by (subst q0; lra).
  assert (Hq : 0 <= q0 + sf <= 1) by (subst q0; lra).
  assert (Hsf1 : - 1 <= sf <= 1) by lra.
  (* the grid size and the tile size, computed against exact *)
  pose proof (Rounded.pow2_ok Hacc (IZR k) ltac:(split; [apply Rle_trans with 0; [lra|apply IZR_le; lia] | apply Rle_trans with 30; [apply IZR_le; lia|lra]])) as Hpw.
  fold p px in Hpw. unfold Rounded.within_ulp in Hpw. apply abs_inv in Hpw.
  rewrite (Rabs_pos_eq px) in Hpw by lra.
  assert (Hpe : - (3 * Rounded.u * px) <= p - px <= 3 * Rounded.u * px).
  { unfold Rounded.eta in Hpw. split; nra. }
  pose proof (ratio_int p px (3 * Rounded.u) ltac:(lra) ltac:(lra) ltac:(lra)) as Hrp.
  assert (Hte : - (342 * Rounded.u * tsx) <= ts - tsx <= 342 * Rounded.u * tsx)
    by (split; nra).
  pose proof (ratio_int ts tsx (342 * Rounded.u) ltac:(lra) ltac:(lra) ltac:(lra)) as Hrt.
  assert (Hts0 : 255 <= ts) by lra.
  (* the step in tiles *)
  set (a1 := px / p) in *. set (a2 := tsx / ts) in *.
  assert (Hdts : dx / ts / p = sf * (a1 * a2)).
  { subst sf a1 a2. field. repeat split; lra. }
  assert (Hrho : - (700 * Rounded.u) <= a1 * a2 - 1 <= 700 * Rounded.u).
  { clear -Hrp Hrt Hu. split; nra. }
  pose proof (prod_int sf 1 (a1 * a2 - 1) (700 * Rounded.u) ltac:(lra) ltac:(lra)) as Hstep.
  assert (Hd1 : - (700 * Rounded.u) <= dx / ts / p - sf <= 700 * Rounded.u).
  { rewrite Hdts. lra. }
  assert (Hd2 : - (2 * p) <= dx / ts <= 2 * p).
  { pose proof (div_int (dx / ts - sf * p) (700 * Rounded.u) p ltac:(lra)) as Hdi.
    assert (Heq : (dx / ts - sf * p) / p = dx / ts / p - sf) by (field; lra).
    assert (Hb1 : - 2 <= dx / ts / p <= 2) by lra.
    pose proof (scale_int (dx / ts / p) 2 p Hb1 ltac:(lra)) as Hsc.
    replace (dx / ts / p * p) with (dx / ts) in Hsc by (field; lra). exact Hsc. }
  pose proof (rnd_int Hacc (dx / ts) (2 * p) Hd2 ltac:(lra) ltac:(lra)) as H1.
  set (dxt := Rounded.rnd (dx / ts)) in *.
  (* the column *)
  unfold Rounded.u in *.
  assert (Hxc : - (2 * p) <= x c <= 2 * p).
  { pose proof (scale_int (x c / p) 2 p ltac:(lra) ltac:(lra)) as Hsc.
    replace (x c / p * p) with (x c) in Hsc by (field; lra). exact Hsc. }
  pose proof (rnd_int Hacc (x c + dxt) (5 * p) ltac:(lra) ltac:(lra) ltac:(lra)) as H2. unfold Rounded.u in H2.
  set (cx := Rounded.rnd (x c + dxt)) in *.
  assert (Hcx : - (730 * / 9007199254740992) <= cx / p - (q0 + sf) <= 730 * / 9007199254740992).
  { pose proof (div_int (cx - (x c + dxt)) (10 * / 9007199254740992) p ltac:(lra) ltac:(lra)) as Ha.
    pose proof (div_int (dxt - dx / ts) (4 * / 9007199254740992) p ltac:(lra) ltac:(lra)) as Hb.
    assert (Heq : cx / p - (q0 + sf)
                  = (cx - (x c + dxt)) / p + (x c / p - q0) + (dxt - dx / ts) / p
                    + (dx / ts / p - sf)) by (field; lra).
    rewrite Heq. lra. }
  pose proof (tile2ll_lon_error Hacc cx
                (Rounded.rnd (y c + Rounded.rnd (0 / ts))) (q0 + sf) (730 * / 9007199254740992) k
                Hk30 Hq ltac:(lra) Hcx) as Hlonr.
  unfold Rounded.u in Hlonr.
  split; [subst q0; lra|].
  (* the row *)
  replace (0 / ts) with 0 by (unfold Rdiv; lra).
  pose proof (rnd_int Hacc 0 1 ltac:(lra) ltac:(lra) ltac:(lra)) as H3. unfold Rounded.u in H3.
  set (r0 := Rounded.rnd 0) in *.
  set (hx := (1 - ln (tan (lat * Math_PI / 180) + 1 / cos (lat * Math_PI / 180)) / Math_PI) / 2)
    in *.
  destruct (mercator_exact lat Hlat) as (_ & _ & _ & HLam). cbv zeta in HLam.
  assert (Hhx : - 1.14 <= hx <= 1.14) by (subst hx; unfold Math_PI in *; lra).
  assert (Hyc : - (2 * p) <= y c <= 2 * p).
  { pose proof (scale_int (y c / p) 2 p ltac:(lra) ltac:(lra)) as Hsc.
    replace (y c / p * p) with (y c) in Hsc by (field; lra). exact Hsc. }
  pose proof (rnd_int Hacc (y c + r0) (3 * p) ltac:(lra) ltac:(lra) ltac:(lra)) as H4. unfold Rounded.u in H4.
  set (cy := Rounded.rnd (y c + r0)) in *.
  assert (Hcy : - (9500 * / 9007199254740992) <= cy / p - hx <= 9500 * / 9007199254740992).
  { pose proof (div_int (cy - (y c + r0)) (6 * / 9007199254740992) p ltac:(lra) ltac:(lra)) as Ha.
    pose proof (div_int r0 (3 * / 9007199254740992) p ltac:(lra) ltac:(lra)) as Hb.
    assert (Heq : cy / p - hx = (cy - (y c + r0)) / p + (y c / p - hx) + r0 / p)
      by (field; lra).
    rewrite Heq. lra. }
  pose proof (tile2ll_lat_error Hacc cx cy lat k Hlat Hk30 Hcy) as Hlatr. unfold Rounded.u in Hlatr. lra.
Qed.

End PanRounded.

Section PanRoundedRow.
Import Utils.
Local Open Scope R_scope.
Context `{Rounded.Arith} (Hacc : Rounded.accurate).

(** A pan along the row on rounded arithmetic, away from the date line. *)
Lemma pan_row_rounded (dx : R) (c : LatLon) (zoom : R) :
  0 <= zoom <= 18 ->
  - Rounded.MAX_LAT <= lat c <= Rounded.MAX_LAT ->
  -180 <= lon c <= 180 ->
  -179.9999 <= lon c + dx * 360 / (256 * pow2 zoom) <= 179.9999 ->
  let c' := Rounded.pan dx 0 c zoom in
  (- (3 / 100000000000) <= lon c' - (lon c + dx * 360 / (256 * pow2 zoom))
   <= 3 / 100000000000)
  /\ (- (1 / 100000000) <= lat c' - lat c <= 1 / 100000000)
  /\ - Rounded.MAX_LAT <= lat c' <= Rounded.MAX_LAT.
Proof.
  intros Hzoom Hlat Hlon Hshift. unfold Rounded.MAX_LAT in *.
  pose proof (pan_row_raw Hacc dx (lon c) (lat c) zoom Hzoom ltac:(lra) Hlon ltac:(lra))
    as [Hl Ha].
  cbv zeta in *. unfold Rounded.pan, Rounded.normalize. cbv zeta.
  set (raw := Rounded.tile2ll _ _ _) in *. cbn [lon lat].
  destruct (Rlt_dec (lon raw) (-180)) as [Hw|_]; [lra|].
  destruct (Rgt_dec (lon raw) 180) as [Hw|_]; [lra|].
  split; [exact Hl|]. unfold clamp, Rounded.MAX_LAT.
  destruct (Rle_dec _ _); [lra|]. destruct (Rge_dec _ _); lra.
Qed.

End PanRoundedRow.

Section PanClaims.
Import Utils.
Local Open Scope R_scope.
Context `{Rounded.Arith}.

(** A pan along the row, on binary64.  With every operation rounded to
    the nearest double and every [Math] function within one unit in the
    last place, at a zoom from 0 to 18, from a centre within the Mercator
    latitudes, and as long as the longitude stays a thousandth of a
    degree away from the date line: [pan(dx, 0)] moves the longitude by
    [dx * 360 / (256 * 2^zoom)] degrees to within 3e-11 degrees and
    leaves the latitude where it was to within 1e-8 degrees; panning back
    by the same amount returns to the longitude the pan started from to
    within 6e-11 degrees, and so does [panRight] after [panLeft]. *)
Theorem pan_along_row (dx : R) (c : LatLon) (zoom : R) :
  Rounded.accurate ->
  0 <= zoom <= 18 ->
  -85.0511 <= lat c <= 85.0511 ->
  -179.999 <= lon c <= 179.999 ->
  -179.999 <= lon c + dx * 360 / (256 * pow2 zoom) <= 179.999 ->
  let c' := Rounded.pan dx 0 c zoom in
  Rabs (lon c' - (lon c + dx * 360 / (256 * pow2 zoom))) <= 3e-11
  /\ Rabs (lat c' - lat c) <= 1e-8
  /\ Rabs (lon (Rounded.pan (- dx) 0 c' zoom) - lon c) <= 6e-11
  /\ (dx = - Rounded.PAN_PIXELS ->
      Rabs (lon (Rounded.panRight (Rounded.panLeft c zoom) zoom) - lon c) <= 6e-11).
Proof.
  intros Hacc Hzoom Hlat Hlon Hshift c'.
  destruct (pan_row_rounded Hacc dx c zoom Hzoom ltac:(unfold Rounded.MAX_LAT; lra)
              ltac:(lra) ltac:(lra)) as (Hl & Ha & Hm). fold c' in Hl, Ha, Hm.
  set (shift := dx * 360 / (256 * pow2 zoom)) in *.
  assert (Hback : - dx * 360 / (256 * pow2 zoom) = - shift) by (subst shift; lra).
  destruct (pan_row_rounded Hacc (- dx) c' zoom Hzoom Hm ltac:(lra)
              ltac:(rewrite Hback; lra)) as (Hl' & _ & _).
  rewrite Hback in Hl'.
  assert (Hret : Rabs (lon (Rounded.pan (- dx) 0 c' zoom) - lon c) <= 6e-11)
    by (apply Rabs_le; lra).
  split; [apply Rabs_le; lra|]. split; [apply Rabs_le; lra|]. split; [exact Hret|].
  intros Hdx. unfold Rounded.panRight, Rounded.panLeft.
  subst c'. rewrite Hdx, Ropp_involutive in Hret. exact Hret.
Qed.

End PanClaims.

Lemma pan_along_row_witness :
  (Rabs (Utils.lon (@Rounded.panRight Rounded.correctly_rounded
                      (@Rounded.panLeft Rounded.correctly_rounded
                         (Utils.mkLatLon 53.3498 (-6.2603)) 12) 12) - -6.2603)
   <= 6e-11)%R.
Proof.
  refine (proj2 (proj2 (proj2
    (@pan_along_row Rounded.correctly_rounded (- Rounded.PAN_PIXELS)
       (Utils.mkLatLon 53.3498 (-6.2603)) 12 correctly_rounded_accurate _ _ _ _))) eq_refl).
  - lra.
  - simpl. lra.
  - simpl. lra.
  - simpl. unfold Rounded.PAN_PIXELS.
    pose proof (pow2_ge_1 12 ltac:(lra)) as Hp.
    assert (H0 : (0 < / (256 * Utils.pow2 12))%R) by (apply Rinv_0_lt_compat; lra).
    assert (H1 : (/ (256 * Utils.pow2 12) <= / 256)%R) by (apply Rinv_le_contravar; lra).
    unfold Rdiv. set (i := (/ (256 * Utils.pow2 12))%R) in *. lra.
Defined.
